(** * AGFS: handle manager, FUSE handle bridge, devfs reads, vectorfs index queue

    A shallow embedding of the Go sources

    - [agfs-server/pkg/filesystem] (handle_manager.go): the lease-based
      server-side handle table,
    - [agfs-fuse/pkg/fusefs/handles.go]: the FUSE-side handle records with
      the LOCAL first-read buffer,
    - [agfs-server/pkg/plugins/devfs/devfs.go]: the [/dev/null] plugin,
    - [agfs-server/pkg/plugins/vectorfs] (vectorfs.go): the bounded index
      queue, its overflow supervisor and its workers,

    followed by the properties of these programs.

    Conventions.  A Go [time.Time] is an integer number of nanoseconds
    ([Z]); a [time.Duration] is an integer number of nanoseconds; [t.Add d]
    is [t + d], [t.After u] is [u < t], [t.Before u] is [t < u].  Every
    function that calls [time.Now()] takes the observed instant as its
    argument [now].  A Go map is a [gmap]; a Go byte slice is an
    [option (list byte)], whose [None] is the [nil] slice.  The
    server-side handle manager holds its lock for the whole of every
    method, so each of its functions is one atomic step.  The FUSE bridge
    releases its lock around the calls of the client: its functions are
    calls that no other call overlaps, and [fusefs.call_step] cuts them
    at the places where the source locks and unlocks, for calls that
    do overlap. *)

From Stdlib Require Import ZArith.
From Stdlib.Strings Require Import Byte Ascii.
From stdpp Require Import gmap strings list fin_maps pretty.

Local Open Scope Z_scope.

(** ** Errors *)

Inductive error : Type :=
| ErrNotFound                               (* filesystem.ErrNotFound *)
| EOF                                       (* io.EOF *)
| ErrNew (msg : string)                     (* errors.New / fmt.Errorf without %w *)
| ErrMaxHandles (limit : Z)                 (* "maximum number of handles (%d) reached" *)
| ErrHandleNotFound (h : Z)                 (* "handle %d not found" *)
| ErrWrap (msg : string) (cause : error).   (* fmt.Errorf("msg: %w", err) *)

(** What a call comes to: a value, an error value, or a run-time panic
    (slice bounds out of range, send on a closed channel). *)
Inductive outcome (A : Type) : Type :=
| Ok (a : A)
| Err (e : error)
| Panic.
Arguments Ok {A} a.
Arguments Err {A} e.
Arguments Panic {A}.

(** [time.Time] comparisons. *)
Definition After (t u : Z) : bool := u <? t.
Definition Before (t u : Z) : bool := t <? u.

(** * The server-side handle manager *)

Module filesystem.

(** The [FileHandle] interface: the manager only ever calls [Close].  The
    method may read and change the plugin's own state, and may fail. *)
Class FileHandleAPI (FileHandle PluginWorld : Type) := {
  handle_Close : FileHandle → PluginWorld → option error * PluginWorld
}.

Section HandleManager.

Context {FileHandle PluginWorld : Type} `{!FileHandleAPI FileHandle PluginWorld}.

Record ManagedHandle := {
  Handle     : FileHandle;
  Path       : string;
  Flags      : Z;
  LeaseTime  : Z;   (* lease duration *)
  ExpiresAt  : Z;   (* when the lease expires *)
  CreatedAt  : Z;
  LastAccess : Z
}.

Record HandleManagerConfig := {
  DefaultLease    : Z;
  MaxLease        : Z;
  MaxHandles      : Z;
  CleanupInterval : Z
}.

Definition Second : Z := 1000000000.
Definition Minute : Z := 60 * Second.

Definition DefaultHandleManagerConfig : HandleManagerConfig :=
  {| DefaultLease := 60 * Second;
     MaxLease := 5 * Minute;
     MaxHandles := 10000;
     CleanupInterval := 10 * Second |}.

Record HandleManager := {
  handles : gmap string ManagedHandle;
  config  : HandleManagerConfig
}.

(** What lies outside the manager: the plugin's state, and the record of
    every [Close] the manager has invoked on a plugin handle, oldest first.
    The id stored with a call is the table key under which the handle was
    found; it is bookkeeping of the model, the plugin does not see it. *)
Record World := {
  plugin      : PluginWorld;
  close_calls : list (string * FileHandle)
}.

(** [mh.Handle.Close()] for the record stored under [id]. *)
Definition call_Close (id : string) (h : FileHandle) (w : World)
  : option error * World :=
  let '(err, p) := handle_Close h (plugin w) in
  (err, {| plugin := p; close_calls := close_calls w ++ [(id, h)] |}).

Definition with_handles (hm : HandleManager) (m : gmap string ManagedHandle)
  : HandleManager :=
  {| handles := m; config := config hm |}.

Definition NewHandleManager (config : HandleManagerConfig) : HandleManager :=
  let dl := if DefaultLease config =? 0 then 60 * Second else DefaultLease config in
  let ml := if MaxLease config =? 0 then 5 * Minute else MaxLease config in
  let mx := if MaxHandles config =? 0 then 10000 else MaxHandles config in
  let ci := if CleanupInterval config =? 0 then 10 * Second else CleanupInterval config in
  {| handles := ∅;
     config := {| DefaultLease := dl; MaxLease := ml;
                  MaxHandles := mx; CleanupInterval := ci |} |}.

(** The lease computations of [Register] and [Renew]. *)
Definition cap_lease (cfg : HandleManagerConfig) (lease : Z) : Z :=
  if lease >? MaxLease cfg then MaxLease cfg else lease.

Definition register_lease (cfg : HandleManagerConfig) (lease : Z) : Z :=
  cap_lease cfg (if lease <=? 0 then DefaultLease cfg else lease).

Definition renew_lease (cfg : HandleManagerConfig) (mh : ManagedHandle) (lease : Z) : Z :=
  cap_lease cfg (if lease <=? 0 then LeaseTime mh else lease).

(** [Register].  [id] is the value [generateID()] returns in this call; it
    is drawn only when the capacity check has passed. *)
Definition Register (hm : HandleManager) (handle : FileHandle) (path : string)
    (flags : Z) (lease : Z) (now : Z) (id : string)
  : (string * Z + error) * HandleManager :=
  if Z.of_nat (size (handles hm)) >=? MaxHandles (config hm) then
    (inr (ErrMaxHandles (MaxHandles (config hm))), hm)
  else
    let lease := register_lease (config hm) lease in
    let expiresAt := now + lease in
    let mh := {| Handle := handle; Path := path; Flags := flags;
                 LeaseTime := lease; ExpiresAt := expiresAt;
                 CreatedAt := now; LastAccess := now |} in
    (inl (id, expiresAt), with_handles hm (<[id := mh]> (handles hm))).

Definition Get (hm : HandleManager) (id : string) (now : Z) (w : World)
  : (FileHandle + error) * HandleManager * World :=
  match handles hm !! id with
  | None => (inr ErrNotFound, hm, w)
  | Some mh =>
      if After now (ExpiresAt mh) then
        let '(_, w') := call_Close id (Handle mh) w in
        (inr ErrNotFound, with_handles hm (delete id (handles hm)), w')
      else
        let mh' := {| Handle := Handle mh; Path := Path mh; Flags := Flags mh;
                      LeaseTime := LeaseTime mh;
                      ExpiresAt := now + LeaseTime mh;
                      CreatedAt := CreatedAt mh; LastAccess := now |} in
        (inl (Handle mh), with_handles hm (<[id := mh']> (handles hm)), w)
  end.

Definition GetInfo (hm : HandleManager) (id : string) (now : Z)
  : ManagedHandle + error :=
  match handles hm !! id with
  | None => inr ErrNotFound
  | Some mh => if After now (ExpiresAt mh) then inr ErrNotFound else inl mh
  end.

Definition Renew (hm : HandleManager) (id : string) (lease : Z) (now : Z) (w : World)
  : (Z + error) * HandleManager * World :=
  match handles hm !! id with
  | None => (inr ErrNotFound, hm, w)
  | Some mh =>
      if After now (ExpiresAt mh) then
        let '(_, w') := call_Close id (Handle mh) w in
        (inr ErrNotFound, with_handles hm (delete id (handles hm)), w')
      else
        let lease := renew_lease (config hm) mh lease in
        let mh' := {| Handle := Handle mh; Path := Path mh; Flags := Flags mh;
                      LeaseTime := lease;
                      ExpiresAt := now + lease;
                      CreatedAt := CreatedAt mh; LastAccess := now |} in
        (inl (ExpiresAt mh'), with_handles hm (<[id := mh']> (handles hm)), w)
  end.

Definition Close (hm : HandleManager) (id : string) (w : World)
  : option error * HandleManager * World :=
  match handles hm !! id with
  | None => (Some ErrNotFound, hm, w)
  | Some mh =>
      let '(err, w') := call_Close id (Handle mh) w in
      (err, with_handles hm (delete id (handles hm)), w')
  end.

(** [List]: the records with [now.Before(mh.ExpiresAt)], in the order the
    map is ranged over (unspecified in Go; here the order of
    [map_to_list]). *)
Definition List (hm : HandleManager) (now : Z) : list ManagedHandle :=
  (filter (λ kv, Before now (ExpiresAt kv.2) = true) (map_to_list (handles hm))).*2.

Definition Count (hm : HandleManager) : Z := Z.of_nat (size (handles hm)).

Definition Config (hm : HandleManager) : HandleManagerConfig := config hm.

(** One iteration of the loop of [cleanup]. *)
Definition cleanup_visit (now : Z) (s : HandleManager * World)
    (kv : string * ManagedHandle) : HandleManager * World :=
  if After now (ExpiresAt kv.2) then
    let '(_, w') := call_Close kv.1 (Handle kv.2) s.2 in
    (with_handles s.1 (delete kv.1 (handles s.1)), w')
  else s.

(** [cleanup], the body of a reaper tick: ranges over the table, closing
    and deleting the entry it is at.  Deleting the current entry during a
    Go map range is safe and every other entry is still visited once. *)
Definition cleanup (hm : HandleManager) (now : Z) (w : World)
  : HandleManager * World :=
  foldl (cleanup_visit now) (hm, w) (map_to_list (handles hm)).

Definition stop_visit (s : HandleManager * World)
    (kv : string * ManagedHandle) : HandleManager * World :=
  let '(_, w') := call_Close kv.1 (Handle kv.2) s.2 in
  (with_handles s.1 (delete kv.1 (handles s.1)), w').

(** [Stop], after the reaper goroutine has exited. *)
Definition Stop (hm : HandleManager) (w : World) : HandleManager * World :=
  foldl stop_visit (hm, w) (map_to_list (handles hm)).

(** The lease a request is given, in the words of the specification: zero
    stands for a default, and what results is clamped to the maximum. *)
Definition spec_lease (max default requested : Z) : Z :=
  Z.min (if decide (requested = 0) then default else requested) max.

(** ** The two sweeps as one loop *)

(** [cleanup] and [Stop] are the same loop, closing and deleting the
    records picked by a test [P]: expiry for the reaper, everything for
    [Stop]. *)
Definition sweep_visit (P : ManagedHandle → bool) (s : HandleManager * World)
    (kv : string * ManagedHandle) : HandleManager * World :=
  if P kv.2 then
    let '(_, w') := call_Close kv.1 (Handle kv.2) s.2 in
    (with_handles s.1 (delete kv.1 (handles s.1)), w')
  else s.

Definition expired (now : Z) (mh : ManagedHandle) : bool := After now (ExpiresAt mh).

(** The table and the close calls after such a loop over [l]. *)
Definition swept (P : ManagedHandle → bool) (m : gmap string ManagedHandle)
    (l : list (string * ManagedHandle)) : gmap string ManagedHandle :=
  foldl (λ m kv, if P kv.2 then delete kv.1 m else m) m l.

Definition reaped (P : ManagedHandle → bool) (l : list (string * ManagedHandle))
  : list (string * FileHandle) :=
  (λ kv, (kv.1, Handle kv.2)) <$> filter (λ kv, P kv.2 = true) l.

(** ** Sequences of operations *)

Inductive op :=
| OpRegister (handle : FileHandle) (path : string) (flags : Z) (lease : Z) (id : string)
| OpGet (id : string)
| OpGetInfo (id : string)
| OpRenew (id : string) (lease : Z)
| OpClose (id : string)
| OpList
| OpCount
| OpCleanup
| OpStop.

(** One operation, performed at instant [now]. *)
Definition step (now : Z) (o : op) (s : HandleManager * World)
  : HandleManager * World :=
  match o with
  | OpRegister h p f l id => ((Register s.1 h p f l now id).2, s.2)
  | OpGet id => let '(_, hm, w) := Get s.1 id now s.2 in (hm, w)
  | OpRenew id l => let '(_, hm, w) := Renew s.1 id l now s.2 in (hm, w)
  | OpClose id => let '(_, hm, w) := Close s.1 id s.2 in (hm, w)
  | OpCleanup => cleanup s.1 now s.2
  | OpStop => Stop s.1 s.2
  | OpGetInfo _ | OpList | OpCount => s
  end.

Definition run (tr : list (Z * op)) (s : HandleManager * World)
  : HandleManager * World :=
  foldl (λ s e, step e.1 e.2 s) s tr.

(** The ids [generateID()] is asked to supply along a sequence. *)
Definition generated_ids (tr : list (Z * op)) : list string :=
  omap (λ e, match e.2 with OpRegister _ _ _ _ id => Some id | _ => None end) tr.

(** How often the plugin [Close] was invoked for the record of [id]. *)
Definition closes_of (id : string) (w : World) : nat :=
  length (filter (λ c, c.1 = id) (close_calls w)).

(** The bookkeeping behind at-most-once close, for a state and the ids
    [generateID()] has yet to supply: no id was closed twice, a record in
    the table has not been closed, and an id yet to come is neither in the
    table nor closed. *)
Definition closed_once (fresh : list string) (s : HandleManager * World) : Prop :=
  ∀ id, (closes_of id s.2 ≤ 1)%nat ∧
        (is_Some (handles s.1 !! id) → closes_of id s.2 = 0%nat) ∧
        (id ∈ fresh → handles s.1 !! id = None ∧ closes_of id s.2 = 0%nat).

(** What [Get], [Renew] and [Close] can do to the record of the id they
    are given: find none, close and delete it, or rewrite its lease. *)
Inductive point_effect (id : string) (s s' : HandleManager * World) : Prop :=
| effect_absent :
    handles s.1 !! id = None → s' = s → point_effect id s s'
| effect_removed mh :
    handles s.1 !! id = Some mh →
    handles s'.1 = delete id (handles s.1) →
    s'.2 = (call_Close id (Handle mh) s.2).2 →
    point_effect id s s'
| effect_updated mh mh' :
    handles s.1 !! id = Some mh →
    handles s'.1 = <[id := mh']> (handles s.1) →
    Handle mh' = Handle mh →
    s'.2 = s.2 →
    point_effect id s s'.

(** A record with a positive lease, expiring that long after its last
    access. *)
Definition lease_positive (mh : ManagedHandle) : Prop :=
  0 < LeaseTime mh ∧ ExpiresAt mh = LastAccess mh + LeaseTime mh.

(** The lease invariant of a record. *)
Definition lease_ok (cfg : HandleManagerConfig) (mh : ManagedHandle) : Prop :=
  ExpiresAt mh = LastAccess mh + LeaseTime mh ∧ LeaseTime mh ≤ MaxLease cfg.

End HandleManager.

End filesystem.

(** * The FUSE-side handle bridge *)

Module fusefs.

(** A Go byte slice; [None] is [nil]. *)
Abbreviation slice := (option (list Byte.byte)).

Definition len (d : slice) : Z :=
  match d with None => 0 | Some l => Z.of_nat (length l) end.

Definition bytes_of (d : slice) : list Byte.byte := default [] d.

(** Two's-complement wrap-around of [int64] arithmetic. *)
Definition wrap64 (z : Z) : Z := (z + 2 ^ 63) `mod` 2 ^ 64 - 2 ^ 63.

Definition wrapU64 (z : Z) : Z := z `mod` 2 ^ 64.

(** The slice expression [data[lo:hi]] of Go for [hi ≤ len(data)]. *)
Definition slice_expr (data : slice) (lo hi : Z) : outcome slice :=
  if (0 <=? lo) && (lo <=? hi) && (hi <=? len data) then
    Ok (Some (take (Z.to_nat (hi - lo)) (drop (Z.to_nat lo) (bytes_of data))))
  else Panic.

(** The AGFS SDK client ([agfs.Client], not part of this repository's
    sources): each call may read and change the state behind the client
    (server, plugins) and returns a value or an error. *)
Class ClientAPI (ClientWorld : Type) := {
  client_OpenHandle  : string → Z → Z → ClientWorld → (Z + error) * ClientWorld;
  client_CloseHandle : Z → ClientWorld → option error * ClientWorld;
  client_ReadHandle  : Z → Z → Z → ClientWorld → (slice + error) * ClientWorld;
  client_Read        : string → Z → Z → ClientWorld → (slice + error) * ClientWorld;
  (* errors.Is(err, agfs.ErrNotSupported) *)
  is_ErrNotSupported : error → bool
}.

Inductive handleType := handleTypeRemote | handleTypeLocal.

Record handleInfo := {
  htype      : handleType;
  agfsHandle : Z;
  path       : string;
  flags      : Z;
  mode       : Z;
  readBuffer : slice
}.

Record HandleManager := {
  handles    : gmap Z handleInfo;
  nextHandle : Z
}.

(** The calls made through the client, oldest first. *)
Inductive client_call :=
| CallOpenHandle (path : string) (flags mode : Z)
| CallCloseHandle (h : Z)
| CallReadHandle (h offset size : Z)
| CallRead (path : string) (offset size : Z).

Section Bridge.

Context {ClientWorld : Type} `{!ClientAPI ClientWorld}.

Record World := {
  server : ClientWorld;
  calls  : list client_call
}.

Definition through {A} (c : client_call) (f : ClientWorld → A * ClientWorld)
    (w : World) : A * World :=
  let '(r, s) := f (server w) in
  (r, {| server := s; calls := calls w ++ [c] |}).

Definition NewHandleManager : HandleManager :=
  {| handles := ∅; nextHandle := 1 |}.

Definition Open (hm : HandleManager) (path : string) (flags mode : Z) (w : World)
  : (Z + error) * HandleManager * World :=
  let '(r, w) := through (CallOpenHandle path flags mode)
                         (client_OpenHandle path flags mode) w in
  let fuseHandle := wrapU64 (nextHandle hm + 1) in
  let hm := {| handles := handles hm; nextHandle := fuseHandle |} in
  match r with
  | inr err =>
      if is_ErrNotSupported err then
        (inl fuseHandle,
         {| handles := <[fuseHandle :=
                          {| htype := handleTypeLocal; agfsHandle := 0;
                             path := path; flags := flags; mode := mode;
                             readBuffer := None |}]> (handles hm);
            nextHandle := nextHandle hm |}, w)
      else (inr (ErrWrap "failed to open handle" err), hm, w)
  | inl agfsHandle =>
      (inl fuseHandle,
       {| handles := <[fuseHandle :=
                        {| htype := handleTypeRemote; agfsHandle := agfsHandle;
                           path := path; flags := flags; mode := mode;
                           readBuffer := None |}]> (handles hm);
          nextHandle := nextHandle hm |}, w)
  end.

Definition Close (hm : HandleManager) (fuseHandle : Z) (w : World)
  : option error * HandleManager * World :=
  match handles hm !! fuseHandle with
  | None => (Some (ErrHandleNotFound fuseHandle), hm, w)
  | Some info =>
      let hm := {| handles := delete fuseHandle (handles hm);
                   nextHandle := nextHandle hm |} in
      match htype info with
      | handleTypeRemote =>
          let '(r, w) := through (CallCloseHandle (agfsHandle info))
                                 (client_CloseHandle (agfsHandle info)) w in
          match r with
          | Some err => (Some (ErrWrap "failed to close handle" err), hm, w)
          | None => (None, hm, w)
          end
      | handleTypeLocal => (None, hm, w)
      end
  end.

(** "Return requested portion": the tail shared by both LOCAL branches of
    [Read]. *)
Definition portion (data : slice) (offset size : Z) : outcome slice :=
  if offset >=? len data then Ok (Some [])
  else
    let end_ := wrap64 (offset + size) in
    let end_ := if end_ >? len data then len data else end_ in
    slice_expr data offset end_.

(** [Read] as one call, from its first line to its return, with no other
    call on the bridge in between.  The source holds [hm.mu] for the
    lookup, releases it around [client.Read] and takes it again to store
    the payload; what calls that overlap do is [call_step] below, and
    [Read_alone] shows that this is what a call does when nothing overlaps
    it. *)
Definition Read (hm : HandleManager) (fuseHandle offset size : Z) (w : World)
  : outcome slice * HandleManager * World :=
  match handles hm !! fuseHandle with
  | None => (Err (ErrHandleNotFound fuseHandle), hm, w)
  | Some info =>
      match htype info with
      | handleTypeRemote =>
          let '(r, w) := through (CallReadHandle (agfsHandle info) offset size)
                           (client_ReadHandle (agfsHandle info) offset size) w in
          match r with
          | inr err => (Err (ErrWrap "failed to read handle" err), hm, w)
          | inl data => (Ok data, hm, w)
          end
      | handleTypeLocal =>
          match readBuffer info with
          | None =>
              (* first read: fetch all data and cache it *)
              let '(r, w) := through (CallRead (path info) 0 (-1))
                               (client_Read (path info) 0 (-1)) w in
              match r with
              | inr err => (Err (ErrWrap "failed to read file" err), hm, w)
              | inl data =>
                  let hm :=
                    match handles hm !! fuseHandle with
                    | Some info =>
                        {| handles := <[fuseHandle :=
                              {| htype := htype info; agfsHandle := agfsHandle info;
                                 path := path info; flags := flags info;
                                 mode := mode info; readBuffer := data |}]>
                              (handles hm);
                           nextHandle := nextHandle hm |}
                    | None => hm
                    end in
                  (portion data offset size, hm, w)
              end
          | Some buf => (portion (Some buf) offset size, hm, w)
          end
      end
  end.

Definition Count (hm : HandleManager) : Z := Z.of_nat (size (handles hm)).

(** A run of reads on one handle, collecting what each returns. *)
Fixpoint Reads (hm : HandleManager) (fuseHandle : Z) (reqs : list (Z * Z)) (w : World)
  : list (outcome slice) * HandleManager * World :=
  match reqs with
  | [] => ([], hm, w)
  | (offset, size) :: reqs =>
      let '(r, hm, w) := Read hm fuseHandle offset size w in
      let '(rs, hm, w) := Reads hm fuseHandle reqs w in
      (r :: rs, hm, w)
  end.

End Bridge.

(** The requests FUSE makes: an offset and a buffer length, neither
    negative, whose sum is an [int64]. *)
Definition request (offset size : Z) : Prop :=
  0 ≤ offset ∧ 0 ≤ size ∧ offset + size < 2 ^ 63.

(** The byte range [[o, min(o+s, length d))] of a payload, as the
    specification words it. *)
Definition byte_range (d : list Byte.byte) (o s : Z) : list Byte.byte :=
  take (Z.to_nat (Z.min (o + s) (Z.of_nat (length d)) - o)) (drop (Z.to_nat o) d).

(** ** Writing, syncing and closing everything *)

(** The write side of the SDK client.  [client_Write] is
    [Client.Write(path, data)], of which the bridge uses only the error. *)
Class ClientWriteAPI (ClientWorld : Type) := {
  client_Write       : string → slice → ClientWorld → option error * ClientWorld;
  client_WriteHandle : Z → slice → Z → ClientWorld → (Z + error) * ClientWorld;
  client_SyncHandle  : Z → ClientWorld → option error * ClientWorld
}.

#[export] Instance handleType_eq_dec : EqDecision handleType.
Proof. solve_decision. Defined.

Inductive write_call :=
| CallWrite (path : string) (data : slice)
| CallWriteHandle (h : Z) (data : slice) (offset : Z)
| CallSyncHandle (h : Z).

Section BridgeWrites.

Context {ClientWorld : Type} `{!ClientAPI ClientWorld} `{!ClientWriteAPI ClientWorld}.

(** The world of the bridge with the write-side calls recorded as well,
    oldest first, in a log of their own. *)
Record WriteWorld := {
  world       : World (ClientWorld := ClientWorld);
  write_calls : list write_call
}.

Definition through_write {A} (c : write_call) (f : ClientWorld → A * ClientWorld)
    (w : WriteWorld) : A * WriteWorld :=
  let '(r, s) := f (server (world w)) in
  (r, {| world := {| server := s; calls := calls (world w) |};
         write_calls := write_calls w ++ [c] |}).

(** An operation of the read side, run in the larger world. *)
Definition lift {A} (f : World → A * HandleManager * World) (w : WriteWorld)
  : A * HandleManager * WriteWorld :=
  let '(r, hm, w') := f (world w) in
  (r, hm, {| world := w'; write_calls := write_calls w |}).

Definition Write (hm : HandleManager) (fuseHandle : Z) (data : slice) (offset : Z)
    (w : WriteWorld) : (Z + error) * WriteWorld :=
  match handles hm !! fuseHandle with
  | None => (inr (ErrHandleNotFound fuseHandle), w)
  | Some info =>
      match htype info with
      | handleTypeRemote =>
          let '(r, w) := through_write (CallWriteHandle (agfsHandle info) data offset)
                           (client_WriteHandle (agfsHandle info) data offset) w in
          match r with
          | inr err => (inr (ErrWrap "failed to write handle" err), w)
          | inl written => (inl written, w)
          end
      | handleTypeLocal =>
          let '(r, w) := through_write (CallWrite (path info) data)
                           (client_Write (path info) data) w in
          match r with
          | Some err => (inr (ErrWrap "failed to write to server" err), w)
          | None => (inl (len data), w)
          end
      end
  end.

Definition Sync (hm : HandleManager) (fuseHandle : Z) (w : WriteWorld)
  : option error * WriteWorld :=
  match handles hm !! fuseHandle with
  | None => (Some (ErrHandleNotFound fuseHandle), w)
  | Some info =>
      match htype info with
      | handleTypeRemote =>
          let '(r, w) := through_write (CallSyncHandle (agfsHandle info))
                           (client_SyncHandle (agfsHandle info)) w in
          match r with
          | Some err => (Some (ErrWrap "failed to sync handle" err), w)
          | None => (None, w)
          end
      | handleTypeLocal => (None, w)
      end
  end.

(** One iteration of the loop of [CloseAll]. *)
Definition closeAll_visit (acc : option error * World) (kv : Z * handleInfo)
  : option error * World :=
  match htype kv.2 with
  | handleTypeRemote =>
      let '(r, w) := through (CallCloseHandle (agfsHandle kv.2))
                             (client_CloseHandle (agfsHandle kv.2)) acc.2 in
      match r with
      | Some err => (Some err, w)
      | None => (acc.1, w)
      end
  | handleTypeLocal => acc
  end.

(** [CloseAll]: the table is swapped for an empty one, then the copy is
    ranged over (in the order of [map_to_list] here). *)
Definition CloseAll (hm : HandleManager) (w : World)
  : option error * HandleManager * World :=
  let '(lastErr, w) := foldl closeAll_visit (None, w) (map_to_list (handles hm)) in
  (lastErr, {| handles := ∅; nextHandle := nextHandle hm |}, w).

(** Sequences of operations on the bridge. *)
Inductive op :=
| OpOpen (path : string) (flags mode : Z)
| OpClose (fuseHandle : Z)
| OpRead (fuseHandle offset size : Z)
| OpWrite (fuseHandle : Z) (data : slice) (offset : Z)
| OpSync (fuseHandle : Z)
| OpCloseAll.

Definition step (o : op) (s : HandleManager * WriteWorld)
  : HandleManager * WriteWorld :=
  match o with
  | OpOpen p f m => let '(_, hm, w) := lift (Open s.1 p f m) s.2 in (hm, w)
  | OpClose h => let '(_, hm, w) := lift (Close s.1 h) s.2 in (hm, w)
  | OpRead h o n => let '(_, hm, w) := lift (Read s.1 h o n) s.2 in (hm, w)
  | OpWrite h d o => (s.1, (Write s.1 h d o s.2).2)
  | OpSync h => (s.1, (Sync s.1 h s.2).2)
  | OpCloseAll => let '(_, hm, w) := lift (CloseAll s.1) s.2 in (hm, w)
  end.

Definition run (tr : list op) (s : HandleManager * WriteWorld)
  : HandleManager * WriteWorld :=
  foldl (λ s o, step o s) s tr.

(** The handle ids in use are the ones handed out so far: between 2 and
    [nextHandle]. *)
Definition ids_in_range (hm : HandleManager) : Prop :=
  1 ≤ nextHandle hm ∧ ∀ k, is_Some (handles hm !! k) → 2 ≤ k ≤ nextHandle hm.

End BridgeWrites.

(** ** Calls that overlap *)

(** The bridge is driven by several kernel threads.  Every method takes
    [hm.mu] for its work on the table and releases it before it calls the
    client, so between two such points of one call other calls can run.
    [Open], [Close], [Read] and [CloseAll] above are each a call that runs
    from its first line to its return with no other call in between; here
    a call is cut at the places where the source locks and unlocks. *)
Section Overlapping.

Context {ClientWorld : Type} `{!ClientAPI ClientWorld}.

(** Where a call stands. *)
Inductive progress :=
(* Open: before [client.OpenHandle]; with its result, before the counter
   is bumped and the table locked; returned *)
| OpenCalled (p : string) (fl md : Z)
| OpenInserting (p : string) (fl md : Z) (r : Z + error)
| OpenReturned (r : Z + error)
(* Read: before the first lock; REMOTE, unlocked, before
   [client.ReadHandle]; LOCAL with no buffer, unlocked, before
   [client.Read]; with the payload, before the second lock; returned *)
| ReadCalled (fuseHandle offset size : Z)
| ReadRemote (h offset size : Z)
| ReadFetching (fuseHandle offset size : Z) (p : string)
| ReadStoring (fuseHandle offset size : Z) (data : slice)
| ReadReturned (r : outcome slice)
(* Close: before the lock; REMOTE, record deleted, unlocked, before
   [client.CloseHandle]; returned *)
| CloseCalled (fuseHandle : Z)
| CloseRemote (h : Z)
| CloseReturned (r : option error)
(* CloseAll: before the lock; ranging over the copy of the table, with
   the records still to visit and [lastErr]; returned *)
| CloseAllCalled
| CloseAllClosing (rest : list (Z * handleInfo)) (lastErr : option error)
| CloseAllReturned (r : option error).

(** The record of a handle with its read buffer set. *)
Definition store_buffer (hm : HandleManager) (fuseHandle : Z) (data : slice)
  : HandleManager :=
  match handles hm !! fuseHandle with
  | Some info =>
      {| handles := <[fuseHandle :=
            {| htype := htype info; agfsHandle := agfsHandle info;
               path := path info; flags := flags info;
               mode := mode info; readBuffer := data |}]>
            (handles hm);
         nextHandle := nextHandle hm |}
  | None => hm
  end.

(** One call runs up to its next lock, unlock or return.  (In [Open] the
    atomic increment of the counter and the locked insertion that follows
    are taken together: the new id is known to no other call before [Open]
    returns.) *)
Definition call_step (t : progress) (hm : HandleManager) (w : World)
  : progress * HandleManager * World :=
  match t with
  | OpenCalled p fl md =>
      let '(r, w) := through (CallOpenHandle p fl md) (client_OpenHandle p fl md) w in
      (OpenInserting p fl md r, hm, w)
  | OpenInserting p fl md r =>
      let fuseHandle := wrapU64 (nextHandle hm + 1) in
      let hm := {| handles := handles hm; nextHandle := fuseHandle |} in
      match r with
      | inr err =>
          if is_ErrNotSupported err then
            (OpenReturned (inl fuseHandle),
             {| handles := <[fuseHandle :=
                              {| htype := handleTypeLocal; agfsHandle := 0;
                                 path := p; flags := fl; mode := md;
                                 readBuffer := None |}]> (handles hm);
                nextHandle := nextHandle hm |}, w)
          else (OpenReturned (inr (ErrWrap "failed to open handle" err)), hm, w)
      | inl agfsHandle =>
          (OpenReturned (inl fuseHandle),
           {| handles := <[fuseHandle :=
                            {| htype := handleTypeRemote; agfsHandle := agfsHandle;
                               path := p; flags := fl; mode := md;
                               readBuffer := None |}]> (handles hm);
              nextHandle := nextHandle hm |}, w)
      end
  | ReadCalled fuseHandle offset size =>
      match handles hm !! fuseHandle with
      | None => (ReadReturned (Err (ErrHandleNotFound fuseHandle)), hm, w)
      | Some info =>
          match htype info with
          | handleTypeRemote => (ReadRemote (agfsHandle info) offset size, hm, w)
          | handleTypeLocal =>
              match readBuffer info with
              | None => (ReadFetching fuseHandle offset size (path info), hm, w)
              | Some buf => (ReadReturned (portion (Some buf) offset size), hm, w)
              end
          end
      end
  | ReadRemote h offset size =>
      let '(r, w) := through (CallReadHandle h offset size)
                       (client_ReadHandle h offset size) w in
      match r with
      | inr err => (ReadReturned (Err (ErrWrap "failed to read handle" err)), hm, w)
      | inl data => (ReadReturned (Ok data), hm, w)
      end
  | ReadFetching fuseHandle offset size p =>
      let '(r, w) := through (CallRead p 0 (-1)) (client_Read p 0 (-1)) w in
      match r with
      | inr err => (ReadReturned (Err (ErrWrap "failed to read file" err)), hm, w)
      | inl data => (ReadStoring fuseHandle offset size data, hm, w)
      end
  | ReadStoring fuseHandle offset size data =>
      (* "Re-check if handle still exists" *)
      (ReadReturned (portion data offset size), store_buffer hm fuseHandle data, w)
  | CloseCalled fuseHandle =>
      match handles hm !! fuseHandle with
      | None => (CloseReturned (Some (ErrHandleNotFound fuseHandle)), hm, w)
      | Some info =>
          let hm := {| handles := delete fuseHandle (handles hm);
                       nextHandle := nextHandle hm |} in
          match htype info with
          | handleTypeRemote => (CloseRemote (agfsHandle info), hm, w)
          | handleTypeLocal => (CloseReturned None, hm, w)
          end
      end
  | CloseRemote h =>
      let '(r, w) := through (CallCloseHandle h) (client_CloseHandle h) w in
      match r with
      | Some err => (CloseReturned (Some (ErrWrap "failed to close handle" err)), hm, w)
      | None => (CloseReturned None, hm, w)
      end
  | CloseAllCalled =>
      (CloseAllClosing (map_to_list (handles hm)) None,
       {| handles := ∅; nextHandle := nextHandle hm |}, w)
  | CloseAllClosing (kv :: rest) lastErr =>
      let '(lastErr, w) := closeAll_visit (lastErr, w) kv in
      (CloseAllClosing rest lastErr, hm, w)
  | CloseAllClosing [] lastErr => (CloseAllReturned lastErr, hm, w)
  | OpenReturned _ | ReadReturned _ | CloseReturned _ | CloseAllReturned _ =>
      (t, hm, w)
  end.

(** The bridge with its calls under way.  [fetches] is a ghost log: the
    handles on whose behalf [client.Read] has been called, oldest
    first. *)
Record bridge := {
  table   : HandleManager;
  outside : World (ClientWorld := ClientWorld);
  pool    : list progress;
  fetches : list Z
}.

(** What can happen next: a kernel thread enters a method, the [i]-th
    call under way runs up to its next lock, unlock or return, or
    something else (a write or sync of the bridge, another client) acts
    on the server. *)
Inductive event :=
| EvOpen (p : string) (fl md : Z)
| EvRead (fuseHandle offset size : Z)
| EvClose (fuseHandle : Z)
| EvCloseAll
| EvStep (i : nat)
| EvServer (f : ClientWorld → ClientWorld).

Definition enter (t : progress) (b : bridge) : bridge :=
  {| table := table b; outside := outside b; pool := pool b ++ [t];
     fetches := fetches b |}.

Definition fire (e : event) (b : bridge) : bridge :=
  match e with
  | EvOpen p fl md => enter (OpenCalled p fl md) b
  | EvRead fuseHandle offset size => enter (ReadCalled fuseHandle offset size) b
  | EvClose fuseHandle => enter (CloseCalled fuseHandle) b
  | EvCloseAll => enter CloseAllCalled b
  | EvStep i =>
      match pool b !! i with
      | None => b
      | Some t =>
          let '(t', hm, w) := call_step t (table b) (outside b) in
          {| table := hm; outside := w; pool := <[i := t']> (pool b);
             fetches := match t with
                        | ReadFetching fuseHandle _ _ _ => fetches b ++ [fuseHandle]
                        | _ => fetches b
                        end |}
      end
  | EvServer f =>
      {| table := table b;
         outside := {| server := f (server (outside b)); calls := calls (outside b) |};
         pool := pool b; fetches := fetches b |}
  end.

Definition schedule (es : list event) (b : bridge) : bridge :=
  foldl (λ b e, fire e b) b es.

(** A call of [Read] from entry to return with nothing in between. *)
Definition read_alone (b : bridge) (fuseHandle offset size : Z) : list event :=
  let n := length (pool b) in
  [EvRead fuseHandle offset size; EvStep n; EvStep n; EvStep n].

(** A read of [fuseHandle] that has found the buffer unset and has not
    yet stored what it fetched. *)
Definition in_flight (fuseHandle : Z) (t : progress) : bool :=
  match t with
  | ReadFetching k _ _ _ | ReadStoring k _ _ _ => bool_decide (k = fuseHandle)
  | _ => false
  end.

(** A handle whose buffer is settled: while its record is there it is
    LOCAL with [data] as its buffer, no read of it is in flight, and its id
    has been handed out, so that [Open] will not hand it out again. *)
Definition settled (fuseHandle : Z) (data : list Byte.byte) (b : bridge) : Prop :=
  (∀ info, handles (table b) !! fuseHandle = Some info →
           htype info = handleTypeLocal ∧ readBuffer info = Some data) ∧
  Forall (λ t, in_flight fuseHandle t = false) (pool b) ∧
  fuseHandle ≤ nextHandle (table b).

(** What the [CloseHandle] calls of [CloseAll] over the records [l]
    return, in the order they are made. *)
Fixpoint closeAll_results (l : list (Z * handleInfo)) (sv : ClientWorld)
  : list (option error) :=
  match l with
  | [] => []
  | kv :: l =>
      match htype kv.2 with
      | handleTypeRemote =>
          let '(r, sv') := client_CloseHandle (agfsHandle kv.2) sv in
          r :: closeAll_results l sv'
      | handleTypeLocal => closeAll_results l sv
      end
  end.

End Overlapping.

End fusefs.

(** * devfs *)

Module devfs.

Record MetaData := { MetaName : string; MetaType : string }.

Record FileInfo := {
  Name    : string;
  Size    : Z;
  Mode    : Z;
  ModTime : Z;
  IsDir   : bool;
  Meta    : MetaData
}.

Definition PluginName : string := "devfs".

Definition Read (path : string) (offset size : Z)
  : fusefs.slice * option error :=
  if String.eqb path "/null" then (None, Some EOF)
  else (None, Some ErrNotFound).

Definition Write (path : string) (data : fusefs.slice) (offset flags : Z)
  : Z * option error :=
  if String.eqb path "/null" then (fusefs.len data, None)
  else (0, Some (ErrNew "read-only filesystem")).

Definition Stat (path : string) (now : Z) : option FileInfo * option error :=
  if String.eqb path "/null" then
    (Some {| Name := "null"; Size := 0; Mode := 438 (* 0666 *); ModTime := now;
             IsDir := false;
             Meta := {| MetaName := PluginName; MetaType := "device" |} |}, None)
  else if String.eqb path "/" then
    (Some {| Name := "/"; Size := 0; Mode := 365 (* 0555 *); ModTime := now;
             IsDir := true;
             Meta := {| MetaName := PluginName; MetaType := "directory" |} |}, None)
  else (None, Some ErrNotFound).

Definition ReadDir (path : string) (now : Z)
  : option (list FileInfo) * option error :=
  if String.eqb path "/" then
    (Some [ {| Name := "null"; Size := 0; Mode := 438 (* 0666 *); ModTime := now;
               IsDir := false;
               Meta := {| MetaName := PluginName; MetaType := "device" |} |} ],
     None)
  else (None, Some (ErrNew "not a directory")).

End devfs.

(** * Go's [strings] functions used below, on byte strings *)

Module gostrings.

(** [strings.HasPrefix]. *)
Fixpoint HasPrefix (s prefix : string) : bool :=
  match prefix, s with
  | EmptyString, _ => true
  | String p prefix, String c s => if decide (c = p) then HasPrefix s prefix else false
  | String _ _, EmptyString => false
  end.

(** [s[n:]]. *)
Fixpoint drop_bytes (n : nat) (s : string) : string :=
  match n, s with
  | O, _ => s
  | S n, String _ s => drop_bytes n s
  | S _, EmptyString => EmptyString
  end.

(** [strings.TrimPrefix]. *)
Definition TrimPrefix (s prefix : string) : string :=
  if HasPrefix s prefix then drop_bytes (String.length prefix) s else s.

(** [strings.Split(s, sep)] for a separator of one byte: the pieces between
    the separators, always at least one. *)
Fixpoint Split (s : string) (sep : Ascii.ascii) : list string :=
  match s with
  | EmptyString => [EmptyString]
  | String c s =>
      if decide (c = sep) then EmptyString :: Split s sep
      else match Split s sep with
           | piece :: pieces => String c piece :: pieces
           | [] => [String c EmptyString]
           end
  end.

(** [strings.SplitN(s, sep, 2)] for a separator of one byte: [s] cut at its
    first separator, or [s] alone when it has none. *)
Fixpoint SplitN2 (s : string) (sep : Ascii.ascii) : list string :=
  match s with
  | EmptyString => [EmptyString]
  | String c s =>
      if decide (c = sep) then [EmptyString; s]
      else match SplitN2 s sep with
           | piece :: pieces => String c piece :: pieces
           | [] => [String c EmptyString]
           end
  end.

(** Whether a byte occurs in a string. *)
Fixpoint contains_byte (c : Ascii.ascii) (s : string) : bool :=
  match s with
  | EmptyString => false
  | String a s => if decide (a = c) then true else contains_byte c s
  end.

End gostrings.

(** * sqlfs2: paths *)

Module sqlfs2.

(** [parsePath]: [/dbName/tableName/operation] into its components.  The
    error message carries the path after the leading slash was trimmed. *)
Definition parsePath (path : string) : outcome (string * string * string) :=
  let path := gostrings.TrimPrefix path "/" in
  let parts := gostrings.Split path "/"%char in
  if decide (length parts = 0%nat ∨ path = "") then Ok ("", "", "")
  else match parts with
       | [db] => Ok (db, "", "")
       | [db; table] => Ok (db, table, "")
       | [db; table; operation] => Ok (db, table, operation)
       | _ => Err (ErrNew ("invalid path: " +:+ path))
       end.

End sqlfs2.

(** * hellofs-c: the example plugin in C *)

Module hellofs_c.

Definition content : string := "Hello from C dynamic library!" +:+ String (Ascii.ascii_of_nat 10) "".

(** What [FSRead] hands back: the string returned and [*out_len].
    [memcpy] from [content + offset] with a negative offset reads outside
    the string literal: undefined behaviour, [None] here. *)
Definition FSRead (path : string) (offset size : Z) : option (string * Z) :=
  if String.eqb path "/hello" then
    let content_len := Z.of_nat (String.length content) in
    if offset >=? content_len then Some ("", 0)
    else
      let remaining := content_len - offset in
      let read_len := if (size >? 0) && (size <? remaining) then size else remaining in
      if offset <? 0 then None
      else Some (String.substring (Z.to_nat offset) (Z.to_nat read_len) content, read_len)
  else Some ("file not found", -1).

(** The size [FSStat] reports, [None] for a path it does not know. *)
Definition FSStat_Size (path : string) : option Z :=
  if String.eqb path "/" then Some 0
  else if String.eqb path "/hello" then Some (Z.of_nat (String.length content))
  else None.

(** The number of bytes a read of [/hello] is to return: what is left
    from the offset on, or the size asked for when that is positive and
    smaller. *)
Definition hello_read_len (offset size : Z) : Z :=
  let rest := Z.max 0 (Z.of_nat (String.length content) - offset) in
  if (0 <? size) && (size <? rest) then size else rest.

End hellofs_c.

(** * The C++ SDK: write flags *)

(** agfs_types.h.  A [WriteFlag] holds a [uint32_t] of flag bits. *)
Module agfs_cpp.

Record WriteFlag := { value : Z }.

Definition NONE      : WriteFlag := {| value := 0 |}.
Definition APPEND    : WriteFlag := {| value := Z.shiftl 1 0 |}.
Definition CREATE    : WriteFlag := {| value := Z.shiftl 1 1 |}.
Definition EXCLUSIVE : WriteFlag := {| value := Z.shiftl 1 2 |}.
Definition TRUNCATE  : WriteFlag := {| value := Z.shiftl 1 3 |}.
Definition SYNC      : WriteFlag := {| value := Z.shiftl 1 4 |}.

Definition contains (x flag : WriteFlag) : bool :=
  negb (Z.land (value x) (value flag) =? 0).

(** [with], and [operator|] which has the same body. *)
Definition with_ (x flag : WriteFlag) : WriteFlag :=
  {| value := Z.lor (value x) (value flag) |}.

(** A value a [uint32_t] can hold. *)
Definition is_uint32 (x : WriteFlag) : Prop := 0 ≤ value x < 2 ^ 32.

End agfs_cpp.

(** * hellofs-wasm-cpp *)

(** The HelloFS plugin written with the C++ SDK.  The host filesystem
    [agfs::HostFS] is outside the plugin: an operation either answers by
    itself or hands the request to the host, and the model records which
    call it hands over. *)
Module hellofs_cpp.

Import gostrings.

Inductive ErrorKind := NotFound | PermissionDenied.

Record FileInfo := {
  name     : string;
  size     : Z;
  mode     : Z;
  mod_time : Z;
  is_dir   : bool
}.

(** [FileInfo::file] and [FileInfo::dir]. *)
Definition file (name : string) (size mode : Z) : FileInfo :=
  {| name := name; size := size; mode := mode; mod_time := 0; is_dir := false |}.

Definition dir (name : string) (mode : Z) : FileInfo :=
  {| name := name; size := 0; mode := mode; mod_time := 0; is_dir := true |}.

(** The calls of [agfs::HostFS] the plugin makes. *)
Inductive host_call :=
| HostFS_read (path : string) (offset size : Z)
| HostFS_stat (path : string)
| HostFS_readdir (path : string)
| HostFS_write (path : string) (data : list Byte.byte)
| HostFS_create (path : string)
| HostFS_mkdir (path : string) (perm : Z)
| HostFS_remove (path : string)
| HostFS_remove_all (path : string)
| HostFS_rename (old_path new_path : string).

(** What an operation does: it returns a value or an error of its own, or
    it returns what the host call gives ([write] turns a success of the
    host into [data.size()]). *)
Inductive reply (A : Type) :=
| Value (a : A)
| Error (e : ErrorKind)
| Host (c : host_call).
Arguments Value {A} a.
Arguments Error {A} e.
Arguments Host {A} c.

Definition empty (s : string) : bool := String.eqb s "".

(** [path.rfind("/host/", 0) == 0] holds when [path] starts with
    ["/host/"]; [path.substr(5)] drops ["/host"]. *)
Definition get_host_path (host_prefix path : string) : string :=
  if HasPrefix path "/host/" && negb (empty host_prefix)
  then host_prefix +:+ drop_bytes 5 path
  else "".

Definition content : string := "Hello World from C++" +:+ String (Ascii.ascii_of_nat 10) "".

Definition read (host_prefix path : string) (offset size : Z) : reply string :=
  if String.eqb path "/hello.txt" then Value content
  else
    let host_path := get_host_path host_prefix path in
    if negb (empty host_path) then Host (HostFS_read host_path offset size)
    else Error NotFound.

Definition stat (host_prefix path : string) : reply FileInfo :=
  if String.eqb path "/" then Value (dir "" 493)
  else if String.eqb path "/hello.txt" then Value (file "hello.txt" 21 420)
  else if String.eqb path "/host" && negb (empty host_prefix)
  then Value (dir "host" 493)
  else
    let host_path := get_host_path host_prefix path in
    if negb (empty host_path) then Host (HostFS_stat host_path)
    else Error NotFound.

Definition readdir (host_prefix path : string) : reply (list FileInfo) :=
  if String.eqb path "/" then
    Value (file "hello.txt" 21 420 ::
           if negb (empty host_prefix) then [dir "host" 493] else [])
  else if String.eqb path "/host" && negb (empty host_prefix)
  then Host (HostFS_readdir host_prefix)
  else
    let host_path := get_host_path host_prefix path in
    if negb (empty host_path) then Host (HostFS_readdir host_path)
    else Error NotFound.

Definition write (host_prefix path : string) (data : list Byte.byte)
    (offset : Z) (flags : agfs_cpp.WriteFlag) : reply Z :=
  let host_path := get_host_path host_prefix path in
  if negb (empty host_path) then Host (HostFS_write host_path data)
  else Error PermissionDenied.

Definition create (host_prefix path : string) : reply unit :=
  let host_path := get_host_path host_prefix path in
  if negb (empty host_path) then Host (HostFS_create host_path)
  else Error PermissionDenied.

Definition mkdir (host_prefix path : string) (perm : Z) : reply unit :=
  let host_path := get_host_path host_prefix path in
  if negb (empty host_path) then Host (HostFS_mkdir host_path perm)
  else Error PermissionDenied.

Definition remove (host_prefix path : string) : reply unit :=
  let host_path := get_host_path host_prefix path in
  if negb (empty host_path) then Host (HostFS_remove host_path)
  else Error PermissionDenied.

Definition remove_all (host_prefix path : string) : reply unit :=
  let host_path := get_host_path host_prefix path in
  if negb (empty host_path) then Host (HostFS_remove_all host_path)
  else Error PermissionDenied.

Definition rename (host_prefix old_path new_path : string) : reply unit :=
  let host_old := get_host_path host_prefix old_path in
  let host_new := get_host_path host_prefix new_path in
  if negb (empty host_old) && negb (empty host_new)
  then Host (HostFS_rename host_old host_new)
  else Error PermissionDenied.

Definition chmod (host_prefix path : string) (mode : Z) : reply unit :=
  Value tt.

(** A request to the plugin. *)
Inductive request :=
| Read (path : string) (offset size : Z)
| Stat (path : string)
| Readdir (path : string)
| Write (path : string) (data : list Byte.byte) (offset : Z) (flags : agfs_cpp.WriteFlag)
| Create (path : string)
| Mkdir (path : string) (perm : Z)
| Remove (path : string)
| RemoveAll (path : string)
| Rename (old_path new_path : string)
| Chmod (path : string) (mode : Z).

Definition call_of {A} (r : reply A) : option host_call :=
  match r with Host c => Some c | _ => None end.

(** The host call a request leads to, if any. *)
Definition host_call_of (host_prefix : string) (req : request) : option host_call :=
  match req with
  | Read path offset size => call_of (read host_prefix path offset size)
  | Stat path => call_of (stat host_prefix path)
  | Readdir path => call_of (readdir host_prefix path)
  | Write path data offset flags => call_of (write host_prefix path data offset flags)
  | Create path => call_of (create host_prefix path)
  | Mkdir path perm => call_of (mkdir host_prefix path perm)
  | Remove path => call_of (remove host_prefix path)
  | RemoveAll path => call_of (remove_all host_prefix path)
  | Rename old_path new_path => call_of (rename host_prefix old_path new_path)
  | Chmod path mode => call_of (chmod host_prefix path mode)
  end.

(** The paths a request names, and those a host call is made on. *)
Definition request_paths (req : request) : list string :=
  match req with
  | Read path _ _ | Stat path | Readdir path | Write path _ _ _ | Create path
  | Mkdir path _ | Remove path | RemoveAll path | Chmod path _ => [path]
  | Rename old_path new_path => [old_path; new_path]
  end.

Definition host_paths (c : host_call) : list string :=
  match c with
  | HostFS_read path _ _ | HostFS_stat path | HostFS_readdir path
  | HostFS_write path _ | HostFS_create path | HostFS_mkdir path _
  | HostFS_remove path | HostFS_remove_all path => [path]
  | HostFS_rename old_path new_path => [old_path; new_path]
  end.

End hellofs_cpp.

(** * vectorfs: the chunker *)

(** chunker.go.  A text is the list of its runes (code points), as
    [[]rune(text)] yields them for valid UTF-8; [len] is its length in
    bytes. *)
Module chunker.

Abbreviation rune := Z.

(** [unicode.IsSpace]: the White_Space property. *)
Definition IsSpace (r : rune) : bool :=
  ((9 <=? r) && (r <=? 13)) || (r =? 32) || (r =? 133) || (r =? 160) ||
  (r =? 5760) || ((8192 <=? r) && (r <=? 8202)) || (r =? 8232) || (r =? 8233) ||
  (r =? 8239) || (r =? 8287) || (r =? 12288).

(** The number of bytes of a rune in UTF-8. *)
Definition utf8_len (r : rune) : Z :=
  if r <? 128 then 1 else if r <? 2048 then 2 else if r <? 65536 then 3 else 4.

(** [len(s)] of a string. *)
Definition len (s : list rune) : Z := foldr (λ r n, utf8_len r + n) 0 s.

Fixpoint trim_left (s : list rune) : list rune :=
  match s with
  | r :: s' => if IsSpace r then trim_left s' else s
  | [] => []
  end.

(** [strings.TrimSpace]. *)
Definition TrimSpace (s : list rune) : list rune :=
  reverse (trim_left (reverse (trim_left s))).

Fixpoint HasPrefix (s prefix : list rune) : bool :=
  match prefix, s with
  | [], _ => true
  | p :: prefix, r :: s => (r =? p) && HasPrefix s prefix
  | _ :: _, [] => false
  end.

(** [strings.Split(s, sep)] for a separator that is not empty: [cur] is
    the piece being read, [skip] the number of runes of a separator just
    found that are still to be passed over. *)
Fixpoint Split_from (sep s cur : list rune) (skip : nat) : list (list rune) :=
  match s with
  | [] => [cur]
  | r :: rest =>
      match skip with
      | S k => Split_from sep rest cur k
      | O => if HasPrefix s sep
             then cur :: Split_from sep rest [] (length sep - 1)
             else Split_from sep rest (cur ++ [r]) 0
      end
  end.

Definition Split (s sep : list rune) : list (list rune) := Split_from sep s [] 0.

Record ChunkerConfig := {
  ChunkSize    : Z;   (* approximate chunk size in tokens *)
  ChunkOverlap : Z    (* overlap between chunks in tokens *)
}.

Record Chunk := {
  Text  : list rune;
  Index : Z
}.

Definition is_terminator (r : rune) : bool :=
  (r =? 46) || (r =? 33) || (r =? 63) ||       (* . ! ? *)
  (r =? 12290) || (r =? 65281) || (r =? 65311). (* the full-width ones *)

Definition isSentenceEnd (runes : list rune) (i : nat) : bool :=
  match runes !! i with
  | None => false
  | Some r =>
      if is_terminator r then
        match runes !! (i + 1)%nat with
        | None => true
        | Some next => IsSpace next
        end
      else false
  end.

(** What the sentence in the builder adds to the sentences found. *)
Definition flush_sentence (sentences : list (list rune)) (current : list rune)
  : list (list rune) :=
  let sentence := TrimSpace current in
  if decide (sentence = []) then sentences else sentences ++ [sentence].

(** The loop of [splitSentences], at index [i] with [rest] the runes from
    [i] on. *)
Fixpoint splitSentences_loop (runes rest : list rune) (i : nat)
    (sentences : list (list rune)) (current : list rune)
  : list (list rune) * list rune :=
  match rest with
  | [] => (sentences, current)
  | r :: rest =>
      let current := current ++ [r] in
      if isSentenceEnd runes i
      then splitSentences_loop runes rest (S i) (flush_sentence sentences current) []
      else splitSentences_loop runes rest (S i) sentences current
  end.

Definition splitSentences (text : list rune) : list (list rune) :=
  let '(sentences, current) := splitSentences_loop text text 0 [] [] in
  if decide (current = []) then sentences else flush_sentence sentences current.

(** The state of the loop of [splitLongText]: the chunks made, the chunk
    in the builder and its token count. *)
Definition splitLongText_visit (chunkSize : Z)
    (st : list (list rune) * list rune * Z) (sentence : list rune)
  : list (list rune) * list rune * Z :=
  let '(chunks, currentChunk, currentTokens) := st in
  let sentenceTokens := len sentence / 4 in
  if currentTokens + sentenceTokens <=? chunkSize then
    (chunks,
     (if decide (currentChunk = []) then currentChunk else currentChunk ++ [32])
       ++ sentence,
     currentTokens + sentenceTokens)
  else
    ((if decide (currentChunk = []) then chunks else chunks ++ [currentChunk]),
     sentence, sentenceTokens).

Definition splitLongText (text : list rune) (chunkSize : Z) : list (list rune) :=
  let '(chunks, currentChunk, _) :=
    foldl (splitLongText_visit chunkSize) ([], [], 0) (splitSentences text) in
  if decide (currentChunk = []) then chunks else chunks ++ [currentChunk].

(** The pieces that are not blank, trimmed. *)
Definition trimmed_pieces (pieces : list (list rune)) : list (list rune) :=
  filter (λ para, para ≠ []) (TrimSpace <$> pieces).

Definition splitParagraphs (text : list rune) : list (list rune) :=
  let result := trimmed_pieces (Split text [10; 10]) in
  let result :=
    if decide (result = []) then trimmed_pieces (Split text [10]) else result in
  if decide (result = []) then [text] else result.

Definition ChunkDocument_visit (cfg : ChunkerConfig)
    (st : list Chunk * Z) (para : list rune) : list Chunk * Z :=
  let estimatedTokens := len para / 4 in
  if estimatedTokens <=? ChunkSize cfg then
    (st.1 ++ [{| Text := para; Index := st.2 |}], st.2 + 1)
  else
    foldl (λ st subChunk, (st.1 ++ [{| Text := subChunk; Index := st.2 |}], st.2 + 1))
          st (splitLongText para (ChunkSize cfg)).

Definition ChunkDocument (text : list rune) (cfg : ChunkerConfig) : list Chunk :=
  let '(chunks, _) := foldl (ChunkDocument_visit cfg) ([], 0) (splitParagraphs text) in
  if decide (chunks = []) then [{| Text := text; Index := 0 |}] else chunks.

(** The runes of a text that are not white space, in order. *)
Definition ink (s : list rune) : list rune := filter (λ r, IsSpace r = false) s.

(** A text that is not empty and neither starts nor ends with white
    space. *)
Definition tight (s : list rune) : Prop :=
  (∃ r, head s = Some r ∧ IsSpace r = false) ∧
  (∃ r, last s = Some r ∧ IsSpace r = false).

(** What [splitLongText] keeps true of its loop state. *)
Definition chunks_ok (st : list (list rune) * list rune * Z) : Prop :=
  Forall tight st.1.1 ∧ (st.1.2 = [] ∨ tight st.1.2).

(** The chunks carry their positions, and the counter is their number. *)
Definition indexed (st : list Chunk * Z) : Prop :=
  st.2 = Z.of_nat (length st.1) ∧
  ∀ i c, st.1 !! i = Some c → Index c = Z.of_nat i.

(** The texts one paragraph adds to the chunks. *)
Definition paragraph_chunks (cfg : ChunkerConfig) (para : list rune)
  : list (list rune) :=
  if len para / 4 <=? ChunkSize cfg then [para]
  else splitLongText para (ChunkSize cfg).

End chunker.

(** * vectorfs: the index queue *)

Module vectorfs.

Record indexTask := {
  namespace : string;
  digest    : string;
  fileName  : string;
  data      : string
}.

Record indexingFileInfo := {
  FileName  : string;
  StartTime : Z
}.

(** The fields of [VectorFSPlugin] that the queue discipline uses.  The
    buffered channel [indexQueue] is its buffer (oldest task first), its
    capacity and whether it has been closed; the channel [shutdown] carries
    no values, so it is just whether it has been closed.  [supervisors] are
    the overflow goroutines started by [Write] that have not finished:
    each is parked in its [select] with the task it was given. *)
Record VectorFSPlugin := {
  indexQueue     : list indexTask;
  queueCap       : nat;
  queueClosed    : bool;
  shutdown       : bool;
  indexingStatus : gmap string (gmap string indexingFileInfo);
  supervisors    : list indexTask
}.

Definition with_status (v : VectorFSPlugin)
    (st : gmap string (gmap string indexingFileInfo)) : VectorFSPlugin :=
  {| indexQueue := indexQueue v; queueCap := queueCap v;
     queueClosed := queueClosed v; shutdown := shutdown v;
     indexingStatus := st; supervisors := supervisors v |}.

Definition with_queue (v : VectorFSPlugin) (q : list indexTask) : VectorFSPlugin :=
  {| indexQueue := q; queueCap := queueCap v;
     queueClosed := queueClosed v; shutdown := shutdown v;
     indexingStatus := indexingStatus v; supervisors := supervisors v |}.

Definition with_supervisors (v : VectorFSPlugin) (l : list indexTask) : VectorFSPlugin :=
  {| indexQueue := indexQueue v; queueCap := queueCap v;
     queueClosed := queueClosed v; shutdown := shutdown v;
     indexingStatus := indexingStatus v; supervisors := l |}.

Definition addIndexingTask (v : VectorFSPlugin) (namespace digest fileName : string)
    (now : Z) : VectorFSPlugin :=
  let tasks := default ∅ (indexingStatus v !! namespace) in
  with_status v
    (<[namespace := <[digest := {| FileName := fileName; StartTime := now |}]> tasks]>
       (indexingStatus v)).

Definition removeIndexingTask (v : VectorFSPlugin) (namespace digest : string)
  : VectorFSPlugin :=
  match indexingStatus v !! namespace with
  | None => v
  | Some tasks =>
      let tasks := delete digest tasks in
      if decide (size tasks = 0%nat)
      then with_status v (delete namespace (indexingStatus v))
      else with_status v (<[namespace := tasks]> (indexingStatus v))
  end.

(** The in-flight marker of a task: the entry of [indexingStatus] under
    its namespace and digest. *)
Definition marker (v : VectorFSPlugin) (namespace digest : string)
  : option indexingFileInfo :=
  indexingStatus v !! namespace ≫= (λ tasks, tasks !! digest).

(** A send on [indexQueue] can go ahead without blocking when the buffer
    has room.  (A send on a closed channel also "goes ahead": it panics.) *)
Definition has_room (v : VectorFSPlugin) : bool :=
  bool_decide (length (indexQueue v) < queueCap v)%nat.

(** [Write], from "Phase 2 (async)" to its return: what it does once
    [PrepareDocument] has reported a document that is not yet indexed.
    [size] is [len(data)]. *)
Definition Write_phase2 (v : VectorFSPlugin) (task : indexTask) (size : Z) (now : Z)
  : outcome Z * VectorFSPlugin :=
  let v := addIndexingTask v (namespace task) (digest task) (fileName task) now in
  if queueClosed v then (Panic, v)
  else if has_room v then (Ok size, with_queue v (indexQueue v ++ [task]))
  else (Ok size, with_supervisors v (supervisors v ++ [task])).

(** The two ways out of the supervisor's [select]. *)
Definition supervisor_queued (v : VectorFSPlugin) (i : nat) (t : indexTask)
  : VectorFSPlugin :=
  with_supervisors (with_queue v (indexQueue v ++ [t])) (delete i (supervisors v)).

Definition supervisor_dropped (v : VectorFSPlugin) (i : nat) (t : indexTask)
  : VectorFSPlugin :=
  with_supervisors (removeIndexingTask v (namespace t) (digest t))
                   (delete i (supervisors v)).

(** A step of the [i]-th parked supervisor.  A [select] takes any one of
    its cases that can go ahead and blocks while none can. *)
Inductive supervisor_step (i : nat) (v : VectorFSPlugin)
  : outcome VectorFSPlugin → Prop :=
| sup_queue_space t :
    supervisors v !! i = Some t →
    queueClosed v = false → has_room v = true →
    supervisor_step i v (Ok (supervisor_queued v i t))
| sup_shutdown t :
    supervisors v !! i = Some t →
    shutdown v = true →
    supervisor_step i v (Ok (supervisor_dropped v i t))
| sup_send_closed t :
    supervisors v !! i = Some t →
    queueClosed v = true →
    supervisor_step i v Panic.

(** The body of the worker's [case task := <-v.indexQueue]: [err] is what
    [IndexChunks] returned for the task. *)
Definition worker_process (v : VectorFSPlugin) (task : indexTask)
    (err : option error) : VectorFSPlugin :=
  removeIndexingTask v (namespace task) (digest task).

Definition zero_task : indexTask :=
  {| namespace := ""; digest := ""; fileName := ""; data := "" |}.

(** One turn of the loop of [indexWorker]: [None] when the worker returns. *)
Inductive worker_step (v : VectorFSPlugin) : option VectorFSPlugin → Prop :=
| worker_shutdown :
    shutdown v = true → worker_step v None
| worker_task t q err :
    indexQueue v = t :: q →
    worker_step v (Some (worker_process (with_queue v q) t err))
| worker_closed err :
    indexQueue v = [] → queueClosed v = true →
    worker_step v (Some (worker_process v zero_task err)).

(** [close(v.shutdown)] and [close(v.indexQueue)] of [Shutdown]. *)
Definition close_shutdown (v : VectorFSPlugin) : VectorFSPlugin :=
  {| indexQueue := indexQueue v; queueCap := queueCap v;
     queueClosed := queueClosed v; shutdown := true;
     indexingStatus := indexingStatus v; supervisors := supervisors v |}.

Definition close_indexQueue (v : VectorFSPlugin) : VectorFSPlugin :=
  {| indexQueue := indexQueue v; queueCap := queueCap v;
     queueClosed := true; shutdown := shutdown v;
     indexingStatus := indexingStatus v; supervisors := supervisors v |}.

(** ** Names: tables, keys and paths *)

(** [sanitizeTableName]: a [strings.Replacer] whose old and new strings
    are all single bytes replaces byte by byte. *)
Definition sanitize_byte (c : Ascii.ascii) : Ascii.ascii :=
  if decide (c = "-"%char) then "_"%char
  else if decide (c = "."%char) then "_"%char
  else if decide (c = "/"%char) then "_"%char
  else if decide (c = " "%char) then "_"%char
  else c.

(** The bytes it replaces. *)
Definition forbidden_in_table_name (c : Ascii.ascii) : Prop :=
  c = "-"%char ∨ c = "."%char ∨ c = "/"%char ∨ c = " "%char.

Fixpoint sanitizeTableName (namespace : string) : string :=
  match namespace with
  | EmptyString => EmptyString
  | String c s => String (sanitize_byte c) (sanitizeTableName s)
  end.

(** [S3Client.buildKey]: [keyPrefix/namespace/digest]. *)
Definition buildKey (keyPrefix namespace digest : string) : string :=
  keyPrefix +:+ "/" +:+ namespace +:+ "/" +:+ digest.

(** [parsePath] of vectorfs.go.  [Clean] is [filepath.Clean] of Go's
    library. *)
Definition parsePath (Clean : string → string) (path : string)
  : outcome (string * string) :=
  let path := Clean path in
  let path := gostrings.TrimPrefix path "/" in
  if decide (path = "" ∨ path = ".") then Ok ("", "")
  else
    let parts := gostrings.SplitN2 path "/"%char in
    if decide (length parts = 0%nat) then Err (ErrNew "invalid path")
    else
      let namespace := default "" (parts !! 0%nat) in
      let relativePath :=
        if decide (length parts = 2%nat) then default "" (parts !! 1%nat) else "" in
      Ok (namespace, relativePath).

(** ** The indexing status as the [.indexing] file reports it *)

(** [getIndexingStatus].  [elapsed] stands for
    [time.Since(info.StartTime).Round(time.Second)] printed with [%v],
    given the nanoseconds since the start; the lines follow the order of
    [map_to_list]. *)
Definition LF : string := String (Ascii.ascii_of_nat 10) "".

Definition getIndexingStatus (elapsed : Z → string) (v : VectorFSPlugin)
    (namespace : string) (now : Z) : string :=
  let tasks := default ∅ (indexingStatus v !! namespace) in
  if decide (size tasks = 0%nat) then "idle"
  else
    foldl (λ sb kv,
             sb +:+ "  - " +:+ FileName kv.2 +:+ " (" +:+
               elapsed (now - StartTime kv.2) +:+ ")" +:+ LF)
          ("indexing " +:+ pretty (size tasks) +:+ " file(s):" +:+ LF)
          (map_to_list tasks).

(** No namespace is kept with an empty task map. *)
Definition no_empty_namespace (v : VectorFSPlugin) : Prop :=
  ∀ ns tasks, indexingStatus v !! ns = Some tasks → tasks ≠ ∅.

Definition within_capacity (v : VectorFSPlugin) : Prop :=
  (length (indexQueue v) ≤ queueCap v)%nat.

(** One step of the plugin: a write reaching phase 2 without a panic, a
    step of a supervisor or of a worker, or one of the two closes of
    [Shutdown]. *)
Inductive plugin_step (v : VectorFSPlugin) : VectorFSPlugin → Prop :=
| step_write task size now n :
    (Write_phase2 v task size now).1 = Ok n →
    plugin_step v (Write_phase2 v task size now).2
| step_supervisor i v' :
    supervisor_step i v (Ok v') → plugin_step v v'
| step_worker v' :
    worker_step v (Some v') → plugin_step v v'
| step_close_shutdown :
    plugin_step v (close_shutdown v)
| step_close_indexQueue :
    plugin_step v (close_indexQueue v).

Inductive plugin_steps (v : VectorFSPlugin) : VectorFSPlugin → Prop :=
| steps_refl : plugin_steps v v
| steps_snoc v' v'' : plugin_steps v v' → plugin_step v' v'' → plugin_steps v v''.

(** The plugin as [Initialize] leaves it, with a queue of capacity [cap]. *)
Definition initialized (cap : nat) : VectorFSPlugin :=
  {| indexQueue := []; queueCap := cap; queueClosed := false; shutdown := false;
     indexingStatus := ∅; supervisors := [] |}.

End vectorfs.

(** * Test doubles

    Concrete plugins, used to run the definitions above on examples. *)

Module mock.

(** [mockFileHandle] of handle_manager_test.go: [Close] never fails.  The
    plugin state is the list of mock ids closed so far. *)
Record mockFileHandle := {
  id    : string;
  path  : string;
  flags : Z
}.

Definition newMockFileHandle (id path : string) (flags : Z) : mockFileHandle :=
  {| id := id; path := path; flags := flags |}.

#[export] Instance mock_handle_api : filesystem.FileHandleAPI mockFileHandle (list string) :=
  {| filesystem.handle_Close h closed := (None, closed ++ [id h]) |}.

Definition O_RDWR : Z := 2.

Definition world0
  : filesystem.World (FileHandle := mockFileHandle) (PluginWorld := list string) :=
  {| filesystem.plugin := []; filesystem.close_calls := [] |}.

(** The configurations and handles of handle_manager_test.go, in
    milliseconds. *)
Definition test_config : filesystem.HandleManagerConfig :=
  {| filesystem.DefaultLease := 100; filesystem.MaxLease := 500;
     filesystem.MaxHandles := 10; filesystem.CleanupInterval := 50 |}.

Definition small_config : filesystem.HandleManagerConfig :=
  {| filesystem.DefaultLease := 100; filesystem.MaxLease := 500;
     filesystem.MaxHandles := 3; filesystem.CleanupInterval := 1000 |}.

Definition test_handle (n : string) : mockFileHandle :=
  newMockFileHandle n "/test/file.txt" O_RDWR.

Definition register (n id : string) (lease : Z) : filesystem.op :=
  filesystem.OpRegister (test_handle n) "/test/file.txt" O_RDWR lease id.

(** Register at 0 with the default lease, read at 30, let the lease run
    out, tick at 200, close twice, register again. *)
Definition session : list (Z * filesystem.op) :=
  [ (0, register "test-1" "h_01" 0);
    (10, register "test-2" "h_02" 1000);
    (30, filesystem.OpGet "h_01");
    (200, filesystem.OpCleanup);
    (210, filesystem.OpClose "h_02");
    (220, filesystem.OpClose "h_02");
    (230, filesystem.OpGet "h_01");
    (240, register "test-3" "h_03" 50);
    (250, filesystem.OpStop) ].

(** The state after the first three operations of [session]. *)
Definition s3 : filesystem.HandleManager * filesystem.World :=
  filesystem.run (take 3 session) (filesystem.NewHandleManager test_config, world0).

(** A table filled to [MaxHandles = 3]. *)
Definition full_table : filesystem.HandleManager * filesystem.World :=
  filesystem.run
    [ (0, register "a" "h_0a" 0); (1, register "b" "h_0b" 0);
      (2, register "c" "h_0c" 0) ]
    (filesystem.NewHandleManager small_config, world0).

(** A handle whose [Close] always fails. *)
Inductive brokenHandle := Broken (n : nat).

#[export] Instance broken_handle_api : filesystem.FileHandleAPI brokenHandle unit :=
  {| filesystem.handle_Close h u := (Some (ErrNew "close failed"), u) |}.

(** A server behind the FUSE client that supports no handles and serves
    one file content for every path; its state counts the reads. *)
Definition ErrNotSupported : error := ErrNew "not supported".

Definition is_not_supported (e : error) : bool :=
  match e with
  | ErrNew msg => String.eqb msg "not supported"
  | _ => false
  end.

Definition payload : list Byte.byte :=
  [x68; x65; x6c; x6c; x6f; x20; x77; x6f; x72; x6c; x64; x21].

#[export] Instance stateless_server : fusefs.ClientAPI nat :=
  {| fusefs.client_OpenHandle _ _ _ n := (inr ErrNotSupported, n);
     fusefs.client_CloseHandle _ n := (None, n);
     fusefs.client_ReadHandle _ _ _ n := (inr ErrNotSupported, n);
     fusefs.client_Read _ _ _ n := (inl (Some payload), S n);
     fusefs.is_ErrNotSupported := is_not_supported |}.

Definition fuse_world0 : fusefs.World (ClientWorld := nat) :=
  {| fusefs.server := 0%nat; fusefs.calls := [] |}.

#[export] Instance stateless_server_writes : fusefs.ClientWriteAPI nat :=
  {| fusefs.client_Write _ _ n := (None, n);
     fusefs.client_WriteHandle _ _ _ n := (inr ErrNotSupported, n);
     fusefs.client_SyncHandle _ n := (Some ErrNotSupported, n) |}.

Definition fuse_write_world0 : fusefs.WriteWorld (ClientWorld := nat) :=
  {| fusefs.world := fuse_world0; fusefs.write_calls := [] |}.

(** A server with handles: it numbers them from 100 (its state is the
    next number), and here refuses to close them. *)
#[export] Instance handle_server : fusefs.ClientAPI Z :=
  {| fusefs.client_OpenHandle _ _ _ n := (inl n, n + 1);
     fusefs.client_CloseHandle _ n := (Some (ErrNew "close refused"), n);
     fusefs.client_ReadHandle _ _ _ n := (inl (Some payload), n);
     fusefs.client_Read _ _ _ n := (inl (Some payload), n);
     fusefs.is_ErrNotSupported := is_not_supported |}.

#[export] Instance handle_server_writes : fusefs.ClientWriteAPI Z :=
  {| fusefs.client_Write _ _ n := (None, n);
     fusefs.client_WriteHandle _ d _ n := (inl (fusefs.len d), n);
     fusefs.client_SyncHandle _ n := (None, n) |}.

Definition handle_world0 : fusefs.WriteWorld (ClientWorld := Z) :=
  {| fusefs.world := {| fusefs.server := 100; fusefs.calls := [] |};
     fusefs.write_calls := [] |}.

(** A table with a REMOTE handle (server handle 100) and a LOCAL one. *)
Definition mixed_table : fusefs.HandleManager :=
  {| fusefs.handles :=
       <[2 := {| fusefs.htype := fusefs.handleTypeRemote; fusefs.agfsHandle := 100;
                 fusefs.path := "/a"; fusefs.flags := 0; fusefs.mode := 420;
                 fusefs.readBuffer := None |}]>
       (<[3 := {| fusefs.htype := fusefs.handleTypeLocal; fusefs.agfsHandle := 0;
                  fusefs.path := "/b"; fusefs.flags := 0; fusefs.mode := 420;
                  fusefs.readBuffer := None |}]> ∅);
     fusefs.nextHandle := 3 |}.

(** A server without handles whose one file is a queue of messages, as
    queuefs has them: every read takes the next message off the queue.  Its
    state is the messages left. *)
Definition bye : list Byte.byte := [x62; x79; x65].

#[export] Instance queue_server : fusefs.ClientAPI (list (list Byte.byte)) :=
  {| fusefs.client_OpenHandle _ _ _ q := (inr ErrNotSupported, q);
     fusefs.client_CloseHandle _ q := (None, q);
     fusefs.client_ReadHandle _ _ _ q := (inr ErrNotSupported, q);
     fusefs.client_Read _ _ _ q :=
       match q with
       | m :: q => (inl (Some m), q)
       | [] => (inl (Some []), [])
       end;
     fusefs.is_ErrNotSupported := is_not_supported |}.

(** The bridge after [Open] of the queue's file: handle 2, LOCAL, nothing
    read yet, no call under way; two messages are waiting. *)
Definition queue_bridge : fusefs.bridge (ClientWorld := list (list Byte.byte)) :=
  let s := fusefs.Open fusefs.NewHandleManager "/queue/dequeue" 0 420
             {| fusefs.server := [payload; bye]; fusefs.calls := [] |} in
  {| fusefs.table := s.1.2; fusefs.outside := s.2;
     fusefs.pool := []; fusefs.fetches := [] |}.

(** Two reads of handle 2 that overlap: both pass the first lock before
    either has stored what it fetched. *)
Definition overlapping_reads
  : list (fusefs.event (ClientWorld := list (list Byte.byte))) :=
  [fusefs.EvRead 2 0 10; fusefs.EvRead 2 0 10;
   fusefs.EvStep 0; fusefs.EvStep 1;
   fusefs.EvStep 0; fusefs.EvStep 1;
   fusefs.EvStep 0; fusefs.EvStep 1].

(** The plugin of TestIndexQueueNonBlocking: a queue of capacity 1 that
    already holds one task. *)
Definition task1 : vectorfs.indexTask :=
  {| vectorfs.namespace := "test"; vectorfs.digest := "digest1";
     vectorfs.fileName := "file1"; vectorfs.data := "" |}.

Definition task2 : vectorfs.indexTask :=
  {| vectorfs.namespace := "test"; vectorfs.digest := "digest2";
     vectorfs.fileName := "file2"; vectorfs.data := "" |}.

Definition full_queue : vectorfs.VectorFSPlugin :=
  {| vectorfs.indexQueue := [task1]; vectorfs.queueCap := 1;
     vectorfs.queueClosed := false; vectorfs.shutdown := false;
     vectorfs.indexingStatus := ∅; vectorfs.supervisors := [] |}.

End mock.

(** * Properties of the server-side handle manager *)

Section HandleManagerFacts.

Import filesystem.

Context {FileHandle PluginWorld : Type} `{!FileHandleAPI FileHandle PluginWorld}.

Implicit Types (hm : HandleManager (FileHandle := FileHandle)).
Implicit Types (w : World (FileHandle := FileHandle) (PluginWorld := PluginWorld)).
Implicit Types (mh : ManagedHandle (FileHandle := FileHandle)).
Implicit Types (m : gmap string (ManagedHandle (FileHandle := FileHandle))).
Implicit Types (l : list (string * ManagedHandle (FileHandle := FileHandle))).
Implicit Types (s : HandleManager (FileHandle := FileHandle) *
                    World (FileHandle := FileHandle) (PluginWorld := PluginWorld)).

Lemma After_spec now t : After now t = true ↔ t < now.
Proof. unfold After. apply Z.ltb_lt. Qed.

Lemma Before_spec now t : Before now t = true ↔ now < t.
Proof. unfold Before. apply Z.ltb_lt. Qed.

Lemma call_Close_calls id (h : FileHandle) w :
  close_calls (call_Close id h w).2 = close_calls w ++ [(id, h)].
Proof. unfold call_Close. by destruct (handle_Close h (plugin w)). Qed.

Lemma closes_of_call_Close id id' (h : FileHandle) w :
  closes_of id (call_Close id' h w).2 =
  (closes_of id w + (if decide (id' = id) then 1 else 0))%nat.
Proof.
  unfold closes_of. rewrite call_Close_calls, filter_app, length_app.
  f_equal. rewrite filter_cons, filter_nil. simpl.
  by destruct (decide (id' = id)).
Qed.

Lemma cleanup_sweep hm now w :
  cleanup hm now w = foldl (sweep_visit (expired now)) (hm, w) (map_to_list (handles hm)).
Proof. reflexivity. Qed.

Lemma Stop_sweep hm w :
  Stop hm w = foldl (sweep_visit (λ _, true)) (hm, w) (map_to_list (handles hm)).
Proof. reflexivity. Qed.

Lemma sweep_handles P l hm w :
  handles (foldl (sweep_visit P) (hm, w) l).1 = swept P (handles hm) l.
Proof.
  revert hm w. induction l as [|kv l IH]; intros hm w; [done|].
  simpl. unfold sweep_visit at 2. simpl.
  destruct (P kv.2).
  - destruct (call_Close kv.1 (Handle kv.2) w) as [e w']. by rewrite IH.
  - by rewrite IH.
Qed.

Lemma sweep_config P l hm w :
  config (foldl (sweep_visit P) (hm, w) l).1 = config hm.
Proof.
  revert hm w. induction l as [|kv l IH]; intros hm w; [done|].
  simpl. unfold sweep_visit at 2. simpl.
  destruct (P kv.2).
  - destruct (call_Close kv.1 (Handle kv.2) w) as [e w']. by rewrite IH.
  - by rewrite IH.
Qed.

Lemma sweep_calls P l hm w :
  close_calls (foldl (sweep_visit P) (hm, w) l).2 = close_calls w ++ reaped P l.
Proof.
  revert hm w. induction l as [|kv l IH]; intros hm w.
  { simpl. unfold reaped. by rewrite filter_nil, app_nil_r. }
  simpl. unfold sweep_visit at 2. simpl. unfold reaped.
  rewrite filter_cons.
  destruct (P kv.2) eqn:E.
  - pose proof (call_Close_calls kv.1 (Handle kv.2) w) as Hc.
    destruct (call_Close kv.1 (Handle kv.2) w) as [e w']. simpl in Hc.
    rewrite IH, Hc. rewrite (decide_True (P := true = true)) by done.
    rewrite fmap_cons, <- app_assoc. done.
  - rewrite IH. rewrite (decide_False (P := false = true)) by congruence. done.
Qed.

Lemma swept_lookup P l m k :
  swept P m l !! k =
  if decide (k ∈ (filter (λ kv, P kv.2 = true) l).*1) then None else m !! k.
Proof.
  revert m. induction l as [|[k' mh'] l IH]; intros m.
  { rewrite filter_nil. case_decide as Hin; [by apply elem_of_nil in Hin|done]. }
  unfold swept in *. simpl. rewrite IH. clear IH.
  rewrite filter_cons. simpl.
  destruct (P mh') eqn:E.
  - rewrite (decide_True (P := true = true)) by done. rewrite fmap_cons. simpl.
    destruct (decide (k' = k)) as [->|Hne].
    + rewrite lookup_delete_eq. rewrite (decide_True (P := k ∈ k :: _)) by left.
      by case_decide.
    + rewrite lookup_delete_ne by done.
      case_decide as H1; case_decide as H2; try done.
      * exfalso. apply H2. by right.
      * exfalso. apply elem_of_cons in H2 as [?|?]; [congruence|done].
  - rewrite (decide_False (P := false = true)) by congruence. done.
Qed.

Lemma sweep_lookup P hm w k :
  handles (foldl (sweep_visit P) (hm, w) (map_to_list (handles hm))).1 !! k =
  match handles hm !! k with
  | Some mh => if P mh then None else Some mh
  | None => None
  end.
Proof.
  rewrite sweep_handles, swept_lookup.
  destruct (handles hm !! k) as [mh|] eqn:Hk.
  - destruct (P mh) eqn:E.
    + rewrite decide_True; [done|]. apply list_elem_of_fmap.
      exists (k, mh). split; [done|]. apply list_elem_of_filter. split; [done|].
      by apply elem_of_map_to_list.
    + rewrite decide_False; [done|]. intros Hin.
      apply list_elem_of_fmap in Hin as ([k' mh'] & -> & Hin).
      apply list_elem_of_filter in Hin as [He Hin]. simpl in *.
      apply elem_of_map_to_list in Hin. congruence.
  - by case_decide.
Qed.

(** The plugin handles closed by a loop over the whole table: one call
    for each picked record, none for the others. *)
Lemma reaped_elem P m k (h : FileHandle) :
  (k, h) ∈ reaped P (map_to_list m) ↔
  ∃ mh, m !! k = Some mh ∧ P mh = true ∧ h = Handle mh.
Proof.
  unfold reaped. rewrite list_elem_of_fmap. split.
  - intros ([k' mh] & Heq & Hin). inversion Heq; subst.
    apply list_elem_of_filter in Hin as [HP Hin].
    apply elem_of_map_to_list in Hin. eauto.
  - intros (mh & Hk & HP & ->). exists (k, mh). split; [done|].
    apply list_elem_of_filter. split; [done|]. by apply elem_of_map_to_list.
Qed.

Lemma reaped_NoDup P m : NoDup (reaped P (map_to_list m)).*1.
Proof.
  unfold reaped. rewrite <- list_fmap_compose.
  assert (((fst ∘ (λ kv : string * ManagedHandle, (kv.1, Handle kv.2))) <$>
           filter (λ kv, P kv.2 = true) (map_to_list m)) =
          (filter (λ kv, P kv.2 = true) (map_to_list m)).*1) as ->.
  { by apply list_fmap_ext. }
  eapply sublist_NoDup; [apply (NoDup_fst_map_to_list m)|].
  apply fmap_sublist, sublist_filter.
Qed.

Lemma count_key_NoDup (c : list (string * FileHandle)) id :
  NoDup c.*1 →
  length (filter (λ e, e.1 = id) c) = if decide (id ∈ c.*1) then 1%nat else 0%nat.
Proof.
  induction c as [|[k h] c IH]; intros Hnd.
  { rewrite filter_nil. by case_decide as Hin; [apply elem_of_nil in Hin|]. }
  rewrite fmap_cons in Hnd. apply NoDup_cons in Hnd as [Hk Hnd].
  rewrite filter_cons. simpl in *.
  specialize (IH Hnd).
  destruct (decide (k = id)) as [->|Hne].
  - simpl. rewrite IH. rewrite decide_False by done.
    by rewrite decide_True by left.
  - rewrite IH. case_decide as H1; case_decide as H2; try done.
    + exfalso. apply H2. by right.
    + exfalso. apply elem_of_cons in H2 as [?|?]; [congruence|done].
Qed.

(** How a loop over the whole table changes the number of closes of [id]. *)
Lemma sweep_closes_of P hm w id :
  closes_of id (foldl (sweep_visit P) (hm, w) (map_to_list (handles hm))).2 =
  (closes_of id w +
   match handles hm !! id with
   | Some mh => if P mh then 1 else 0
   | None => 0
   end)%nat.
Proof.
  unfold closes_of. rewrite sweep_calls, filter_app, length_app. f_equal.
  rewrite count_key_NoDup by apply reaped_NoDup.
  destruct (handles hm !! id) as [mh|] eqn:Hk.
  - destruct (P mh) eqn:E.
    + rewrite decide_True; [done|]. apply list_elem_of_fmap.
      exists (id, Handle mh). split; [done|]. apply reaped_elem. eauto.
    + rewrite decide_False; [done|]. intros Hin.
      apply list_elem_of_fmap in Hin as ([k h] & -> & Hin).
      apply reaped_elem in Hin as (mh' & Hk' & HP & _). simpl in *. congruence.
  - rewrite decide_False; [done|]. intros Hin.
    apply list_elem_of_fmap in Hin as ([k h] & -> & Hin).
    apply reaped_elem in Hin as (mh' & Hk' & HP & _). simpl in *. congruence.
Qed.

(** The table after a reaper tick: the records that were not expired. *)
Lemma cleanup_lookup hm now w k :
  handles (cleanup hm now w).1 !! k =
  match handles hm !! k with
  | Some mh => if After now (ExpiresAt mh) then None else Some mh
  | None => None
  end.
Proof. rewrite cleanup_sweep. apply (sweep_lookup (expired now)). Qed.

Lemma cleanup_config hm now w : config (cleanup hm now w).1 = config hm.
Proof. rewrite cleanup_sweep. apply sweep_config. Qed.

Lemma cleanup_calls hm now w :
  close_calls (cleanup hm now w).2 =
  close_calls w ++ reaped (expired now) (map_to_list (handles hm)).
Proof. rewrite cleanup_sweep. apply sweep_calls. Qed.

Lemma Stop_lookup hm w k : handles (Stop hm w).1 !! k = None.
Proof.
  rewrite Stop_sweep, (sweep_lookup (λ _, true)). by destruct (handles hm !! k).
Qed.

Lemma Stop_config hm w : config (Stop hm w).1 = config hm.
Proof. rewrite Stop_sweep. apply sweep_config. Qed.

Lemma Stop_closes_of hm w id :
  closes_of id (Stop hm w).2 =
  (closes_of id w + match handles hm !! id with Some _ => 1 | None => 0 end)%nat.
Proof.
  rewrite Stop_sweep, sweep_closes_of. by destruct (handles hm !! id).
Qed.

Lemma cleanup_closes_of hm now w id :
  closes_of id (cleanup hm now w).2 =
  (closes_of id w +
   match handles hm !! id with
   | Some mh => if After now (ExpiresAt mh) then 1 else 0
   | None => 0
   end)%nat.
Proof. rewrite cleanup_sweep. apply (sweep_closes_of (expired now)). Qed.

(** ** What one operation does to the table *)

Lemma step_config now (o : op) (s : HandleManager * World) :
  config (step now o s).1 = config s.1.
Proof.
  destruct s as [hm w]. destruct o; simpl; try done.
  - unfold Register. by case_match.
  - unfold Get. repeat case_match; simplify_eq; done.
  - unfold Renew. repeat case_match; simplify_eq; done.
  - unfold Close. repeat case_match; simplify_eq; done.
  - apply cleanup_config.
  - apply Stop_config.
Qed.

Lemma run_config tr (s : HandleManager * World) :
  config (run tr s).1 = config s.1.
Proof.
  revert s. induction tr as [|[now o] tr IH]; intros s; [done|].
  unfold run in *. simpl. by rewrite IH, step_config.
Qed.

Lemma run_app tr1 tr2 (s : HandleManager * World) :
  run (tr1 ++ tr2) s = run tr2 (run tr1 s).
Proof. unfold run. apply foldl_app. Qed.

Lemma run_cons now (o : op) tr (s : HandleManager * World) :
  run ((now, o) :: tr) s = run tr (step now o s).
Proof. reflexivity. Qed.

Lemma cap_lease_le cfg lease : cap_lease cfg lease ≤ MaxLease cfg.
Proof. unfold cap_lease. destruct (Z.gtb_spec lease (MaxLease cfg)); lia. Qed.

(** Every operation keeps the lease invariant of every record. *)
Lemma step_lease_ok now (o : op) (s : HandleManager * World) :
  (∀ id mh, handles s.1 !! id = Some mh → lease_ok (config s.1) mh) →
  ∀ id mh, handles (step now o s).1 !! id = Some mh →
           lease_ok (config (step now o s).1) mh.
Proof.
  intros Hinv id mh. rewrite step_config.
  destruct s as [hm w]. simpl in Hinv.
  destruct o as [h p f l id'|id'|id'|id' l|id'| | | |]; simpl; try apply Hinv.
  - unfold Register. case_match; simpl; [apply Hinv|].
    destruct (decide (id' = id)) as [->|Hne].
    + rewrite lookup_insert_eq. intros [= <-]. split; simpl; [done|].
      apply cap_lease_le.
    + rewrite lookup_insert_ne by done. apply Hinv.
  - unfold Get. destruct (handles hm !! id') as [mh'|] eqn:Hk; simpl; [|apply Hinv].
    destruct (After now (ExpiresAt mh')).
    + destruct (call_Close id' (Handle mh') w). simpl.
      intros Hl. apply lookup_delete_Some in Hl as [_ Hl]. by apply Hinv in Hl.
    + simpl. destruct (decide (id' = id)) as [->|Hne].
      * rewrite lookup_insert_eq. intros [= <-]. split; simpl; [done|].
        by apply (Hinv id mh').
      * rewrite lookup_insert_ne by done. apply Hinv.
  - unfold Renew. destruct (handles hm !! id') as [mh'|] eqn:Hk; simpl; [|apply Hinv].
    destruct (After now (ExpiresAt mh')).
    + destruct (call_Close id' (Handle mh') w). simpl.
      intros Hl. apply lookup_delete_Some in Hl as [_ Hl]. by apply Hinv in Hl.
    + simpl. destruct (decide (id' = id)) as [->|Hne].
      * rewrite lookup_insert_eq. intros [= <-]. split; simpl; [done|].
        apply cap_lease_le.
      * rewrite lookup_insert_ne by done. apply Hinv.
  - unfold Close. destruct (handles hm !! id') as [mh'|] eqn:Hk; simpl; [|apply Hinv].
    destruct (call_Close id' (Handle mh') w). simpl.
    intros Hl. apply lookup_delete_Some in Hl as [_ Hl]. by apply Hinv in Hl.
  - rewrite cleanup_lookup. destruct (handles hm !! id) as [mh'|] eqn:Hk; [|done].
    destruct (After now (ExpiresAt mh')); [done|]. intros [= <-]. by apply (Hinv id).
  - by rewrite Stop_lookup.
Qed.

Lemma run_lease_ok tr (s : HandleManager * World) :
  (∀ id mh, handles s.1 !! id = Some mh → lease_ok (config s.1) mh) →
  ∀ id mh, handles (run tr s).1 !! id = Some mh → lease_ok (config (run tr s).1) mh.
Proof.
  revert s. induction tr as [|[now o] tr IH]; intros s Hinv; [done|].
  rewrite run_cons. apply IH. by apply step_lease_ok.
Qed.

(** C4: along every sequence of operations on a manager made by
    [NewHandleManager], for every configuration, every record of the table
    has expires-at = last-access + lease-duration and
    lease-duration ≤ max-lease. *)
Theorem C4_lease_invariant cfg tr w id mh :
  handles (run tr (NewHandleManager cfg, w)).1 !! id = Some mh →
  ExpiresAt mh = LastAccess mh + LeaseTime mh ∧
  LeaseTime mh ≤ MaxLease (config (run tr (NewHandleManager cfg, w)).1).
Proof.
  intros Hl. eapply (run_lease_ok tr (NewHandleManager cfg, w)); [|exact Hl].
  intros id' mh'. simpl. by rewrite lookup_empty.
Qed.

(** C3: [Register] fails when the table holds at least [MaxHandles]
    records, and a failed [Register] returns the manager it was given:
    the same table, the same records. *)
Theorem C3_register_capacity hm (h : FileHandle) path flags lease now id :
  (MaxHandles (config hm) ≤ Z.of_nat (size (handles hm)) →
   (Register hm h path flags lease now id).1 =
     inr (ErrMaxHandles (MaxHandles (config hm)))) ∧
  (∀ e, (Register hm h path flags lease now id).1 = inr e →
        (Register hm h path flags lease now id).2 = hm ∧
        MaxHandles (config hm) ≤ Z.of_nat (size (handles hm))).
Proof.
  unfold Register.
  destruct (Z.geb_spec (Z.of_nat (size (handles hm))) (MaxHandles (config hm)));
    simpl; split; try done; try lia.
Qed.

Lemma length_filter_lt {A} (P : A → Prop) `{!∀ x, Decision (P x)} (l : list A) x :
  x ∈ l → ¬ P x → (length (filter P l) < length l)%nat.
Proof.
  induction l as [|y l IH]; intros Hin HP; [by apply elem_of_nil in Hin|].
  rewrite filter_cons. pose proof (length_filter P l) as Hle.
  destruct (decide (P y)) as [Hy|Hy]; simpl.
  - apply elem_of_cons in Hin as [->|Hin]; [done|]. specialize (IH Hin HP). lia.
  - lia.
Qed.

(** C10: [Count] is the number of records stored, expired or not; [List]
    leaves out the expired ones; so [Count] is at least the length of
    [List], and greater when an expired record is still in the table. *)
Theorem C10_count_list hm now :
  Count hm = Z.of_nat (size (handles hm)) ∧
  (∀ mh, mh ∈ List hm now →
     (∃ id, handles hm !! id = Some mh) ∧ now < ExpiresAt mh) ∧
  Z.of_nat (length (List hm now)) ≤ Count hm ∧
  ((∃ id mh, handles hm !! id = Some mh ∧ After now (ExpiresAt mh) = true) →
   Z.of_nat (length (List hm now)) < Count hm).
Proof.
  unfold Count, List. split; [done|]. split; [|split].
  - intros mh Hin. apply list_elem_of_fmap in Hin as ([id mh'] & -> & Hin).
    apply list_elem_of_filter in Hin as [Hb Hin]. simpl in *.
    apply elem_of_map_to_list in Hin. split; [eauto|].
    by apply Before_spec in Hb.
  - rewrite length_fmap, <- length_map_to_list.
    apply inj_le, length_filter.
  - intros (id & mh & Hk & He). rewrite length_fmap, <- length_map_to_list.
    apply inj_lt. apply (length_filter_lt _ _ (id, mh)).
    + by apply elem_of_map_to_list.
    + simpl. apply After_spec in He. unfold Before.
      intros Hb. apply Z.ltb_lt in Hb. lia.
Qed.

(** C5, as amended: after a reaper tick observing [now], every record left
    in the table has expires-at ≥ now; the tick removes exactly the records
    with now > expires-at, and invokes the plugin [Close] once on each of
    these and on no other. *)
Theorem C5_reaper_tick hm now w :
  (∀ id mh, handles (cleanup hm now w).1 !! id = Some mh → now ≤ ExpiresAt mh) ∧
  (∀ id, handles (cleanup hm now w).1 !! id =
         match handles hm !! id with
         | Some mh => if ExpiresAt mh <? now then None else Some mh
         | None => None
         end) ∧
  (∃ closed, close_calls (cleanup hm now w).2 = close_calls w ++ closed ∧
             NoDup closed.*1 ∧
             ∀ id h, (id, h) ∈ closed ↔
                     ∃ mh, handles hm !! id = Some mh ∧
                           ExpiresAt mh < now ∧ h = Handle mh).
Proof.
  split; [|split].
  - intros id mh. rewrite cleanup_lookup.
    destruct (handles hm !! id) as [mh'|]; [|done]. unfold After.
    destruct (Z.ltb_spec (ExpiresAt mh') now); [done|]. by intros [= <-].
  - intros id. apply cleanup_lookup.
  - exists (reaped (expired now) (map_to_list (handles hm))).
    split; [apply cleanup_calls|]. split; [apply reaped_NoDup|].
    intros id h. rewrite reaped_elem. unfold expired.
    split; intros (mh & Hk & He & Hh); exists mh; (split; [done|]); (split; [|done]).
    + by apply After_spec.
    + by apply After_spec.
Qed.

Lemma register_lease_spec cfg lease :
  0 ≤ lease →
  register_lease cfg lease = spec_lease (MaxLease cfg) (DefaultLease cfg) lease.
Proof.
  intros Hl. unfold register_lease, cap_lease, spec_lease.
  destruct (Z.leb_spec lease 0); case_decide; try lia;
    case_match; rewrite ?Z.gtb_gt, ?Z.gtb_ltb, ?Z.ltb_ge in *; lia.
Qed.

Lemma renew_lease_spec cfg mh lease :
  0 ≤ lease →
  renew_lease cfg mh lease = spec_lease (MaxLease cfg) (LeaseTime mh) lease.
Proof.
  intros Hl. unfold renew_lease, cap_lease, spec_lease.
  destruct (Z.leb_spec lease 0); case_decide; try lia;
    case_match; rewrite ?Z.gtb_gt, ?Z.gtb_ltb, ?Z.ltb_ge in *; lia.
Qed.

(** C6: [Register] (below capacity) stores and returns now + L, where L
    is the requested lease with zero replaced by [DefaultLease] and the
    result clamped to [MaxLease]; [Renew] of a record that has not expired,
    in any state the manager can reach, stores and returns now + L, where
    L is the requested lease with zero replaced by the record's own lease
    duration (kept as it is, being at most [MaxLease]) and an oversized
    lease clamped to [MaxLease]. *)
Theorem C6_lease_clamping cfg tr w0 :
  let hm := (run tr (NewHandleManager cfg, w0)).1 in
  let w := (run tr (NewHandleManager cfg, w0)).2 in
  (∀ (h : FileHandle) path flags lease now id,
     0 ≤ lease →
     Z.of_nat (size (handles hm)) < MaxHandles (config hm) →
     let L := spec_lease (MaxLease (config hm)) (DefaultLease (config hm)) lease in
     (Register hm h path flags lease now id).1 = inl (id, now + L) ∧
     (∃ mh, handles (Register hm h path flags lease now id).2 !! id = Some mh ∧
            LeaseTime mh = L ∧ ExpiresAt mh = now + L) ∧
     (lease = 0 → DefaultLease (config hm) ≤ MaxLease (config hm) →
      L = DefaultLease (config hm)) ∧
     (0 < lease → lease > MaxLease (config hm) → L = MaxLease (config hm))) ∧
  (∀ id mh lease now,
     0 ≤ lease →
     handles hm !! id = Some mh →
     After now (ExpiresAt mh) = false →
     let L := spec_lease (MaxLease (config hm)) (LeaseTime mh) lease in
     (Renew hm id lease now w).1.1 = inl (now + L) ∧
     (Renew hm id lease now w).2 = w ∧
     (∃ mh', handles (Renew hm id lease now w).1.2 !! id = Some mh' ∧
             LeaseTime mh' = L ∧ ExpiresAt mh' = now + L) ∧
     (lease = 0 → L = LeaseTime mh) ∧
     (0 < lease → lease > MaxLease (config hm) → L = MaxLease (config hm))).
Proof.
  intros hm w. split.
  - intros h path flags lease now id Hl Hcap L.
    unfold Register.
    destruct (Z.geb_spec (Z.of_nat (size (handles hm))) (MaxHandles (config hm)));
      [lia|]. simpl.
    rewrite register_lease_spec by done. fold L.
    split; [done|]. split.
    { eexists. rewrite lookup_insert_eq. done. }
    subst L. unfold spec_lease. split.
    + intros -> Hd. rewrite decide_True by done. lia.
    + intros Hpos Hgt. case_decide; lia.
  - intros id mh lease now Hl Hk He L.
    pose proof (Hrun := run_lease_ok tr (NewHandleManager cfg, w0)).
    assert (lease_ok (config hm) mh) as [_ Hle].
    { apply (Hrun ltac:(intros ? ?; simpl; by rewrite lookup_empty) id mh Hk). }
    unfold Renew. rewrite Hk, He. simpl.
    rewrite renew_lease_spec by done. fold L.
    split; [done|]. split; [done|]. split.
    { eexists. rewrite lookup_insert_eq. done. }
    subst L. unfold spec_lease. split.
    + intros ->. rewrite decide_True by done. lia.
    + intros Hpos Hgt. case_decide; lia.
Qed.

(** ** [Get], [Renew] and [Close], case by case *)

Lemma Get_absent hm id now w :
  handles hm !! id = None → Get hm id now w = (inr ErrNotFound, hm, w).
Proof. intros Hk. unfold Get. by rewrite Hk. Qed.

Lemma Get_expired hm id now w mh :
  handles hm !! id = Some mh → After now (ExpiresAt mh) = true →
  Get hm id now w =
  (inr ErrNotFound, with_handles hm (delete id (handles hm)),
   (call_Close id (Handle mh) w).2).
Proof.
  intros Hk He. unfold Get. rewrite Hk, He.
  by destruct (call_Close id (Handle mh) w).
Qed.

Lemma Get_live hm id now w mh :
  handles hm !! id = Some mh → After now (ExpiresAt mh) = false →
  Get hm id now w =
  (inl (Handle mh),
   with_handles hm
     (<[id := {| Handle := Handle mh; Path := Path mh; Flags := Flags mh;
                 LeaseTime := LeaseTime mh; ExpiresAt := now + LeaseTime mh;
                 CreatedAt := CreatedAt mh; LastAccess := now |}]> (handles hm)),
   w).
Proof. intros Hk He. unfold Get. by rewrite Hk, He. Qed.

Lemma Close_absent hm id w :
  handles hm !! id = None → Close hm id w = (Some ErrNotFound, hm, w).
Proof. intros Hk. unfold Close. by rewrite Hk. Qed.

Lemma Close_present hm id w mh :
  handles hm !! id = Some mh →
  Close hm id w =
  ((call_Close id (Handle mh) w).1, with_handles hm (delete id (handles hm)),
   (call_Close id (Handle mh) w).2).
Proof.
  intros Hk. unfold Close. rewrite Hk. by destruct (call_Close id (Handle mh) w).
Qed.

Lemma call_Close_result id (h : FileHandle) w :
  (call_Close id h w).1 = (handle_Close h (plugin w)).1.
Proof. unfold call_Close. by destruct (handle_Close h (plugin w)). Qed.

Lemma Get_effect hm id now w :
  point_effect id (hm, w) ((Get hm id now w).1.2, (Get hm id now w).2).
Proof.
  destruct (handles hm !! id) as [mh|] eqn:Hk.
  - destruct (After now (ExpiresAt mh)) eqn:He.
    + rewrite (Get_expired _ _ _ _ _ Hk He). by eapply effect_removed.
    + rewrite (Get_live _ _ _ _ _ Hk He). by eapply effect_updated.
  - rewrite (Get_absent _ _ _ _ Hk). by apply effect_absent.
Qed.

Lemma Renew_effect hm id lease now w :
  point_effect id (hm, w) ((Renew hm id lease now w).1.2, (Renew hm id lease now w).2).
Proof.
  unfold Renew. destruct (handles hm !! id) as [mh|] eqn:Hk.
  - destruct (After now (ExpiresAt mh)) eqn:He.
    + destruct (call_Close id (Handle mh) w) as [e w'] eqn:Hc.
      eapply effect_removed; [done|done|]. simpl. by rewrite Hc.
    + by eapply effect_updated.
  - by apply effect_absent.
Qed.

Lemma Close_effect hm id w :
  point_effect id (hm, w) ((Close hm id w).1.2, (Close hm id w).2).
Proof.
  destruct (handles hm !! id) as [mh|] eqn:Hk.
  - rewrite (Close_present _ _ _ _ Hk). by eapply effect_removed.
  - rewrite (Close_absent _ _ _ Hk). by apply effect_absent.
Qed.

Lemma step_Get now id (s : HandleManager * World) :
  step now (OpGet id) s = ((Get s.1 id now s.2).1.2, (Get s.1 id now s.2).2).
Proof. simpl. by destruct (Get s.1 id now s.2) as [[? ?] ?]. Qed.

Lemma step_Renew now id lease (s : HandleManager * World) :
  step now (OpRenew id lease) s =
  ((Renew s.1 id lease now s.2).1.2, (Renew s.1 id lease now s.2).2).
Proof. simpl. by destruct (Renew s.1 id lease now s.2) as [[? ?] ?]. Qed.

Lemma step_Close now id (s : HandleManager * World) :
  step now (OpClose id) s = ((Close s.1 id s.2).1.2, (Close s.1 id s.2).2).
Proof. simpl. by destruct (Close s.1 id s.2) as [[? ?] ?]. Qed.

(** ** The plugin handle of a record never changes *)

Lemma point_effect_keeps_Handle id' (s s' : HandleManager * World) id (h : FileHandle) :
  point_effect id' s s' →
  (∀ mh, handles s.1 !! id = Some mh → Handle mh = h) →
  ∀ mh, handles s'.1 !! id = Some mh → Handle mh = h.
Proof.
  intros [Hk ->|mh0 Hk Hh Hw|mh0 mh1 Hk Hh HH Hw] Hinv mh; [apply Hinv|..]; rewrite Hh.
  - intros Hl. apply lookup_delete_Some in Hl as [_ Hl]. by apply Hinv in Hl.
  - destruct (decide (id' = id)) as [->|Hne].
    + rewrite lookup_insert_eq. intros [= <-]. rewrite HH. by apply Hinv.
    + rewrite lookup_insert_ne by done. apply Hinv.
Qed.

Lemma step_keeps_Handle now (o : op) (s : HandleManager * World) id (h : FileHandle) :
  id ∉ generated_ids [(now, o)] →
  (∀ mh, handles s.1 !! id = Some mh → Handle mh = h) →
  ∀ mh, handles (step now o s).1 !! id = Some mh → Handle mh = h.
Proof.
  intros Hid Hinv.
  destruct o as [h' p f l id'|id'|id'|id' l|id'| | | |]; try apply Hinv.
  - intros mh. simpl. unfold Register. case_match; simpl; [apply Hinv|].
    rewrite lookup_insert_ne; [apply Hinv|].
    intros ->. apply Hid. simpl. left.
  - rewrite step_Get. eapply point_effect_keeps_Handle; [|done].
    destruct s. apply Get_effect.
  - rewrite step_Renew. eapply point_effect_keeps_Handle; [|done].
    destruct s. apply Renew_effect.
  - rewrite step_Close. eapply point_effect_keeps_Handle; [|done].
    destruct s. apply Close_effect.
  - intros mh. simpl. rewrite cleanup_lookup.
    destruct (handles s.1 !! id) as [mh'|] eqn:Hk; [|done].
    destruct (After now (ExpiresAt mh')); [done|]. intros [= <-]. by apply Hinv.
  - intros mh. simpl. by rewrite Stop_lookup.
Qed.

Lemma generated_ids_cons now (o : op (FileHandle := FileHandle)) tr :
  generated_ids ((now, o) :: tr) = generated_ids [(now, o)] ++ generated_ids tr.
Proof. unfold generated_ids. simpl. by destruct o. Qed.

Lemma run_keeps_Handle tr (s : HandleManager * World) id (h : FileHandle) :
  id ∉ generated_ids tr →
  (∀ mh, handles s.1 !! id = Some mh → Handle mh = h) →
  ∀ mh, handles (run tr s).1 !! id = Some mh → Handle mh = h.
Proof.
  revert s. induction tr as [|[now o] tr IH]; intros s Hid Hinv; [done|].
  rewrite generated_ids_cons in Hid. apply not_elem_of_app in Hid as [Hid1 Hid2].
  rewrite run_cons. apply IH; [done|]. by apply step_keeps_Handle.
Qed.

(** C1: after [Register] has stored [h] under [id], and whatever has been
    done to the manager since (the id generator not repeating [id]), a
    record still in the table under [id] holds [h]; if it has not expired,
    [Get] returns [h], closes nothing, and leaves the record with
    last-access = now and expires-at = now + lease-duration; if it has
    expired (now after expires-at), [Get] returns not-found, invokes the
    [Close] of [h] once, and the record is gone from the table. *)
Theorem C1_get hm0 (h : FileHandle) path flags lease t0 id exp w1 tr now mh :
  let s := run tr ((Register hm0 h path flags lease t0 id).2, w1) in
  (Register hm0 h path flags lease t0 id).1 = inl (id, exp) →
  id ∉ generated_ids tr →
  handles s.1 !! id = Some mh →
  Handle mh = h ∧
  (After now (ExpiresAt mh) = false →
   (Get s.1 id now s.2).1.1 = inl h ∧
   (Get s.1 id now s.2).2 = s.2 ∧
   ∃ mh', handles (Get s.1 id now s.2).1.2 !! id = Some mh' ∧
          Handle mh' = h ∧ LeaseTime mh' = LeaseTime mh ∧
          LastAccess mh' = now ∧ ExpiresAt mh' = now + LeaseTime mh') ∧
  (After now (ExpiresAt mh) = true →
   (Get s.1 id now s.2).1.1 = inr ErrNotFound ∧
   close_calls (Get s.1 id now s.2).2 = close_calls s.2 ++ [(id, h)] ∧
   plugin (Get s.1 id now s.2).2 = (handle_Close h (plugin s.2)).2 ∧
   handles (Get s.1 id now s.2).1.2 !! id = None).
Proof.
  intros s Hreg Hid Hk.
  assert (Handle mh = h) as HH.
  { eapply (run_keeps_Handle tr _ id h); [done| |exact Hk].
    intros mh1. revert Hreg. unfold Register. case_match; [done|]. simpl.
    rewrite lookup_insert_eq. by intros _ [= <-]. }
  split; [done|]. split.
  - intros He. rewrite (Get_live _ _ _ _ _ Hk He). simpl.
    split; [by rewrite HH|]. split; [done|].
    eexists. rewrite lookup_insert_eq. split; [done|]. by simpl.
  - intros He. rewrite (Get_expired _ _ _ _ _ Hk He). simpl.
    rewrite HH. split; [done|]. split; [apply call_Close_calls|].
    split; [|apply lookup_delete_eq].
    unfold call_Close. by destruct (handle_Close h (plugin s.2)).
Qed.

(** ** At most one close per id *)

Lemma closed_once_weaken fresh fresh' s :
  (∀ id, id ∈ fresh' → id ∈ fresh) → closed_once fresh s → closed_once fresh' s.
Proof.
  intros Hsub Hinv id. destruct (Hinv id) as (H1 & H2 & H3).
  split; [done|]. split; [done|]. intros Hin. apply H3. by apply Hsub.
Qed.

Lemma point_effect_closed_once id' fresh (s s' : HandleManager * World) :
  point_effect id' s s' → closed_once fresh s → closed_once fresh s'.
Proof.
  intros [Hk ->|mh0 Hk Hh Hw|mh0 mh1 Hk Hh HH Hw] Hinv; [done|..];
    intros id; destruct (Hinv id) as (H1 & H2 & H3); rewrite Hh, Hw.
  - rewrite closes_of_call_Close.
    destruct (decide (id' = id)) as [->|Hne].
    + rewrite lookup_delete_eq.
      assert (closes_of id s.2 = 0%nat) as Hz by (apply H2; by rewrite Hk).
      split; [lia|]. split; [by intros [? ?]|].
      intros Hin. destruct (H3 Hin) as [Hn _]. congruence.
    + rewrite lookup_delete_ne by done. rewrite Nat.add_0_r. done.
  - destruct (decide (id' = id)) as [->|Hne].
    + rewrite lookup_insert_eq. split; [done|]. split.
      * intros _. apply H2. by rewrite Hk.
      * intros Hin. destruct (H3 Hin) as [Hn _]. congruence.
    + rewrite lookup_insert_ne by done. done.
Qed.

Lemma sweep_closed_once (P : ManagedHandle → bool) fresh hm w :
  closed_once fresh (hm, w) →
  closed_once fresh (foldl (sweep_visit P) (hm, w) (map_to_list (handles hm))).
Proof.
  intros Hinv id. destruct (Hinv id) as (H1 & H2 & H3). simpl in *.
  rewrite sweep_closes_of, sweep_lookup.
  destruct (handles hm !! id) as [mh|] eqn:Hk.
  - assert (closes_of id w = 0%nat) as Hz by (by apply H2).
    destruct (P mh).
    + split; [lia|]. split; [by intros [? ?]|].
      intros Hin. by destruct (H3 Hin).
    + rewrite Nat.add_0_r. split; [done|]. split; [done|].
      intros Hin. by destruct (H3 Hin).
  - rewrite Nat.add_0_r. split; [done|]. split; [by intros [? ?]|done].
Qed.

Lemma step_closed_once now (o : op) tr (s : HandleManager * World) :
  NoDup (generated_ids ((now, o) :: tr)) →
  closed_once (generated_ids ((now, o) :: tr)) s →
  closed_once (generated_ids tr) (step now o s).
Proof.
  rewrite generated_ids_cons. intros Hnd Hinv.
  assert (closed_once (generated_ids tr) s) as Hinv'.
  { eapply closed_once_weaken; [|exact Hinv]. intros id Hin.
    apply elem_of_app. by right. }
  destruct o as [h' p f l id'|id'|id'|id' l|id'| | | |]; try done.
  - simpl. unfold Register. case_match; [done|]. simpl.
    simpl in Hnd. apply NoDup_cons in Hnd as [Hid' _].
    intros id. destruct (Hinv id) as (H1 & H2 & H3). simpl in *.
    split; [done|]. destruct (decide (id' = id)) as [->|Hne].
    + rewrite lookup_insert_eq.
      destruct H3 as [_ Hz]; [left|]. split; [done|]. by intros Hin.
    + rewrite lookup_insert_ne by done. split; [done|].
      intros Hin. apply H3. by right.
  - rewrite step_Get. eapply point_effect_closed_once; [|exact Hinv'].
    destruct s. apply Get_effect.
  - rewrite step_Renew. eapply point_effect_closed_once; [|exact Hinv'].
    destruct s. apply Renew_effect.
  - rewrite step_Close. eapply point_effect_closed_once; [|exact Hinv'].
    destruct s. apply Close_effect.
  - destruct s as [hm w]. simpl. rewrite cleanup_sweep. by apply sweep_closed_once.
  - destruct s as [hm w]. simpl. rewrite Stop_sweep. by apply sweep_closed_once.
Qed.

Lemma run_closed_once tr (s : HandleManager * World) :
  NoDup (generated_ids tr) →
  closed_once (generated_ids tr) s →
  closed_once [] (run tr s).
Proof.
  revert s. induction tr as [|[now o] tr IH]; intros s Hnd Hinv; [done|].
  rewrite run_cons. apply IH.
  - rewrite generated_ids_cons in Hnd. by apply NoDup_app in Hnd as (_ & _ & ?).
  - by apply step_closed_once.
Qed.

(** ** An id that has left the table does not come back *)

Lemma point_effect_stays_absent id' s s' id :
  point_effect id' s s' → handles s.1 !! id = None → handles s'.1 !! id = None.
Proof.
  intros [Hk ->|mh0 Hk Hh Hw|mh0 mh1 Hk Hh HH Hw] Hn; [done|..]; rewrite Hh.
  - apply lookup_delete_None. by right.
  - rewrite lookup_insert_ne; [done|]. intros ->. congruence.
Qed.

Lemma step_stays_absent now (o : op) s id :
  id ∉ generated_ids [(now, o)] →
  handles s.1 !! id = None → handles (step now o s).1 !! id = None.
Proof.
  intros Hid Hn.
  destruct o as [h' p f l id'|id'|id'|id' l|id'| | | |]; try done.
  - simpl. unfold Register. case_match; simpl; [done|].
    rewrite lookup_insert_ne; [done|]. intros ->. apply Hid. simpl. left.
  - rewrite step_Get. eapply point_effect_stays_absent; [|done].
    destruct s. apply Get_effect.
  - rewrite step_Renew. eapply point_effect_stays_absent; [|done].
    destruct s. apply Renew_effect.
  - rewrite step_Close. eapply point_effect_stays_absent; [|done].
    destruct s. apply Close_effect.
  - simpl. rewrite cleanup_lookup. by rewrite Hn.
  - simpl. apply Stop_lookup.
Qed.

Lemma run_stays_absent tr s id :
  id ∉ generated_ids tr →
  handles s.1 !! id = None → handles (run tr s).1 !! id = None.
Proof.
  revert s. induction tr as [|[now o] tr IH]; intros s Hid Hn; [done|].
  rewrite generated_ids_cons in Hid. apply not_elem_of_app in Hid as [Hid1 Hid2].
  rewrite run_cons. apply IH; [done|]. by apply step_stays_absent.
Qed.

(** C2: along every sequence of [Register], [Get], [GetInfo], [Renew],
    [Close], [List], [Count], reaper ticks and [Stop] on a new manager, with
    an id generator that does not repeat itself, the plugin [Close] is
    invoked at most once for each id.  [Close] of an id in the table invokes
    the plugin [Close] of its handle once, returns what that returned, and
    removes the record, error or not, touching no other record; every
    later [Close] of the id, whatever was done in between, returns
    not-found and invokes nothing.  A reaper tick likewise removes an
    expired record whatever the plugin [Close] returns. *)
Theorem C2_close_at_most_once :
  (∀ cfg tr w0 id,
     close_calls w0 = [] → NoDup (generated_ids tr) →
     (closes_of id (run tr (NewHandleManager cfg, w0)).2 ≤ 1)%nat) ∧
  (∀ hm id w mh,
     handles hm !! id = Some mh →
     (Close hm id w).1.1 = (handle_Close (Handle mh) (plugin w)).1 ∧
     close_calls (Close hm id w).2 = close_calls w ++ [(id, Handle mh)] ∧
     handles (Close hm id w).1.2 = delete id (handles hm) ∧
     ∀ tr, id ∉ generated_ids tr →
           let s := run tr ((Close hm id w).1.2, (Close hm id w).2) in
           Close s.1 id s.2 = (Some ErrNotFound, s.1, s.2)) ∧
  (∀ hm id w mh now,
     handles hm !! id = Some mh → After now (ExpiresAt mh) = true →
     handles (cleanup hm now w).1 !! id = None ∧
     closes_of id (cleanup hm now w).2 = S (closes_of id w)).
Proof.
  split; [|split].
  - intros cfg tr w0 id Hw0 Hnd.
    apply (run_closed_once tr (NewHandleManager cfg, w0) Hnd).
    intros id'. unfold closes_of. simpl. rewrite Hw0, lookup_empty.
    rewrite filter_nil. simpl. split; [lia|]. split; [by intros [? ?]|done].
  - intros hm id w mh Hk. rewrite (Close_present _ _ _ _ Hk). simpl.
    split; [apply call_Close_result|]. split; [apply call_Close_calls|].
    split; [done|]. intros tr Hid. apply Close_absent.
    apply run_stays_absent; [done|]. simpl. apply lookup_delete_eq.
  - intros hm id w mh now Hk He.
    rewrite cleanup_lookup, cleanup_closes_of, Hk, He. split; [done|lia].
Qed.

End HandleManagerFacts.

(** ** The handle manager on examples *)

Section HandleManagerExamples.

Import filesystem mock.

Lemma C1_get_witness :
  let h := test_handle "test-1" in
  let s := run [(30, OpGet "h_01")]
             ((Register (NewHandleManager test_config) h "/test/file.txt"
                        O_RDWR 0 0 "h_01").2, world0) in
  (Get s.1 "h_01" 120 s.2).1.1 = inl h ∧
  (Get s.1 "h_01" 131 s.2).1.1 = inr ErrNotFound ∧
  close_calls (Get s.1 "h_01" 131 s.2).2 = [("h_01", h)].
Proof.
  intros h s.
  assert (handles s.1 !! "h_01" =
          Some {| Handle := h; Path := "/test/file.txt"; Flags := O_RDWR;
                  LeaseTime := 100; ExpiresAt := 130; CreatedAt := 0;
                  LastAccess := 30 |}) as Hk by (vm_compute; reflexivity).
  assert ("h_01" ∉ generated_ids (FileHandle := mockFileHandle) [(30, OpGet "h_01")])
    as Hid by apply not_elem_of_nil.
  pose proof (C1_get (NewHandleManager test_config) h "/test/file.txt" O_RDWR
                0 0 "h_01" 100 world0 [(30, OpGet "h_01")] 120 _
                eq_refl Hid Hk) as (_ & Hlive & _).
  pose proof (C1_get (NewHandleManager test_config) h "/test/file.txt" O_RDWR
                0 0 "h_01" 100 world0 [(30, OpGet "h_01")] 131 _
                eq_refl Hid Hk) as (_ & _ & Hdead).
  destruct (Hlive eq_refl) as (Hr & _).
  destruct (Hdead eq_refl) as (Hn & Hc & _).
  split; [exact Hr|]. split; [exact Hn|exact Hc].
Defined.

Lemma session_ids_NoDup : NoDup (generated_ids session).
Proof.
  change (NoDup ["h_01"; "h_02"; "h_03"]). apply NoDup_ListNoDup.
  repeat constructor; simpl; intuition discriminate.
Defined.

Lemma C2_close_at_most_once_witness :
  (closes_of "h_01" (run session (NewHandleManager test_config, world0)).2 ≤ 1)%nat ∧
  (closes_of "h_02" (run session (NewHandleManager test_config, world0)).2 ≤ 1)%nat ∧
  let hm := {| handles := {[ "h_09" := {| Handle := Broken 7; Path := "/f";
                                          Flags := 0; LeaseTime := 100;
                                          ExpiresAt := 100; CreatedAt := 0;
                                          LastAccess := 0 |} ]};
               config := test_config |} in
  let w := {| plugin := (); close_calls := [] |} in
  (Close hm "h_09" w).1.1 = Some (ErrNew "close failed") ∧
  handles (Close hm "h_09" w).1.2 = delete "h_09" (handles hm) ∧
  (Close (Close hm "h_09" w).1.2 "h_09" (Close hm "h_09" w).2).1.1 = Some ErrNotFound.
Proof.
  split; [|split].
  - apply (proj1 C2_close_at_most_once test_config session world0 "h_01" eq_refl
             session_ids_NoDup).
  - apply (proj1 C2_close_at_most_once test_config session world0 "h_02" eq_refl
             session_ids_NoDup).
  - intros hm w.
    destruct (proj1 (proj2 C2_close_at_most_once) hm "h_09" w _
                (lookup_singleton_eq _ _)) as (Hr & _ & Hh & Hagain).
    split; [exact Hr|]. split; [exact Hh|].
    specialize (Hagain [] (not_elem_of_nil _)). simpl in Hagain.
    by rewrite Hagain.
Defined.

Lemma C3_register_capacity_witness :
  (Register full_table.1 (test_handle "d") "/test/file.txt" O_RDWR 0 3 "h_0d").1 =
    inr (ErrMaxHandles 3) ∧
  (Register full_table.1 (test_handle "d") "/test/file.txt" O_RDWR 0 3 "h_0d").2 =
    full_table.1.
Proof.
  pose proof (C3_register_capacity full_table.1 (test_handle "d") "/test/file.txt"
                O_RDWR 0 3 "h_0d") as [Hfail Hsame].
  assert (MaxHandles (config full_table.1) ≤ Z.of_nat (size (handles full_table.1)))
    as Hcap by (vm_compute; discriminate).
  split; [exact (Hfail Hcap)|]. exact (proj1 (Hsame _ (Hfail Hcap))).
Defined.

Lemma C4_lease_invariant_witness :
  ∃ mh, handles (run (take 3 session) (NewHandleManager test_config, world0)).1
          !! "h_02" = Some mh ∧
        ExpiresAt mh = LastAccess mh + LeaseTime mh ∧ LeaseTime mh ≤ 500.
Proof.
  eexists. split; [vm_compute; reflexivity|].
  apply (C4_lease_invariant test_config (take 3 session) world0 "h_02").
  vm_compute. reflexivity.
Defined.

(** The claim of C5 as it is worded, with expires-at > now for every record
    left, fails for a record registered at 0 with a lease of 100 when the
    reaper ticks exactly at 100: the record is not closed (now is not after
    expires-at) and stays, with expires-at = now. *)
Lemma C5_counterexample :
  let s := run [(0, register "test-1" "h_01" 100)]
               (NewHandleManager test_config, world0) in
  ¬ (∀ id mh, handles (cleanup s.1 100 s.2).1 !! id = Some mh → 100 < ExpiresAt mh).
Proof.
  intros s Hall.
  assert (handles (cleanup s.1 100 s.2).1 !! "h_01" =
          Some {| Handle := test_handle "test-1"; Path := "/test/file.txt";
                  Flags := O_RDWR; LeaseTime := 100; ExpiresAt := 100;
                  CreatedAt := 0; LastAccess := 0 |}) as Hk
    by (vm_compute; reflexivity).
  apply Hall in Hk. simpl in Hk. lia.
Qed.

Lemma C5_reaper_tick_witness :
  let s := run (take 3 session) (NewHandleManager test_config, world0) in
  handles (cleanup s.1 200 s.2).1 !! "h_01" = None ∧
  (∃ mh, handles (cleanup s.1 200 s.2).1 !! "h_02" = Some mh ∧ 200 ≤ ExpiresAt mh).
Proof.
  intros s.
  destruct (C5_reaper_tick s.1 200 s.2) as (Hleft & Hlook & _).
  split.
  - rewrite Hlook. vm_compute. reflexivity.
  - eexists. split; [vm_compute; reflexivity|].
    apply (Hleft "h_02"). vm_compute. reflexivity.
Defined.

Lemma C6_lease_clamping_witness :
  let s := run (take 2 session) (NewHandleManager test_config, world0) in
  (Register s.1 (test_handle "x") "/x" O_RDWR 0 40 "h_0x").1 = inl ("h_0x", 140) ∧
  (Register s.1 (test_handle "x") "/x" O_RDWR 3600000 40 "h_0x").1 = inl ("h_0x", 540) ∧
  (Renew s.1 "h_01" 0 40 s.2).1.1 = inl 140 ∧
  (Renew s.1 "h_01" 3600000 40 s.2).1.1 = inl 540.
Proof.
  intros s.
  destruct (C6_lease_clamping test_config (take 2 session) world0) as [Hreg Hren].
  fold s in Hreg, Hren.
  assert (Z.of_nat (size (handles s.1)) < MaxHandles (config s.1)) as Hcap
    by (vm_compute; reflexivity).
  assert (handles s.1 !! "h_01" =
          Some {| Handle := test_handle "test-1"; Path := "/test/file.txt";
                  Flags := O_RDWR; LeaseTime := 100; ExpiresAt := 100;
                  CreatedAt := 0; LastAccess := 0 |}) as Hk
    by (vm_compute; reflexivity).
  split; [|split; [|split]].
  - apply (Hreg (test_handle "x") "/x" O_RDWR 0 40 "h_0x" ltac:(lia) Hcap).
  - apply (Hreg (test_handle "x") "/x" O_RDWR 3600000 40 "h_0x" ltac:(lia) Hcap).
  - apply (Hren "h_01" _ 0 40 ltac:(lia) Hk eq_refl).
  - apply (Hren "h_01" _ 3600000 40 ltac:(lia) Hk eq_refl).
Defined.

Lemma C10_count_list_witness :
  let s := run (take 3 session) (NewHandleManager test_config, world0) in
  Z.of_nat (length (List s.1 200)) < Count s.1.
Proof.
  intros s. apply (C10_count_list s.1 200).
  exists "h_01". eexists. split; vm_compute; reflexivity.
Defined.

End HandleManagerExamples.

(** * Properties of the FUSE handle bridge and of devfs reads *)

Section BridgeFacts.

Import fusefs.

Context {ClientWorld : Type} `{!ClientAPI ClientWorld}.

Implicit Types (w : World (ClientWorld := ClientWorld)).
Implicit Types (hm : HandleManager) (info : handleInfo).
Implicit Types (data : list Byte.byte).

Lemma wrap64_small z : - 2 ^ 63 ≤ z < 2 ^ 63 → wrap64 z = z.
Proof. intros Hz. unfold wrap64. rewrite Z.mod_small; lia. Qed.

Lemma portion_past_end (d : slice) offset size :
  len d ≤ offset → portion d offset size = Ok (Some []).
Proof.
  intros Ho. unfold portion. destruct (Z.geb_spec offset (len d)); [done|lia].
Qed.

Lemma portion_byte_range data offset size :
  request offset size →
  portion (Some data) offset size = Ok (Some (byte_range data offset size)).
Proof.
  intros (Ho & Hs & Hsum). unfold portion, byte_range. simpl.
  destruct (Z.geb_spec offset (Z.of_nat (length data))) as [Hge|Hlt].
  - replace (Z.to_nat (Z.min (offset + size) (Z.of_nat (length data)) - offset))
      with 0%nat by lia. done.
  - rewrite wrap64_small by lia. unfold slice_expr. simpl.
    destruct (Z.gtb_spec (offset + size) (Z.of_nat (length data))) as [Hgt|Hle].
    + rewrite Z.min_r by lia.
      destruct (Z.leb_spec 0 offset); [|lia].
      destruct (Z.leb_spec offset (Z.of_nat (length data))); [|lia].
      destruct (Z.leb_spec (Z.of_nat (length data)) (Z.of_nat (length data))); [|lia].
      done.
    + rewrite Z.min_l by lia.
      destruct (Z.leb_spec 0 offset); [|lia].
      destruct (Z.leb_spec offset (offset + size)); [|lia].
      destruct (Z.leb_spec (offset + size) (Z.of_nat (length data))); [|lia].
      done.
Qed.

Lemma through_calls {A} c (f : ClientWorld → A * ClientWorld) w :
  calls (through c f w).2 = calls w ++ [c] ∧
  (through c f w).1 = (f (server w)).1 ∧
  server (through c f w).2 = (f (server w)).2.
Proof. unfold through. by destruct (f (server w)). Qed.

(** The first read of a LOCAL handle whose fetch succeeds. *)
Lemma Read_first hm fuseHandle info w (d : slice) offset size :
  handles hm !! fuseHandle = Some info →
  htype info = handleTypeLocal → readBuffer info = None →
  (client_Read (path info) 0 (-1) (server w)).1 = inl d →
  Read hm fuseHandle offset size w =
  (portion d offset size,
   {| handles := <[fuseHandle :=
         {| htype := htype info; agfsHandle := agfsHandle info;
            path := path info; flags := flags info; mode := mode info;
            readBuffer := d |}]> (handles hm);
      nextHandle := nextHandle hm |},
   {| server := (client_Read (path info) 0 (-1) (server w)).2;
      calls := calls w ++ [CallRead (path info) 0 (-1)] |}).
Proof.
  intros Hk Ht Hb Hr. unfold Read, through. rewrite Hk, Ht, Hb.
  destruct (client_Read (path info) 0 (-1) (server w)) as [r sv]. simpl in Hr.
  by subst r.
Qed.

(** A read of a LOCAL handle that has its buffer. *)
Lemma Read_buffered hm fuseHandle info w data offset size :
  handles hm !! fuseHandle = Some info →
  htype info = handleTypeLocal → readBuffer info = Some data →
  Read hm fuseHandle offset size w = (portion (Some data) offset size, hm, w).
Proof. intros Hk Ht Hb. unfold Read. by rewrite Hk, Ht, Hb. Qed.

Lemma Reads_buffered hm fuseHandle info w data reqs :
  handles hm !! fuseHandle = Some info →
  htype info = handleTypeLocal → readBuffer info = Some data →
  Forall (λ r, request r.1 r.2) reqs →
  Reads hm fuseHandle reqs w =
  ((λ r, Ok (Some (byte_range data r.1 r.2))) <$> reqs, hm, w).
Proof.
  intros Hk Ht Hb. induction 1 as [|[o s] reqs Hr _ IH]; [done|].
  simpl. rewrite (Read_buffered _ _ _ _ _ _ _ Hk Ht Hb), IH.
  by rewrite portion_byte_range.
Qed.

(** *** Calls that overlap *)

Lemma fire_step (b : bridge) i t :
  pool b !! i = Some t →
  fire (EvStep i) b =
  {| table := (call_step t (table b) (outside b)).1.2;
     outside := (call_step t (table b) (outside b)).2;
     pool := <[i := (call_step t (table b) (outside b)).1.1]> (pool b);
     fetches := match t with
                | ReadFetching k _ _ _ => fetches b ++ [k]
                | _ => fetches b
                end |}.
Proof.
  intros Hi. unfold fire. rewrite Hi.
  by destruct (call_step t (table b) (outside b)) as [[t' hm'] w'].
Qed.

Lemma fire_step_pool (b : bridge) i t :
  pool b !! i = Some t →
  pool (fire (EvStep i) b) !! i = Some (call_step t (table b) (outside b)).1.1.
Proof.
  intros Hi. rewrite (fire_step b i t Hi). simpl.
  apply list_lookup_insert_eq. by eapply lookup_lt_Some.
Qed.

(** The call that entered last takes a step. *)
Lemma fire_last hm w pl ft t :
  fire (EvStep (length pl))
       {| table := hm; outside := w; pool := pl ++ [t]; fetches := ft |} =
  {| table := (call_step t hm w).1.2;
     outside := (call_step t hm w).2;
     pool := pl ++ [(call_step t hm w).1.1];
     fetches := match t with
                | ReadFetching k _ _ _ => ft ++ [k]
                | _ => ft
                end |}.
Proof.
  rewrite (fire_step _ (length pl) t) by (by apply list_lookup_middle).
  simpl. f_equal. rewrite insert_app_r_alt by done. by rewrite Nat.sub_diag.
Qed.

Lemma schedule_read_alone (b : bridge) fuseHandle offset size :
  schedule (read_alone b fuseHandle offset size) b =
  fire (EvStep (length (pool b)))
    (fire (EvStep (length (pool b)))
       (fire (EvStep (length (pool b)))
          {| table := table b; outside := outside b;
             pool := pool b ++ [ReadCalled fuseHandle offset size];
             fetches := fetches b |})).
Proof. reflexivity. Qed.

Lemma store_buffer_lookup hm fuseHandle (d : slice) k :
  handles (store_buffer hm fuseHandle d) !! k =
  if decide (k = fuseHandle) then
    (λ info, {| htype := htype info; agfsHandle := agfsHandle info;
                path := path info; flags := flags info; mode := mode info;
                readBuffer := d |}) <$> handles hm !! fuseHandle
  else handles hm !! k.
Proof.
  unfold store_buffer. destruct (handles hm !! fuseHandle) as [info|] eqn:E.
  - simpl. destruct (decide (k = fuseHandle)) as [->|Hne].
    + by rewrite lookup_insert_eq.
    + by rewrite lookup_insert_ne.
  - destruct (decide (k = fuseHandle)) as [->|Hne]; [by rewrite E|done].
Qed.

Lemma store_buffer_nextHandle hm fuseHandle (d : slice) :
  nextHandle (store_buffer hm fuseHandle d) = nextHandle hm.
Proof. unfold store_buffer. by destruct (handles hm !! fuseHandle). Qed.

(** A call of [Read] that nothing overlaps does what [Read] does. *)
Lemma Read_alone (b : bridge) fuseHandle offset size :
  table (schedule (read_alone b fuseHandle offset size) b) =
    (Read (table b) fuseHandle offset size (outside b)).1.2 ∧
  outside (schedule (read_alone b fuseHandle offset size) b) =
    (Read (table b) fuseHandle offset size (outside b)).2 ∧
  pool (schedule (read_alone b fuseHandle offset size) b) =
    pool b ++ [ReadReturned (Read (table b) fuseHandle offset size (outside b)).1.1].
Proof.
  rewrite schedule_read_alone, fire_last.
  unfold Read. cbn [call_step].
  destruct (handles (table b) !! fuseHandle) as [info|] eqn:Hk; cbn [fst snd].
  2:{ by rewrite !fire_last. }
  destruct (htype info) eqn:Ht; cbn [fst snd].
  - rewrite fire_last. cbn [call_step]. unfold through.
    destruct (client_ReadHandle (agfsHandle info) offset size (server (outside b)))
      as [[d|err] sv]; cbn [fst snd]; by rewrite fire_last.
  - destruct (readBuffer info) as [buf|] eqn:Hb; cbn [fst snd].
    + by rewrite !fire_last.
    + rewrite fire_last. cbn [call_step]. unfold through.
      destruct (client_Read (path info) 0 (-1) (server (outside b)))
        as [[d|err] sv]; cbn [fst snd]; rewrite fire_last; [|done].
      cbn [call_step fst snd]. unfold store_buffer. rewrite Hk. simpl.
      by rewrite Ht.
Qed.

(** So do calls of [Open], [Close] and [CloseAll]. *)
Lemma Open_alone (b : bridge) p fl md :
  schedule [EvOpen p fl md; EvStep (length (pool b)); EvStep (length (pool b))] b =
  {| table := (Open (table b) p fl md (outside b)).1.2;
     outside := (Open (table b) p fl md (outside b)).2;
     pool := pool b ++ [OpenReturned (Open (table b) p fl md (outside b)).1.1];
     fetches := fetches b |}.
Proof.
  change (schedule [EvOpen p fl md; EvStep (length (pool b)); EvStep (length (pool b))] b)
    with (fire (EvStep (length (pool b)))
            (fire (EvStep (length (pool b)))
               {| table := table b; outside := outside b;
                  pool := pool b ++ [OpenCalled p fl md]; fetches := fetches b |})).
  rewrite fire_last. cbn [call_step]. unfold Open.
  destruct (through (CallOpenHandle p fl md) (client_OpenHandle p fl md) (outside b))
    as [r w]. cbn [fst snd]. rewrite fire_last. cbn [call_step].
  destruct r as [h|err]; [done|]. by destruct (is_ErrNotSupported err).
Qed.

Lemma Close_alone (b : bridge) fuseHandle :
  schedule [EvClose fuseHandle; EvStep (length (pool b)); EvStep (length (pool b))] b =
  {| table := (Close (table b) fuseHandle (outside b)).1.2;
     outside := (Close (table b) fuseHandle (outside b)).2;
     pool := pool b ++ [CloseReturned (Close (table b) fuseHandle (outside b)).1.1];
     fetches := fetches b |}.
Proof.
  change (schedule [EvClose fuseHandle; EvStep (length (pool b));
                    EvStep (length (pool b))] b)
    with (fire (EvStep (length (pool b)))
            (fire (EvStep (length (pool b)))
               {| table := table b; outside := outside b;
                  pool := pool b ++ [CloseCalled fuseHandle];
                  fetches := fetches b |})).
  rewrite fire_last. cbn [call_step]. unfold Close.
  destruct (handles (table b) !! fuseHandle) as [info|]; cbn [fst snd];
    [|by rewrite fire_last].
  destruct (htype info); cbn [fst snd]; rewrite fire_last; [|done].
  cbn [call_step].
  destruct (through (CallCloseHandle (agfsHandle info))
              (client_CloseHandle (agfsHandle info)) (outside b)) as [[err|] w]; done.
Qed.

Lemma CloseAll_loop_alone hm w pl ft l lastErr :
  schedule (replicate (S (length l)) (EvStep (length pl)))
    {| table := hm; outside := w; pool := pl ++ [CloseAllClosing l lastErr];
       fetches := ft |} =
  {| table := hm; outside := (foldl closeAll_visit (lastErr, w) l).2;
     pool := pl ++ [CloseAllReturned (foldl closeAll_visit (lastErr, w) l).1];
     fetches := ft |}.
Proof.
  revert lastErr w. induction l as [|kv l IH]; intros lastErr w.
  - cbn [length replicate]. unfold schedule. cbn [foldl]. by rewrite fire_last.
  - cbn [length replicate]. unfold schedule. cbn [foldl]. rewrite fire_last.
    cbn [call_step].
    destruct (closeAll_visit (lastErr, w) kv) as [e' w'] eqn:Hv. cbn [fst snd].
    apply IH.
Qed.

Lemma CloseAll_alone (b : bridge) :
  schedule (EvCloseAll ::
            replicate (S (S (size (handles (table b))))) (EvStep (length (pool b)))) b =
  {| table := (CloseAll (table b) (outside b)).1.2;
     outside := (CloseAll (table b) (outside b)).2;
     pool := pool b ++ [CloseAllReturned (CloseAll (table b) (outside b)).1.1];
     fetches := fetches b |}.
Proof.
  rewrite <- length_map_to_list.
  change (schedule (EvCloseAll :: replicate
                      (S (S (length (map_to_list (handles (table b))))))
                      (EvStep (length (pool b)))) b)
    with (schedule (replicate (S (length (map_to_list (handles (table b)))))
                      (EvStep (length (pool b))))
            (fire (EvStep (length (pool b)))
               {| table := table b; outside := outside b;
                  pool := pool b ++ [CloseAllCalled]; fetches := fetches b |})).
  rewrite fire_last. cbn [call_step fst snd]. rewrite CloseAll_loop_alone.
  unfold CloseAll.
  by destruct (foldl closeAll_visit (None, outside b) (map_to_list (handles (table b)))).
Qed.

Lemma first_read_alone (b : bridge) fuseHandle info (d : slice) offset size :
  handles (table b) !! fuseHandle = Some info →
  htype info = handleTypeLocal → readBuffer info = None →
  (client_Read (path info) 0 (-1) (server (outside b))).1 = inl d →
  schedule (read_alone b fuseHandle offset size) b =
  {| table := store_buffer (table b) fuseHandle d;
     outside := {| server := (client_Read (path info) 0 (-1) (server (outside b))).2;
                   calls := calls (outside b) ++ [CallRead (path info) 0 (-1)] |};
     pool := pool b ++ [ReadReturned (portion d offset size)];
     fetches := fetches b ++ [fuseHandle] |}.
Proof.
  intros Hk Ht Hb Hr.
  rewrite schedule_read_alone, fire_last. cbn [call_step].
  rewrite Hk, Ht, Hb. cbn [fst snd].
  rewrite fire_last. cbn [call_step]. unfold through.
  destruct (client_Read (path info) 0 (-1) (server (outside b))) as [r sv].
  simpl in Hr. subst r. cbn [fst snd].
  by rewrite fire_last.
Qed.

(** No event unsettles a settled handle or fetches for it, as long as the
    id counter does not wrap around. *)
Lemma settled_fire fuseHandle data e (b : bridge) :
  settled fuseHandle data b →
  0 ≤ nextHandle (table b) < 2 ^ 64 - 1 →
  settled fuseHandle data (fire e b) ∧
  nextHandle (table b) ≤ nextHandle (table (fire e b)) ≤ nextHandle (table b) + 1 ∧
  filter (λ k, k = fuseHandle) (fetches (fire e b)) =
    filter (λ k, k = fuseHandle) (fetches b).
Proof.
  intros (Hbuf & Hpool & Hid) Hn.
  assert (∀ t, settled fuseHandle data (enter t b) ↔
               in_flight fuseHandle t = false) as Henter.
  { intros t. unfold settled, enter. simpl. rewrite Forall_app, Forall_singleton.
    split; [by intros (_ & [_ ?] & _)|by intros ?]. }
  destruct e as [p fl md|k o s|k| |i|f];
    try (split; [by apply Henter|split; [simpl; lia|done]]).
  2:{ split; [|split; [simpl; lia|done]]. done. }
  destruct (pool b !! i) as [t|] eqn:Hi; [|by unfold fire; rewrite Hi; split; [|split; [lia|]]].
  rewrite (fire_step b i t Hi).
  assert (in_flight fuseHandle t = false) as Ht.
  { rewrite Forall_lookup in Hpool. by apply (Hpool i). }
  assert (wrapU64 (nextHandle (table b) + 1) = nextHandle (table b) + 1) as Hw.
  { unfold wrapU64. apply Z.mod_small. lia. }
  unfold settled. simpl.
  destruct t as [p fl md|p fl md r|r|k o s|h o s|k o s p|k o s d|r|k|h|r| |rest lastErr|r];
    simpl in *.
  - (* OpenCalled *)
    unfold through. destruct (client_OpenHandle p fl md (server (outside b))) as [r sv].
    simpl. split; [|split; [lia|done]].
    split; [done|]. split; [|done]. by apply Forall_insert.
  - (* OpenInserting *)
    rewrite Hw.
    assert (nextHandle (table b) + 1 ≠ fuseHandle) as Hfresh by lia.
    destruct r as [h|err]; [|destruct (is_ErrNotSupported err)]; simpl;
      (split; [|split; [lia|done]]);
      (split; [|split; [by apply Forall_insert|lia]]);
      try (intros info; rewrite lookup_insert_ne by done; apply Hbuf);
      apply Hbuf.
  - split; [|split; [lia|done]]. split; [done|]. split; [|done].
    by apply Forall_insert.
  - (* ReadCalled *)
    destruct (handles (table b) !! k) as [info|] eqn:Hk; simpl.
    + destruct (htype info) eqn:Hty; simpl.
      * split; [|split; [lia|done]]. split; [done|]. split; [|done].
        by apply Forall_insert.
      * destruct (readBuffer info) as [buf|] eqn:Hrb; simpl.
        -- split; [|split; [lia|done]]. split; [done|]. split; [|done].
           by apply Forall_insert.
        -- split; [|split; [lia|done]]. split; [done|]. split; [|done].
           apply Forall_insert; [done|]. simpl. apply bool_decide_eq_false.
           intros ->. destruct (Hbuf info Hk) as [_ Hsome]. congruence.
    + split; [|split; [lia|done]]. split; [done|]. split; [|done].
      by apply Forall_insert.
  - (* ReadRemote *)
    unfold through.
    destruct (client_ReadHandle h o s (server (outside b))) as [[d|err] sv]; simpl;
      (split; [|split; [lia|done]]); (split; [done|]); (split; [|done]);
      by apply Forall_insert.
  - (* ReadFetching *)
    apply bool_decide_eq_false in Ht.
    unfold through.
    destruct (client_Read p 0 (-1) (server (outside b))) as [[d|err] sv]; simpl;
      (split; [|split; [lia|]]).
    + split; [done|]. split; [|done]. apply Forall_insert; [done|].
      simpl. by apply bool_decide_eq_false.
    + rewrite filter_app, filter_cons_False, filter_nil, app_nil_r by done. done.
    + split; [done|]. split; [|done]. by apply Forall_insert.
    + rewrite filter_app, filter_cons_False, filter_nil, app_nil_r by done. done.
  - (* ReadStoring *)
    apply bool_decide_eq_false in Ht.
    split; [|split; [rewrite store_buffer_nextHandle; lia|done]].
    split; [|split; [by apply Forall_insert|by rewrite store_buffer_nextHandle]].
    intros info. rewrite store_buffer_lookup.
    rewrite decide_False by congruence. apply Hbuf.
  - split; [|split; [lia|done]]. split; [done|]. split; [|done].
    by apply Forall_insert.
  - (* CloseCalled *)
    destruct (handles (table b) !! k) as [info|] eqn:Hk; simpl.
    + assert (∀ info', delete k (handles (table b)) !! fuseHandle = Some info' →
                       htype info' = handleTypeLocal ∧ readBuffer info' = Some data)
        as Hdel.
      { intros info' Hl. apply lookup_delete_Some in Hl as [_ Hl]. by apply Hbuf. }
      destruct (htype info); simpl;
        (split; [|split; [lia|done]]); (split; [done|]); (split; [|done]);
        by apply Forall_insert.
    + split; [|split; [lia|done]]. split; [done|]. split; [|done].
      by apply Forall_insert.
  - (* CloseRemote *)
    unfold through.
    destruct (client_CloseHandle h (server (outside b))) as [[err|] sv]; simpl;
      (split; [|split; [lia|done]]); (split; [done|]); (split; [|done]);
      by apply Forall_insert.
  - split; [|split; [lia|done]]. split; [done|]. split; [|done].
    by apply Forall_insert.
  - (* CloseAllCalled *)
    split; [|split; [lia|done]]. split; [|split; [by apply Forall_insert|done]].
    intros info. by rewrite lookup_empty.
  - (* CloseAllClosing *)
    destruct rest as [|kv rest]; simpl.
    + split; [|split; [lia|done]]. split; [done|]. split; [|done].
      by apply Forall_insert.
    + destruct (closeAll_visit (lastErr, outside b) kv) as [e' w'] eqn:Hv. simpl.
      split; [|split; [lia|done]]. split; [done|]. split; [|done].
      by apply Forall_insert.
  - split; [|split; [lia|done]]. split; [done|]. split; [|done].
    by apply Forall_insert.
Qed.

Lemma settled_schedule fuseHandle data es (b : bridge) :
  settled fuseHandle data b →
  0 ≤ nextHandle (table b) →
  nextHandle (table b) + Z.of_nat (length es) < 2 ^ 64 →
  settled fuseHandle data (schedule es b) ∧
  filter (λ k, k = fuseHandle) (fetches (schedule es b)) =
    filter (λ k, k = fuseHandle) (fetches b).
Proof.
  revert b. induction es as [|e es IH]; intros b Hs H0 Hn; [done|].
  simpl in Hn.
  destruct (settled_fire fuseHandle data e b Hs ltac:(lia)) as (Hs' & Hnext & Hf).
  change (schedule (e :: es) b) with (schedule es (fire e b)).
  destruct (IH (fire e b) Hs' ltac:(lia) ltac:(lia)) as [H1 H2].
  split; [done|]. by rewrite H2.
Qed.

(** The ids in the table are ids that have been handed out, in every
    state the calls can reach, however they overlap. *)
Lemma ids_in_range_fire e (b : bridge) :
  ids_in_range (table b) → nextHandle (table b) < 2 ^ 64 - 1 →
  ids_in_range (table (fire e b)).
Proof.
  intros [H1 Hk] Hn.
  destruct e as [p fl md|k o s|k| |i|f]; try done.
  destruct (pool b !! i) as [t|] eqn:Hi; [|by unfold fire; rewrite Hi].
  rewrite (fire_step b i t Hi). cbn [table].
  assert (wrapU64 (nextHandle (table b) + 1) = nextHandle (table b) + 1) as Hw.
  { unfold wrapU64. apply Z.mod_small. lia. }
  destruct t as [p fl md|p fl md r|r|k o s|h o s|k o s p|k o s d|r|k|h|r| |rest lastErr|r];
    cbn [call_step].
  - unfold through. by destruct (client_OpenHandle p fl md (server (outside b))).
  - rewrite Hw.
    assert (∀ info k,
              is_Some (<[nextHandle (table b) + 1 := info]> (handles (table b)) !! k) →
              2 ≤ k ≤ nextHandle (table b) + 1) as Hins.
    { intros info k. destruct (decide (k = nextHandle (table b) + 1)) as [->|Hne].
      - lia.
      - rewrite lookup_insert_ne by done. intros Hs. apply Hk in Hs. lia. }
    destruct r as [h|err]; [|destruct (is_ErrNotSupported err)];
      unfold ids_in_range; cbn; (split; [lia|]); try apply Hins.
    intros k Hs. apply Hk in Hs. lia.
  - done.
  - destruct (handles (table b) !! k) as [info|]; [|done].
    destruct (htype info); [done|]. by destruct (readBuffer info).
  - unfold through.
    by destruct (client_ReadHandle h o s (server (outside b))) as [[d|err] sv].
  - unfold through.
    by destruct (client_Read p 0 (-1) (server (outside b))) as [[d|err] sv].
  - unfold ids_in_range. cbn. rewrite store_buffer_nextHandle. split; [done|].
    intros k'. rewrite store_buffer_lookup.
    destruct (decide (k' = k)) as [->|Hne]; [|apply Hk].
    intros Hs. apply Hk. by apply fmap_is_Some in Hs.
  - done.
  - destruct (handles (table b) !! k) as [info|] eqn:Hl; [|done].
    assert (∀ k', is_Some (delete k (handles (table b)) !! k') →
                  2 ≤ k' ≤ nextHandle (table b)) as Hdel.
    { intros k' [x Hx]. apply lookup_delete_Some in Hx as [_ Hx]. apply Hk. eauto. }
    by destruct (htype info).
  - unfold through.
    by destruct (client_CloseHandle h (server (outside b))) as [[err|] sv].
  - done.
  - unfold ids_in_range. cbn. split; [done|].
    intros k. rewrite lookup_empty. by intros [x Hx].
  - destruct rest as [|kv rest]; [done|].
    by destruct (closeAll_visit (lastErr, outside b) kv).
  - done.
Qed.

Lemma nextHandle_fire e (b : bridge) :
  0 ≤ nextHandle (table b) < 2 ^ 64 - 1 →
  nextHandle (table b) ≤ nextHandle (table (fire e b)) ≤ nextHandle (table b) + 1.
Proof.
  intros Hn.
  destruct e as [p fl md|k o s|k| |i|f]; try (simpl; lia).
  destruct (pool b !! i) as [t|] eqn:Hi; [|unfold fire; rewrite Hi; lia].
  rewrite (fire_step b i t Hi). cbn [table].
  assert (wrapU64 (nextHandle (table b) + 1) = nextHandle (table b) + 1) as Hw.
  { unfold wrapU64. apply Z.mod_small. lia. }
  destruct t as [p fl md|p fl md r|r|k o s|h o s|k o s p|k o s d|r|k|h|r| |rest lastErr|r];
    cbn [call_step]; try (simpl; lia).
  - unfold through. destruct (client_OpenHandle p fl md (server (outside b))).
    simpl. lia.
  - rewrite Hw.
    destruct r as [h|err]; [|destruct (is_ErrNotSupported err)]; cbn; lia.
  - destruct (handles (table b) !! k) as [info|]; [|simpl; lia].
    destruct (htype info); [simpl; lia|]. destruct (readBuffer info); simpl; lia.
  - unfold through.
    destruct (client_ReadHandle h o s (server (outside b))) as [[d|err] sv]; simpl; lia.
  - unfold through.
    destruct (client_Read p 0 (-1) (server (outside b))) as [[d|err] sv]; simpl; lia.
  - cbn. rewrite store_buffer_nextHandle. lia.
  - destruct (handles (table b) !! k) as [info|]; [|simpl; lia].
    destruct (htype info); simpl; lia.
  - unfold through.
    destruct (client_CloseHandle h (server (outside b))) as [[err|] sv]; simpl; lia.
  - destruct rest as [|kv rest]; [simpl; lia|].
    destruct (closeAll_visit (lastErr, outside b) kv). simpl. lia.
Qed.

Lemma ids_in_range_schedule es (b : bridge) :
  ids_in_range (table b) →
  nextHandle (table b) + Z.of_nat (length es) < 2 ^ 64 →
  ids_in_range (table (schedule es b)).
Proof.
  revert b. induction es as [|e es IH]; intros b Hids Hn; [done|].
  simpl in Hn. change (schedule (e :: es) b) with (schedule es (fire e b)).
  pose proof (proj1 Hids) as H1.
  pose proof (nextHandle_fire e b ltac:(lia)) as Hnext.
  apply IH; [apply ids_in_range_fire; [done|lia]|lia].
Qed.

(** C7, as amended.  Take a read of a LOCAL handle that is about to
    store a payload that is not nil, at a moment when no other read of the
    handle is between finding the buffer unset and storing.  Its store
    makes the payload the handle's buffer and it returns the bytes
    [[o, min(o+s, len))].  From then on, whatever calls of [Open], [Read],
    [Close] and [CloseAll] follow and however they overlap, no client read
    is made for the handle again, its buffer stays that payload for as
    long as its record is there, every read of it is answered at its first
    lock from the buffer, with the bytes [[o, min(o+s, len))] and no client
    call, and fails with handle-not-found once the handle is closed; a
    [Close] of it removes the record.  How a read gets there, in any state
    at all: a read that finds the buffer unset goes on to make exactly one
    client call, [Read(path, 0, -1)], and then, at its second lock, stores
    what it fetched if the record is still there, whatever ran in between,
    and returns its bytes of that payload; once returned it does nothing
    more; and a read that nothing overlaps does all of this in one go.
    (The table is one whose ids have been handed out, and the 64-bit id
    counter does not wrap around during the calls considered.) *)
Theorem C7_local_read_buffer (b : bridge) i fuseHandle info data offset size es :
  let b1 := fire (EvStep i) b in
  let b2 := schedule es b1 in
  pool b !! i = Some (ReadStoring fuseHandle offset size (Some data)) →
  handles (table b) !! fuseHandle = Some info →
  htype info = handleTypeLocal →
  (∀ j t, pool b !! j = Some t → j ≠ i → in_flight fuseHandle t = false) →
  request offset size →
  ids_in_range (table b) →
  nextHandle (table b) + Z.of_nat (length es) < 2 ^ 64 →
  (pool b1 !! i = Some (ReadReturned (Ok (Some (byte_range data offset size)))) ∧
   outside b1 = outside b ∧ fetches b1 = fetches b ∧
   ∃ info', handles (table b1) !! fuseHandle = Some info' ∧
            htype info' = handleTypeLocal ∧ path info' = path info ∧
            readBuffer info' = Some data) ∧
  (filter (λ k, k = fuseHandle) (fetches b2) =
     filter (λ k, k = fuseHandle) (fetches b1) ∧
   (∀ info', handles (table b2) !! fuseHandle = Some info' →
             htype info' = handleTypeLocal ∧ readBuffer info' = Some data) ∧
   Forall (λ t, in_flight fuseHandle t = false) (pool b2)) ∧
  (∀ j o s,
     pool b2 !! j = Some (ReadCalled fuseHandle o s) → request o s →
     pool (fire (EvStep j) b2) !! j =
       Some (ReadReturned
               (match handles (table b2) !! fuseHandle with
                | Some _ => Ok (Some (byte_range data o s))
                | None => Err (ErrHandleNotFound fuseHandle)
                end)) ∧
     table (fire (EvStep j) b2) = table b2 ∧
     outside (fire (EvStep j) b2) = outside b2 ∧
     fetches (fire (EvStep j) b2) = fetches b2) ∧
  (∀ j,
     pool b2 !! j = Some (CloseCalled fuseHandle) →
     handles (table (fire (EvStep j) b2)) !! fuseHandle = None ∧
     outside (fire (EvStep j) b2) = outside b2) ∧
  (∀ (b' : bridge) j k o s info',
     pool b' !! j = Some (ReadCalled k o s) →
     handles (table b') !! k = Some info' →
     htype info' = handleTypeLocal → readBuffer info' = None →
     pool (fire (EvStep j) b') !! j = Some (ReadFetching k o s (path info')) ∧
     table (fire (EvStep j) b') = table b' ∧
     outside (fire (EvStep j) b') = outside b' ∧
     fetches (fire (EvStep j) b') = fetches b') ∧
  (∀ (b' : bridge) j k o s p,
     pool b' !! j = Some (ReadFetching k o s p) →
     calls (outside (fire (EvStep j) b')) = calls (outside b') ++ [CallRead p 0 (-1)] ∧
     fetches (fire (EvStep j) b') = fetches b' ++ [k] ∧
     table (fire (EvStep j) b') = table b' ∧
     pool (fire (EvStep j) b') !! j =
       Some (match (client_Read p 0 (-1) (server (outside b'))).1 with
             | inl d => ReadStoring k o s d
             | inr err => ReadReturned (Err (ErrWrap "failed to read file" err))
             end)) ∧
  (∀ (b' : bridge) j k o s (d : slice),
     pool b' !! j = Some (ReadStoring k o s d) →
     pool (fire (EvStep j) b') !! j = Some (ReadReturned (portion d o s)) ∧
     outside (fire (EvStep j) b') = outside b' ∧
     fetches (fire (EvStep j) b') = fetches b' ∧
     (∀ info', handles (table b') !! k = Some info' →
        ∃ info'', handles (table (fire (EvStep j) b')) !! k = Some info'' ∧
                  readBuffer info'' = d ∧ htype info'' = htype info' ∧
                  path info'' = path info') ∧
     (handles (table b') !! k = None → table (fire (EvStep j) b') = table b') ∧
     (∀ k', k' ≠ k →
        handles (table (fire (EvStep j) b')) !! k' = handles (table b') !! k')) ∧
  (∀ (b' : bridge) j r,
     pool b' !! j = Some (ReadReturned r) → fire (EvStep j) b' = b') ∧
  (∀ (b' : bridge) k o s info' (d : slice),
     handles (table b') !! k = Some info' →
     htype info' = handleTypeLocal → readBuffer info' = None →
     (client_Read (path info') 0 (-1) (server (outside b'))).1 = inl d →
     schedule (read_alone b' k o s) b' =
     {| table := store_buffer (table b') k d;
        outside := {| server := (client_Read (path info') 0 (-1)
                                   (server (outside b'))).2;
                      calls := calls (outside b') ++ [CallRead (path info') 0 (-1)] |};
        pool := pool b' ++ [ReadReturned (portion d o s)];
        fetches := fetches b' ++ [k] |}).
Proof.
  intros b1 b2 Hi Hk Ht Hpool Hreq Hids Hn.
  assert (0 ≤ nextHandle (table b)) as H0 by (destruct Hids; lia).
  assert (fuseHandle ≤ nextHandle (table b)) as Hid.
  { destruct Hids as [_ Hr']. destruct (Hr' fuseHandle); [by eexists|lia]. }
  assert (b1 = {| table := store_buffer (table b) fuseHandle (Some data);
                  outside := outside b;
                  pool := <[i := ReadReturned (portion (Some data) offset size)]> (pool b);
                  fetches := fetches b |}) as Hb1
    by (subst b1; by rewrite (fire_step b i _ Hi)).
  assert (handles (table b1) !! fuseHandle =
          Some {| htype := htype info; agfsHandle := agfsHandle info;
                  path := path info; flags := flags info; mode := mode info;
                  readBuffer := Some data |}) as Hk1.
  { rewrite Hb1. simpl. rewrite store_buffer_lookup, decide_True by done.
    by rewrite Hk. }
  assert (settled fuseHandle data b1) as Hs1.
  { split; [|split].
    - intros info'. rewrite Hk1. intros [= <-]. by simpl.
    - rewrite Hb1. simpl. apply Forall_lookup. intros j t Hj.
      destruct (decide (j = i)) as [->|Hne].
      + rewrite list_lookup_insert_eq in Hj by (by eapply lookup_lt_Some).
        by injection Hj as <-.
      + rewrite list_lookup_insert_ne in Hj by done. by eapply Hpool.
    - rewrite Hb1. simpl. by rewrite store_buffer_nextHandle. }
  assert (nextHandle (table b1) = nextHandle (table b)) as Hn1.
  { rewrite Hb1. simpl. apply store_buffer_nextHandle. }
  destruct (settled_schedule fuseHandle data es b1 Hs1 ltac:(lia) ltac:(lia))
    as [(Hbuf2 & Hpool2 & Hid2) Hf2].
  fold b2 in Hbuf2, Hpool2, Hid2, Hf2.
  split; [|split; [|split; [|split; [|split; [|split; [|split; [|split]]]]]]].
  - split; [|split; [|split]]; [|by rewrite Hb1|by rewrite Hb1|].
    + rewrite Hb1. simpl. rewrite portion_byte_range by done.
      apply list_lookup_insert_eq. by eapply lookup_lt_Some.
    + eexists. split; [exact Hk1|]. by simpl.
  - done.
  - intros j o s Hj Hreq'. rewrite (fire_step b2 j _ Hj). simpl.
    rewrite list_lookup_insert_eq by (by eapply lookup_lt_Some).
    destruct (handles (table b2) !! fuseHandle) as [info'|] eqn:Hk2; simpl; [|done].
    destruct (Hbuf2 info' eq_refl) as [-> ->]. simpl.
    by rewrite portion_byte_range.
  - intros j Hj. rewrite (fire_step b2 j _ Hj). simpl.
    destruct (handles (table b2) !! fuseHandle) as [info'|] eqn:Hk2; simpl; [|done].
    destruct (Hbuf2 info' eq_refl) as [-> _]. simpl.
    split; [apply lookup_delete_eq|done].
  - intros b' j k o s info' Hj Hk' Ht' Hb'.
    rewrite (fire_step b' j _ Hj). simpl. rewrite Hk', Ht', Hb'. simpl.
    split; [|done]. apply list_lookup_insert_eq. by eapply lookup_lt_Some.
  - intros b' j k o s p Hj. rewrite (fire_step b' j _ Hj). simpl.
    unfold through.
    destruct (client_Read p 0 (-1) (server (outside b'))) as [[d|err] sv]; simpl;
      (split; [done|]); (split; [done|]); (split; [done|]);
      apply list_lookup_insert_eq; by eapply lookup_lt_Some.
  - intros b' j k o s d Hj. rewrite (fire_step b' j _ Hj). simpl.
    split; [apply list_lookup_insert_eq; by eapply lookup_lt_Some|].
    split; [done|]. split; [done|]. split; [|split].
    + intros info' Hk'. rewrite store_buffer_lookup, decide_True by done.
      rewrite Hk'. simpl. eexists. split; [done|]. by simpl.
    + intros Hk'. unfold store_buffer. by rewrite Hk'.
    + intros k' Hne. by rewrite store_buffer_lookup, decide_False.
  - intros b' j r Hj. rewrite (fire_step b' j _ Hj). simpl.
    rewrite list_insert_id by done. by destruct b'.
  - intros b' k o s info' d. apply first_read_alone.
Qed.

(** When the fetch succeeds with the nil slice, nothing is buffered (the
    buffer being nil is how [Read] tells that no read has happened), and
    the next read fetches again. *)
Lemma Read_nil_payload hm fuseHandle info w offset size :
  handles hm !! fuseHandle = Some info →
  htype info = handleTypeLocal → readBuffer info = None →
  (client_Read (path info) 0 (-1) (server w)).1 = inl None →
  0 ≤ offset →
  (Read hm fuseHandle offset size w).1.1 = Ok (Some []) ∧
  ∃ info', handles (Read hm fuseHandle offset size w).1.2 !! fuseHandle = Some info' ∧
           readBuffer info' = None.
Proof.
  intros Hk Ht Hb Hr Ho. rewrite (Read_first _ _ _ _ _ _ _ Hk Ht Hb Hr). simpl.
  split; [by apply portion_past_end|].
  eexists. rewrite lookup_insert_eq. done.
Qed.

(** C8, as amended: a read through a LOCAL handle of the FUSE bridge at an
    offset at or past the end of the payload returns an empty, non-nil
    byte slice and no error, on the first read and on buffered reads;
    devfs does not: its [Read] of [/null] returns the nil slice with the
    error [io.EOF] at every offset, and not-found on any other path. *)
Theorem C8_read_past_eof :
  (∀ hm fuseHandle info w (d : slice) offset size,
     handles hm !! fuseHandle = Some info →
     htype info = handleTypeLocal → readBuffer info = None →
     (client_Read (path info) 0 (-1) (server w)).1 = inl d →
     len d ≤ offset →
     (Read hm fuseHandle offset size w).1.1 = Ok (Some [])) ∧
  (∀ hm fuseHandle info w data offset size,
     handles hm !! fuseHandle = Some info →
     htype info = handleTypeLocal → readBuffer info = Some data →
     len (Some data) ≤ offset →
     Read hm fuseHandle offset size w = (Ok (Some []), hm, w)) ∧
  (∀ offset size, devfs.Read "/null" offset size = (None, Some EOF)) ∧
  (∀ path offset size,
     path ≠ "/null" → devfs.Read path offset size = (None, Some ErrNotFound)).
Proof.
  split; [|split; [|split]].
  - intros hm fh info w d o s Hk Ht Hb Hr Ho.
    rewrite (Read_first _ _ _ _ _ _ _ Hk Ht Hb Hr). simpl.
    by apply portion_past_end.
  - intros hm fh info w data o s Hk Ht Hb Ho.
    rewrite (Read_buffered _ _ _ _ _ _ _ Hk Ht Hb).
    by rewrite portion_past_end.
  - done.
  - intros path o s Hne. unfold devfs.Read.
    destruct (String.eqb_spec path "/null"); [done|done].
Qed.

End BridgeFacts.

(** ** The bridge and devfs on examples *)

Section BridgeExamples.

Import mock fusefs.

(** The claim of C7 as it is worded, one plugin read for the handle
    however many reads follow the first, fails when a second read passes
    the first lock before the first read has stored its payload: both find
    the buffer unset, both call the client, and on a queue each takes a
    message of its own; the second store replaces the first. *)
Lemma C7_counterexample :
  let b := schedule overlapping_reads queue_bridge in
  fetches b = [2; 2] ∧
  calls (outside b) = [CallOpenHandle "/queue/dequeue" 0 420;
                       CallRead "/queue/dequeue" 0 (-1);
                       CallRead "/queue/dequeue" 0 (-1)] ∧
  server (outside b) = [] ∧
  pool b = [ReadReturned (Ok (Some (take 10 payload)));
            ReadReturned (Ok (Some bye))] ∧
  (readBuffer <$> handles (table b) !! 2) = Some (Some bye) ∧
  ¬ (∀ es, (length (filter (λ k : Z, k = 2%Z)
                      (fetches (schedule es queue_bridge))) ≤ 1)%nat).
Proof.
  intros b.
  assert (fetches b = [2; 2]) as Hf by (vm_compute; reflexivity).
  split; [exact Hf|]. split; [vm_compute; reflexivity|].
  split; [vm_compute; reflexivity|]. split; [vm_compute; reflexivity|].
  split; [vm_compute; reflexivity|].
  intros Hall. specialize (Hall overlapping_reads). fold b in Hall.
  rewrite Hf in Hall. vm_compute in Hall. lia.
Qed.

Lemma C7_local_read_buffer_witness :
  let b := schedule [EvRead 2 0 10; EvStep 0; EvStep 0] queue_bridge in
  let b1 := fire (EvStep 0) b in
  let b2 := schedule [EvRead 2 10 10; EvRead 2 0 4; EvStep 2; EvOpen "/other" 0 420] b1 in
  pool b = [ReadStoring 2 0 10 (Some payload)] ∧
  calls (outside b) = [CallOpenHandle "/queue/dequeue" 0 420;
                       CallRead "/queue/dequeue" 0 (-1)] ∧
  pool b1 !! 0%nat = Some (ReadReturned (Ok (Some (take 10 payload)))) ∧
  filter (λ k, k = 2) (fetches b2) = [2] ∧
  pool (fire (EvStep 1) b2) !! 1%nat = Some (ReadReturned (Ok (Some (drop 10 payload)))) ∧
  outside (fire (EvStep 1) b2) = outside b ∧
  server (outside b) = [bye].
Proof.
  intros b b1 b2.
  assert (pool b = [ReadStoring 2 0 10 (Some payload)]) as Hp
    by (vm_compute; reflexivity).
  assert (handles (table b) !! 2 =
          Some {| htype := handleTypeLocal; agfsHandle := 0;
                  path := "/queue/dequeue"; flags := 0; mode := 420;
                  readBuffer := None |}) as Hk by (vm_compute; reflexivity).
  assert (request 0 10) as Hreq by (unfold request; lia).
  assert (ids_in_range (table b)) as Hids.
  { change (table b) with (table queue_bridge).
    split; [vm_compute; discriminate|]. intros k [x Hx].
    change (handles (table queue_bridge)) with
      (<[2 := {| htype := handleTypeLocal; agfsHandle := 0;
                 path := "/queue/dequeue"; flags := 0; mode := 420;
                 readBuffer := None |}]> (∅ : gmap Z handleInfo)) in Hx.
    apply lookup_insert_Some in Hx as [[<- _]|[_ Hx]]; [|by rewrite lookup_empty in Hx].
    change (nextHandle (table queue_bridge)) with 2. lia. }
  assert (∀ j t, pool b !! j = Some t → j ≠ 0%nat → in_flight 2 t = false) as Hothers.
  { intros j t Hj Hne. rewrite Hp in Hj. destruct j as [|j]; [done|].
    by rewrite lookup_cons, lookup_nil in Hj. }
  destruct (C7_local_read_buffer b 0 2 _ payload 0 10
              [EvRead 2 10 10; EvRead 2 0 4; EvStep 2; EvOpen "/other" 0 420]
              ltac:(by rewrite Hp) Hk eq_refl Hothers Hreq Hids
              ltac:(vm_compute; reflexivity))
    as ((Hp1 & Ho1 & Hf1 & _) & (Hf2 & _ & _) & Hread & _).
  fold b1 in Hp1, Ho1, Hf1, Hf2, Hread. fold b2 in Hf2, Hread.
  split; [exact Hp|]. split; [vm_compute; reflexivity|]. split; [exact Hp1|]. split.
  { rewrite Hf2, Hf1. vm_compute. reflexivity. }
  assert (pool b2 !! 1%nat = Some (ReadCalled 2 10 10)) as Hi by (vm_compute; reflexivity).
  assert (request 10 10) as Hreq' by (unfold request; lia).
  destruct (Hread 1%nat 10 10 Hi Hreq') as (Hres & _ & Hout & _).
  assert (handles (table b2) !! 2 ≠ None) as Hopen by (vm_compute; discriminate).
  split; [|split].
  - rewrite Hres. destruct (handles (table b2) !! 2); [reflexivity|done].
  - rewrite Hout. vm_compute. reflexivity.
  - vm_compute. reflexivity.
Defined.

(** The claim of C8 as it is worded fails on devfs: [/null] has size 0, so
    offset 0 is at its end, and [Read] returns an error there. *)
Lemma C8_counterexample :
  ¬ (∀ path offset size now info,
       (devfs.Stat path now).1 = Some info → devfs.Size info ≤ offset →
       devfs.Read path offset size = (Some [], None)).
Proof.
  intros Hall.
  specialize (Hall "/null" 0 1024 0 _ eq_refl ltac:(simpl; lia)).
  discriminate Hall.
Qed.

Lemma C8_read_past_eof_witness :
  let s := Open NewHandleManager "/queue/dequeue" 0 420 fuse_world0 in
  (Read s.1.2 2 12 10 s.2).1.1 = Ok (Some []) ∧
  devfs.Read "/missing" 0 1024 = (None, Some ErrNotFound).
Proof.
  intros s.
  destruct (C8_read_past_eof (ClientWorld := nat)) as (Hfirst & _ & _ & Hdev).
  split.
  - assert (handles s.1.2 !! 2 =
            Some {| htype := handleTypeLocal; agfsHandle := 0;
                    path := "/queue/dequeue"; flags := 0; mode := 420;
                    readBuffer := None |}) as Hk by (vm_compute; reflexivity).
    assert ((client_Read "/queue/dequeue" 0 (-1) (server s.2)).1 = inl (Some payload))
      as Hr by reflexivity.
    apply (Hfirst s.1.2 2 _ s.2 (Some payload) 12 10 Hk eq_refl eq_refl Hr).
    simpl. lia.
  - apply Hdev. discriminate.
Defined.

End BridgeExamples.

(** * Properties of the vectorfs index queue *)

Section IndexQueueFacts.

Import vectorfs.

Implicit Types (v : VectorFSPlugin) (t task : indexTask).

Lemma marker_add v ns d f now :
  marker (addIndexingTask v ns d f now) ns d = Some {| FileName := f; StartTime := now |}.
Proof.
  unfold marker, addIndexingTask. simpl. rewrite lookup_insert_eq. simpl.
  apply lookup_insert_eq.
Qed.

Lemma marker_remove v ns d : marker (removeIndexingTask v ns d) ns d = None.
Proof.
  unfold marker, removeIndexingTask.
  destruct (indexingStatus v !! ns) as [tasks|] eqn:Hns.
  - case_decide; simpl.
    + by rewrite lookup_delete_eq.
    + rewrite lookup_insert_eq. simpl. apply lookup_delete_eq.
  - by rewrite Hns.
Qed.

Lemma marker_remove_other v ns d ns' d' :
  (ns', d') ≠ (ns, d) →
  marker (removeIndexingTask v ns d) ns' d' = marker v ns' d'.
Proof.
  intros Hne. unfold marker, removeIndexingTask.
  destruct (indexingStatus v !! ns) as [tasks|] eqn:Hns; [|done].
  destruct (decide (ns' = ns)) as [->|Hn].
  - assert (d' ≠ d) as Hd by congruence. rewrite Hns. simpl.
    case_decide as Hsz; simpl.
    + rewrite lookup_delete_eq. simpl.
      apply map_size_empty_iff in Hsz.
      rewrite <- (lookup_delete_ne tasks d d') by done.
      by rewrite Hsz, lookup_empty.
    + rewrite lookup_insert_eq. simpl. by rewrite lookup_delete_ne.
  - case_decide; simpl.
    + by rewrite lookup_delete_ne.
    + by rewrite lookup_insert_ne.
Qed.

Lemma removeIndexingTask_queue v ns d :
  indexQueue (removeIndexingTask v ns d) = indexQueue v ∧
  supervisors (removeIndexingTask v ns d) = supervisors v.
Proof.
  unfold removeIndexingTask. destruct (indexingStatus v !! ns); [|done].
  by case_decide.
Qed.

(** The cases of the supervisor's [select] that can go ahead while
    [indexQueue] is open: the send when there is room, the receive from
    [shutdown] when it has been closed. *)
Lemma supervisor_select v i t r :
  supervisors v !! i = Some t → queueClosed v = false →
  supervisor_step i v r ↔
    (has_room v = true ∧ r = Ok (supervisor_queued v i t)) ∨
    (shutdown v = true ∧ r = Ok (supervisor_dropped v i t)).
Proof.
  intros Hi Hopen. split.
  - intros Hstep. destruct Hstep as [t' Hi' _ Hroom|t' Hi' Hdown|t' Hi' Hclosed].
    + left. split; [done|]. congruence.
    + right. split; [done|]. congruence.
    + congruence.
  - intros [[Hroom ->]|[Hdown ->]].
    + by apply sup_queue_space.
    + by apply sup_shutdown.
Qed.

(** C9, as amended.  Producer: when the queue is full (and open), [Write]
    marks the task in flight, leaves the queue as it is, starts one
    supervisor for the task and returns the byte count.  Supervisor, while
    [indexQueue] is open: it has a step exactly when there is room in the
    queue or shutdown has been signalled, so it waits while the queue is
    full and shutdown is not signalled; with room only, its one step
    appends the task to the queue and leaves every marker as it is; with
    the shutdown signal only, its one step removes the task's marker, and
    no other, and leaves the queue as it is; with both, either step can be
    taken.  Worker: having taken a task, it removes the task's marker
    whatever [IndexChunks] returned, and no other marker. *)
Theorem C9_index_queue :
  (∀ v task size now,
     queueClosed v = false → has_room v = false →
     (Write_phase2 v task size now).1 = Ok size ∧
     indexQueue (Write_phase2 v task size now).2 = indexQueue v ∧
     supervisors (Write_phase2 v task size now).2 = supervisors v ++ [task] ∧
     is_Some (marker (Write_phase2 v task size now).2 (namespace task) (digest task))) ∧
  (∀ v i t r,
     supervisors v !! i = Some t → queueClosed v = false →
     supervisor_step i v r ↔
       (has_room v = true ∧ r = Ok (supervisor_queued v i t)) ∨
       (shutdown v = true ∧ r = Ok (supervisor_dropped v i t))) ∧
  (∀ v i r,
     queueClosed v = false → has_room v = false → shutdown v = false →
     ¬ supervisor_step i v r) ∧
  (∀ v i t,
     supervisors v !! i = Some t →
     queueClosed v = false → has_room v = true → shutdown v = false →
     supervisor_step i v (Ok (supervisor_queued v i t)) ∧
     (∀ r, supervisor_step i v r → r = Ok (supervisor_queued v i t))) ∧
  (∀ v i t,
     supervisors v !! i = Some t →
     queueClosed v = false → has_room v = false → shutdown v = true →
     supervisor_step i v (Ok (supervisor_dropped v i t)) ∧
     (∀ r, supervisor_step i v r → r = Ok (supervisor_dropped v i t))) ∧
  (∀ v i t,
     supervisors v !! i = Some t →
     queueClosed v = false → has_room v = true → shutdown v = true →
     supervisor_step i v (Ok (supervisor_queued v i t)) ∧
     supervisor_step i v (Ok (supervisor_dropped v i t))) ∧
  (∀ v i t,
     indexQueue (supervisor_queued v i t) = indexQueue v ++ [t] ∧
     indexingStatus (supervisor_queued v i t) = indexingStatus v ∧
     supervisors (supervisor_queued v i t) = delete i (supervisors v) ∧
     (has_room v = true → within_capacity (supervisor_queued v i t))) ∧
  (∀ v i t,
     marker (supervisor_dropped v i t) (namespace t) (digest t) = None ∧
     indexQueue (supervisor_dropped v i t) = indexQueue v ∧
     supervisors (supervisor_dropped v i t) = delete i (supervisors v) ∧
     ∀ ns d, (ns, d) ≠ (namespace t, digest t) →
             marker (supervisor_dropped v i t) ns d = marker v ns d) ∧
  (∀ v t q err,
     indexQueue v = t :: q →
     worker_step v (Some (worker_process (with_queue v q) t err)) ∧
     indexQueue (worker_process (with_queue v q) t err) = q ∧
     marker (worker_process (with_queue v q) t err) (namespace t) (digest t) = None ∧
     ∀ ns d, (ns, d) ≠ (namespace t, digest t) →
             marker (worker_process (with_queue v q) t err) ns d = marker v ns d).
Proof.
  split; [|split; [|split; [|split; [|split; [|split; [|split; [|split]]]]]]].
  - intros v task size now Hopen Hfull. unfold Write_phase2.
    assert (queueClosed (addIndexingTask v (namespace task) (digest task)
                           (fileName task) now) = false) as -> by done.
    assert (has_room (addIndexingTask v (namespace task) (digest task)
                        (fileName task) now) = false) as -> by done.
    simpl. split; [done|]. split; [done|]. split; [done|].
    change (is_Some (marker (addIndexingTask v (namespace task) (digest task)
                               (fileName task) now) (namespace task) (digest task))).
    rewrite marker_add. by eexists.
  - apply supervisor_select.
  - intros v i r Hopen Hfull Hrun Hstep.
    destruct Hstep; congruence.
  - intros v i t Hi Hopen Hroom Hrun. split; [by apply sup_queue_space|].
    intros r Hstep. apply (supervisor_select v i t r Hi Hopen) in Hstep.
    destruct Hstep as [[_ ->]|[Hdown _]]; [done|congruence].
  - intros v i t Hi Hopen Hfull Hdown. split; [by apply sup_shutdown|].
    intros r Hstep. apply (supervisor_select v i t r Hi Hopen) in Hstep.
    destruct Hstep as [[Hroom _]|[_ ->]]; [congruence|done].
  - intros v i t Hi Hopen Hroom Hdown.
    split; [by apply sup_queue_space|by apply sup_shutdown].
  - intros v i t. unfold supervisor_queued. simpl.
    split; [done|]. split; [done|]. split; [done|].
    intros Hroom. unfold within_capacity, has_room in *. simpl.
    apply bool_decide_eq_true in Hroom. rewrite length_app. simpl. lia.
  - intros v i t. unfold supervisor_dropped. simpl.
    split; [apply marker_remove|].
    split; [apply removeIndexingTask_queue|]. split; [done|].
    intros ns d Hne.
    change (marker (removeIndexingTask v (namespace t) (digest t)) ns d = marker v ns d).
    by apply marker_remove_other.
  - intros v t q err Hq. split; [by apply worker_task|].
    unfold worker_process.
    split; [apply (removeIndexingTask_queue (with_queue v q))|].
    split; [apply marker_remove|].
    intros ns d Hne. by rewrite marker_remove_other.
Qed.

(** The claim of C9 as it is worded, that on shutdown the supervisor
    removes the task instead of enqueuing it, fails when the queue has room
    at the time the signal is there: [Shutdown] closes [shutdown] first and
    [indexQueue] after it, and a worker that takes a task in between makes
    room; both cases of the supervisor's [select] can then go ahead, and
    the send puts the task in the queue with its marker left in place. *)
Lemma C9_counterexample :
  let v0 := (Write_phase2 (Write_phase2 (initialized 1) mock.task1 0 0).2
                          mock.task2 0 0).2 in
  let v := worker_process (with_queue (close_shutdown v0) []) mock.task1 None in
  plugin_steps (initialized 1) v ∧
  shutdown v = true ∧ supervisors v !! 0%nat = Some mock.task2 ∧
  supervisor_step 0 v (Ok (supervisor_queued v 0 mock.task2)) ∧
  indexQueue (supervisor_queued v 0 mock.task2) = [mock.task2] ∧
  is_Some (marker (supervisor_queued v 0 mock.task2) "test" "digest2") ∧
  ¬ (∀ v i t r,
       plugin_steps (initialized 1) v →
       supervisors v !! i = Some t → shutdown v = true →
       supervisor_step i v r → r = Ok (supervisor_dropped v i t)).
Proof.
  intros v0 v.
  assert (plugin_steps (initialized 1) v) as Hreach.
  { eapply steps_snoc; [eapply steps_snoc; [eapply steps_snoc;
      [eapply steps_snoc; [apply steps_refl|]|]|]|].
    - by apply (step_write (initialized 1) mock.task1 0 0 0).
    - by apply (step_write _ mock.task2 0 0 0).
    - apply step_close_shutdown.
    - apply step_worker. by apply (worker_task _ mock.task1 [] None). }
  assert (supervisor_step 0 v (Ok (supervisor_queued v 0 mock.task2))) as Hstep
    by (by apply sup_queue_space).
  split; [exact Hreach|]. split; [reflexivity|]. split; [reflexivity|].
  split; [exact Hstep|]. split; [reflexivity|].
  split; [by vm_compute; eexists|].
  intros Hall.
  specialize (Hall v 0%nat mock.task2 _ Hreach eq_refl eq_refl Hstep).
  apply (f_equal (λ r, match r with Ok v' => indexQueue v' | _ => [] end)) in Hall.
  vm_compute in Hall. discriminate Hall.
Qed.

Lemma C9_index_queue_witness :
  let r := Write_phase2 mock.full_queue mock.task2 5 0 in
  r.1 = Ok 5 ∧ indexQueue r.2 = [mock.task1] ∧ supervisors r.2 = [mock.task2] ∧
  (∀ o, ¬ supervisor_step 0 r.2 o) ∧
  (∀ o, supervisor_step 0 (close_shutdown r.2) o →
        o = Ok (supervisor_dropped (close_shutdown r.2) 0 mock.task2)) ∧
  marker (supervisor_dropped (close_shutdown r.2) 0 mock.task2) "test" "digest2" = None ∧
  (∀ o, supervisor_step 0 (with_queue r.2 []) o →
        o = Ok (supervisor_queued (with_queue r.2 []) 0 mock.task2)) ∧
  indexQueue (supervisor_queued (with_queue r.2 []) 0 mock.task2) = [mock.task2] ∧
  marker (worker_process (with_queue r.2 []) mock.task1 (Some EOF)) "test" "digest1" = None.
Proof.
  intros r.
  destruct C9_index_queue
    as (Hw & _ & Hwait & Hspace & Hdown & _ & Hqueued & Hdrop & Hworker).
  destruct (Hw mock.full_queue mock.task2 5 0 eq_refl eq_refl) as (H1 & H2 & H3 & _).
  split; [exact H1|]. split; [exact H2|]. split; [exact H3|]. split.
  { intros o. exact (Hwait r.2 0%nat o eq_refl eq_refl eq_refl). }
  split.
  { exact (proj2 (Hdown (close_shutdown r.2) 0%nat mock.task2
                    eq_refl eq_refl eq_refl eq_refl)). }
  split.
  { exact (proj1 (Hdrop (close_shutdown r.2) 0%nat mock.task2)). }
  split.
  { exact (proj2 (Hspace (with_queue r.2 []) 0%nat mock.task2
                    eq_refl eq_refl eq_refl eq_refl)). }
  split.
  { exact (proj1 (Hqueued (with_queue r.2 []) 0%nat mock.task2)). }
  exact (proj1 (proj2 (proj2 (Hworker r.2 mock.task1 [] (Some EOF) eq_refl)))).
Defined.

End IndexQueueFacts.

(** * Further properties of the server-side handle manager *)

Section HandleManagerMore.

Import filesystem.

Context {FileHandle PluginWorld : Type} `{!FileHandleAPI FileHandle PluginWorld}.

Implicit Types (hm : HandleManager (FileHandle := FileHandle)).
Implicit Types (w : World (FileHandle := FileHandle) (PluginWorld := PluginWorld)).
Implicit Types (mh : ManagedHandle (FileHandle := FileHandle)).
Implicit Types (s : HandleManager (FileHandle := FileHandle) *
                    World (FileHandle := FileHandle) (PluginWorld := PluginWorld)).

Lemma filter_all {A} (P : A → Prop) `{!∀ x, Decision (P x)} (l : list A) :
  (∀ x, P x) → filter P l = l.
Proof.
  intros HP. induction l as [|x l IH]; [done|].
  rewrite filter_cons, decide_True by done. by rewrite IH.
Qed.

(** X1: [Stop] empties the table and invokes the plugin [Close] exactly
    once on every handle that was in it, whatever those calls return. *)
Theorem X1_Stop_closes_every_handle hm w :
  handles (Stop hm w).1 = ∅ ∧
  Count (Stop hm w).1 = 0 ∧
  (∀ id, closes_of id (Stop hm w).2 =
         (closes_of id w + match handles hm !! id with Some _ => 1 | None => 0 end)%nat) ∧
  ∃ closed, close_calls (Stop hm w).2 = close_calls w ++ closed ∧
            length closed = size (handles hm) ∧
            ∀ id h, (id, h) ∈ closed ↔
                    ∃ mh, handles hm !! id = Some mh ∧ h = Handle mh.
Proof.
  assert (handles (Stop hm w).1 = ∅) as Hempty.
  { apply map_eq. intros id. by rewrite Stop_lookup, lookup_empty. }
  split; [done|]. split; [unfold Count; by rewrite Hempty, map_size_empty|].
  split; [apply Stop_closes_of|].
  exists (reaped (λ _, true) (map_to_list (handles hm))).
  split; [rewrite Stop_sweep; apply sweep_calls|]. split.
  - unfold reaped. rewrite length_fmap.
    rewrite filter_all by done.
    apply length_map_to_list.
  - intros id h. rewrite reaped_elem. split.
    + intros (mh & Hk & _ & Hh). eauto.
    + intros (mh & Hk & Hh). eauto.
Qed.

(** ** The table never outgrows [MaxHandles] *)

Lemma point_effect_size id s s' :
  point_effect id s s' → (size (handles s'.1) ≤ size (handles s.1))%nat.
Proof.
  intros [Hk ->|mh0 Hk Hh Hw|mh0 mh1 Hk Hh HH Hw]; [done|..]; rewrite Hh.
  - rewrite map_size_delete, Hk. simpl. lia.
  - by rewrite map_size_insert, Hk.
Qed.

Lemma sweep_size (P : ManagedHandle → bool) hm w :
  (size (handles (foldl (sweep_visit P) (hm, w) (map_to_list (handles hm))).1)
   ≤ size (handles hm))%nat.
Proof.
  apply map_subseteq_size, map_subseteq_spec. intros id mh.
  rewrite sweep_lookup. destruct (handles hm !! id) as [mh'|]; [|done].
  by destruct (P mh').
Qed.

Lemma step_Get_effect now id s : point_effect id s (step now (OpGet id) s).
Proof. rewrite step_Get. destruct s. apply Get_effect. Qed.

Lemma step_Renew_effect now id lease s :
  point_effect id s (step now (OpRenew id lease) s).
Proof. rewrite step_Renew. destruct s. apply Renew_effect. Qed.

Lemma step_Close_effect now id s : point_effect id s (step now (OpClose id) s).
Proof. rewrite step_Close. destruct s. apply Close_effect. Qed.

Lemma step_capacity now (o : op) s :
  Z.of_nat (size (handles s.1)) ≤ Z.max 0 (MaxHandles (config s.1)) →
  Z.of_nat (size (handles (step now o s).1)) ≤
    Z.max 0 (MaxHandles (config (step now o s).1)).
Proof.
  rewrite step_config. intros Hinv.
  destruct o as [h' p f l id'|id'|id'|id' l|id'| | | |]; try done.
  - simpl. unfold Register.
    destruct (Z.geb_spec (Z.of_nat (size (handles s.1))) (MaxHandles (config s.1)));
      [done|]. simpl.
    pose proof (map_size_insert id'
      {| Handle := h'; Path := p; Flags := f;
         LeaseTime := register_lease (config s.1) l;
         ExpiresAt := now + register_lease (config s.1) l;
         CreatedAt := now; LastAccess := now |} (handles s.1)) as Hsz.
    rewrite Hsz. destruct (handles s.1 !! id'); unfold id; lia.
  - pose proof (point_effect_size id' s _ (step_Get_effect now id' s)). lia.
  - pose proof (point_effect_size id' s _ (step_Renew_effect now id' l s)). lia.
  - pose proof (point_effect_size id' s _ (step_Close_effect now id' s)). lia.
  - destruct s as [hm w]. simpl. rewrite cleanup_sweep.
    pose proof (sweep_size (expired now) hm w). simpl in *. lia.
  - destruct s as [hm w]. simpl. rewrite Stop_sweep.
    pose proof (sweep_size (λ _, true) hm w). simpl in *. lia.
Qed.

(** X2: along every sequence of operations on a new manager the number of
    records stays within [MaxHandles] (and the table stays empty when
    [MaxHandles] is negative). *)
Theorem X2_Count_within_MaxHandles cfg tr w :
  Count (run tr (NewHandleManager cfg, w)).1 ≤
    Z.max 0 (MaxHandles (config (run tr (NewHandleManager cfg, w)).1)).
Proof.
  unfold Count.
  assert (∀ s, Z.of_nat (size (handles s.1)) ≤ Z.max 0 (MaxHandles (config s.1)) →
               Z.of_nat (size (handles (run tr s).1)) ≤
                 Z.max 0 (MaxHandles (config (run tr s).1))) as Hrun.
  { induction tr as [|[now o] tr IH]; intros s Hs; [done|].
    rewrite run_cons. apply IH. by apply step_capacity. }
  apply Hrun. simpl. rewrite map_size_empty. lia.
Qed.

(** ** Leases are positive *)

Lemma step_lease_positive now (o : op) s :
  0 < DefaultLease (config s.1) → 0 < MaxLease (config s.1) →
  (∀ id mh, handles s.1 !! id = Some mh → lease_positive mh) →
  ∀ id mh, handles (step now o s).1 !! id = Some mh → lease_positive mh.
Proof.
  intros Hd Hm Hinv id mh.
  destruct o as [h p f l id'|id'|id'|id' l|id'| | | |]; try apply Hinv.
  - simpl. unfold Register. case_match; simpl; [apply Hinv|].
    destruct (decide (id' = id)) as [->|Hne].
    + rewrite lookup_insert_eq. intros [= <-]. split; simpl; [|done].
      unfold register_lease, cap_lease.
      repeat case_match; rewrite ?Z.leb_le, ?Z.leb_gt, ?Z.gtb_ltb, ?Z.ltb_lt,
        ?Z.ltb_ge in *; lia.
    + rewrite lookup_insert_ne by done. apply Hinv.
  - simpl. unfold Get. destruct (handles s.1 !! id') as [mh'|] eqn:Hk; simpl;
      [|apply Hinv].
    destruct (After now (ExpiresAt mh')).
    + destruct (call_Close id' (Handle mh') s.2). simpl.
      intros Hl. apply lookup_delete_Some in Hl as [_ Hl]. by apply Hinv in Hl.
    + simpl. destruct (decide (id' = id)) as [->|Hne].
      * rewrite lookup_insert_eq. intros [= <-]. split; simpl; [|done].
        by apply (Hinv id mh').
      * rewrite lookup_insert_ne by done. apply Hinv.
  - simpl. unfold Renew. destruct (handles s.1 !! id') as [mh'|] eqn:Hk; simpl;
      [|apply Hinv].
    destruct (After now (ExpiresAt mh')).
    + destruct (call_Close id' (Handle mh') s.2). simpl.
      intros Hl. apply lookup_delete_Some in Hl as [_ Hl]. by apply Hinv in Hl.
    + simpl. destruct (decide (id' = id)) as [->|Hne].
      * rewrite lookup_insert_eq. intros [= <-]. split; simpl; [|done].
        destruct (Hinv id mh' Hk) as [Hpos _].
        unfold renew_lease, cap_lease.
        repeat case_match; rewrite ?Z.leb_le, ?Z.leb_gt, ?Z.gtb_ltb, ?Z.ltb_lt,
          ?Z.ltb_ge in *; lia.
      * rewrite lookup_insert_ne by done. apply Hinv.
  - intros Hl. eapply (Hinv id).
    pose proof (point_effect_stays_absent id' s _ id (step_Close_effect now id' s)).
    destruct (step_Close_effect now id' s) as [Hk Heq|mh0 Hk Hh Hw|mh0 mh1 Hk Hh HH Hw].
    + by rewrite Heq in Hl.
    + rewrite Hh in Hl. by apply lookup_delete_Some in Hl as [_ Hl].
    + exfalso. revert Hh. rewrite step_Close. unfold Close. rewrite Hk.
      destruct (call_Close id' (Handle mh0) s.2). simpl. intros Hh.
      assert (delete id' (handles s.1) !! id' = <[id':=mh1]> (handles s.1) !! id')
        as Hx by (by rewrite Hh).
      by rewrite lookup_delete_eq, lookup_insert_eq in Hx.
  - simpl. rewrite cleanup_lookup. destruct (handles s.1 !! id) as [mh'|] eqn:Hk;
      [|done].
    destruct (After now (ExpiresAt mh')); [done|]. intros [= <-]. by apply (Hinv id).
  - simpl. by rewrite Stop_lookup.
Qed.

(** X3: when the configured default and maximum leases are not negative
    (zero selecting the built-in defaults), every record of every reachable
    table has a lease of at least one nanosecond and expires strictly
    after its last access. *)
Theorem X3_leases_are_positive cfg tr w id mh :
  0 ≤ DefaultLease cfg → 0 ≤ MaxLease cfg →
  handles (run tr (NewHandleManager cfg, w)).1 !! id = Some mh →
  0 < LeaseTime mh ∧ LastAccess mh < ExpiresAt mh.
Proof.
  intros Hd Hm Hk.
  assert (∀ s, 0 < DefaultLease (config s.1) → 0 < MaxLease (config s.1) →
               (∀ id mh, handles s.1 !! id = Some mh → lease_positive mh) →
               ∀ id mh, handles (run tr s).1 !! id = Some mh → lease_positive mh)
    as Hrun.
  { clear Hk. induction tr as [|[now o] tr IH]; intros s H1 H2 Hs; [done|].
    rewrite run_cons. apply IH; rewrite ?step_config; try done.
    by apply step_lease_positive. }
  destruct (Hrun (NewHandleManager cfg, w)) with (id := id) (mh := mh)
    as [Hpos Heq]; try done.
  - simpl. unfold Second. case_match; rewrite ?Z.eqb_eq, ?Z.eqb_neq in *; lia.
  - simpl. unfold Minute, Second. case_match; rewrite ?Z.eqb_eq, ?Z.eqb_neq in *; lia.
  - split; [done|lia].
Qed.

(** X4: [GetInfo] answers as [Get] would at the same instant, without the
    side effects: it returns the stored record, unrefreshed, exactly when
    [Get] returns that record's handle, and not-found exactly when [Get]
    returns not-found. *)
Theorem X4_GetInfo_agrees_with_Get hm id now w :
  match GetInfo hm id now with
  | inl mh => handles hm !! id = Some mh ∧
              (Get hm id now w).1.1 = inl (Handle mh) ∧
              (Get hm id now w).2 = w
  | inr e => e = ErrNotFound ∧ (Get hm id now w).1.1 = inr ErrNotFound
  end.
Proof.
  unfold GetInfo. destruct (handles hm !! id) as [mh|] eqn:Hk.
  - destruct (After now (ExpiresAt mh)) eqn:He.
    + by rewrite (Get_expired _ _ _ _ _ Hk He).
    + by rewrite (Get_live _ _ _ _ _ Hk He).
  - by rewrite (Get_absent _ _ _ _ Hk).
Qed.

Lemma point_effect_frame id s s' id' :
  point_effect id s s' → id' ≠ id →
  handles s'.1 !! id' = handles s.1 !! id' ∧ closes_of id' s'.2 = closes_of id' s.2.
Proof.
  intros [Hk ->|mh0 Hk Hh Hw|mh0 mh1 Hk Hh HH Hw] Hne; [done|..]; rewrite Hh, Hw.
  - rewrite lookup_delete_ne by done. rewrite closes_of_call_Close.
    rewrite decide_False by done. split; [done|lia].
  - by rewrite lookup_insert_ne.
Qed.

(** X5: [Get], [Renew] and [Close] on one id leave the record of every
    other id as it was and invoke no plugin [Close] for any other id. *)
Theorem X5_other_ids_untouched now (o : op) id s id' :
  o = OpGet id ∨ (∃ lease, o = OpRenew id lease) ∨ o = OpClose id →
  id' ≠ id →
  handles (step now o s).1 !! id' = handles s.1 !! id' ∧
  closes_of id' (step now o s).2 = closes_of id' s.2.
Proof.
  intros [->|[[lease ->]| ->]] Hne; eapply point_effect_frame; try done.
  - apply step_Get_effect.
  - apply step_Renew_effect.
  - apply step_Close_effect.
Qed.

Lemma cleanup_handles_filter hm now w :
  handles (cleanup hm now w).1 =
  filter (λ kv, After now (ExpiresAt kv.2) = false) (handles hm).
Proof.
  apply map_eq. intros id. rewrite cleanup_lookup.
  destruct (handles hm !! id) as [mh|] eqn:Hk.
  - destruct (After now (ExpiresAt mh)) eqn:He.
    + symmetry. apply map_lookup_filter_None. right. intros mh' Hk'. simpl.
      rewrite Hk in Hk'. injection Hk' as <-. congruence.
    + symmetry. by apply map_lookup_filter_Some.
  - symmetry. apply map_lookup_filter_None. by left.
Qed.

(** X6: a reaper tick removes nothing that [List] shows at the same
    instant: [List] before and after the tick returns the same records. *)
Theorem X6_cleanup_keeps_List hm now w :
  List (cleanup hm now w).1 now ≡ₚ List hm now.
Proof.
  unfold List. rewrite cleanup_handles_filter.
  apply fmap_Permutation.
  rewrite map_filter_alt.
  rewrite map_to_list_to_map.
  2:{ eapply sublist_NoDup; [apply (NoDup_fst_map_to_list (handles hm))|].
      apply fmap_sublist, sublist_filter. }
  rewrite list_filter_filter. apply reflexive_eq, list_filter_iff.
  intros [id mh]. simpl. unfold Before, After.
  destruct (Z.ltb_spec now (ExpiresAt mh)), (Z.ltb_spec (ExpiresAt mh) now);
    split; try done; try lia; intros []; done.
Qed.

(** X7: an expired lease cannot be renewed: [Renew] of a record with
    now after its expiry returns not-found, invokes the plugin [Close] of
    its handle once and deletes the record; [Renew] of an id that is not in
    the table returns not-found and changes nothing. *)
Theorem X7_Renew_expired_or_unknown hm id lease now w :
  (∀ mh, handles hm !! id = Some mh → After now (ExpiresAt mh) = true →
         (Renew hm id lease now w).1.1 = inr ErrNotFound ∧
         handles (Renew hm id lease now w).1.2 = delete id (handles hm) ∧
         close_calls (Renew hm id lease now w).2 =
           close_calls w ++ [(id, Handle mh)]) ∧
  (handles hm !! id = None →
   Renew hm id lease now w = (inr ErrNotFound, hm, w)).
Proof.
  split.
  - intros mh Hk He. unfold Renew. rewrite Hk, He.
    pose proof (call_Close_calls id (Handle mh) w) as Hc.
    destruct (call_Close id (Handle mh) w). by simpl in *.
  - intros Hk. unfold Renew. by rewrite Hk.
Qed.

(** X8: [Get] never shortens a lease: on a reachable table, for a record
    that has not expired and whose last access is not in the future, the
    expiry after [Get] is at least the expiry before, the difference being
    the time since the last access. *)
Theorem X8_Get_extends_lease cfg tr w0 id mh now :
  let s := run tr (NewHandleManager cfg, w0) in
  handles s.1 !! id = Some mh →
  After now (ExpiresAt mh) = false →
  LastAccess mh ≤ now →
  ∃ mh', handles (Get s.1 id now s.2).1.2 !! id = Some mh' ∧
         ExpiresAt mh' = ExpiresAt mh + (now - LastAccess mh) ∧
         ExpiresAt mh ≤ ExpiresAt mh'.
Proof.
  intros s Hk He Hle.
  destruct (run_lease_ok tr (NewHandleManager cfg, w0)
              ltac:(intros ? ?; simpl; by rewrite lookup_empty) id mh Hk)
    as [Heq _].
  rewrite (Get_live _ _ _ _ _ Hk He). simpl.
  eexists. rewrite lookup_insert_eq. split; [done|]. simpl. lia.
Qed.

(** X9: [List] and [GetInfo] disagree exactly on the instant of expiry: a
    record is served by [GetInfo] (and [Get]) and yet left out of [List]
    if and only if now = expires-at. *)
Theorem X9_expiry_instant hm id mh now :
  handles hm !! id = Some mh →
  (GetInfo hm id now = inl mh ∧ mh ∉ List hm now) ↔ ExpiresAt mh = now.
Proof.
  intros Hk. unfold GetInfo, List. rewrite Hk. unfold After, Before. split.
  - intros [Hg Hl]. destruct (Z.ltb_spec (ExpiresAt mh) now); [done|].
    destruct (Z.lt_ge_cases now (ExpiresAt mh)) as [Hlt|Hge]; [|lia].
    exfalso. apply Hl. apply list_elem_of_fmap. exists (id, mh). split; [done|].
    apply list_elem_of_filter. split; [by apply Z.ltb_lt|].
    by apply elem_of_map_to_list.
  - intros Heq. rewrite Heq, Z.ltb_irrefl. split; [done|].
    intros Hin. apply list_elem_of_fmap in Hin as ([id' mh'] & -> & Hin).
    apply list_elem_of_filter in Hin as [Hb _]. simpl in *.
    apply Z.ltb_lt in Hb. lia.
Qed.

(** X10: a successful [Register] under an id not yet in the table adds
    exactly one record, leaves the others alone, and until the returned
    expiry [GetInfo] shows the record with the handle, path and flags that
    were registered. *)
Theorem X10_Register_then_GetInfo hm (h : FileHandle) path flags lease now id :
  let r := Register hm h path flags lease now id in
  Z.of_nat (size (handles hm)) < MaxHandles (config hm) →
  handles hm !! id = None →
  ∃ exp, r.1 = inl (id, exp) ∧
         Count r.2 = Count hm + 1 ∧
         (∀ id', id' ≠ id → handles r.2 !! id' = handles hm !! id') ∧
         ∀ now', now' ≤ exp →
           GetInfo r.2 id now' =
             inl {| Handle := h; Path := path; Flags := flags;
                    LeaseTime := exp - now; ExpiresAt := exp;
                    CreatedAt := now; LastAccess := now |}.
Proof.
  intros r Hcap Hfresh. subst r. unfold Register.
  destruct (Z.geb_spec (Z.of_nat (size (handles hm))) (MaxHandles (config hm)));
    [lia|]. simpl.
  eexists. split; [done|]. split; [|split].
  - unfold Count. simpl. rewrite map_size_insert_None by done. lia.
  - intros id' Hne. by rewrite lookup_insert_ne.
  - intros now' Hle. unfold GetInfo. simpl. rewrite lookup_insert_eq. simpl.
    unfold After. destruct (Z.ltb_spec (now + register_lease (config hm) lease) now');
      [lia|].
    replace (now + register_lease (config hm) lease - now)
      with (register_lease (config hm) lease) by lia.
    done.
Qed.

End HandleManagerMore.

Section HandleManagerMoreExamples.

Import filesystem mock.

Lemma s3_h_01 :
  handles s3.1 !! "h_01" =
  Some {| Handle := test_handle "test-1"; Path := "/test/file.txt";
          Flags := O_RDWR; LeaseTime := 100; ExpiresAt := 130;
          CreatedAt := 0; LastAccess := 30 |}.
Proof. vm_compute. reflexivity. Defined.

Lemma X3_leases_are_positive_witness :
  ∃ mh, handles s3.1 !! "h_02" = Some mh ∧
        0 < LeaseTime mh ∧ LastAccess mh < ExpiresAt mh.
Proof.
  eexists. split; [vm_compute; reflexivity|].
  apply (X3_leases_are_positive test_config (take 3 session) world0 "h_02");
    [simpl; lia|simpl; lia|].
  vm_compute. reflexivity.
Defined.

Lemma X5_other_ids_untouched_witness :
  handles (step 200 (OpGet "h_01") s3).1 !! "h_02" = handles s3.1 !! "h_02" ∧
  closes_of "h_02" (step 200 (OpGet "h_01") s3).2 = closes_of "h_02" s3.2.
Proof.
  apply (X5_other_ids_untouched 200 (OpGet "h_01") "h_01" s3 "h_02").
  - by left.
  - discriminate.
Defined.

Lemma X7_Renew_expired_or_unknown_witness :
  (Renew s3.1 "h_01" 400 200 s3.2).1.1 = inr ErrNotFound ∧
  close_calls (Renew s3.1 "h_01" 400 200 s3.2).2 = [("h_01", test_handle "test-1")] ∧
  Renew s3.1 "h_99" 400 200 s3.2 = (inr ErrNotFound, s3.1, s3.2).
Proof.
  destruct (X7_Renew_expired_or_unknown s3.1 "h_01" 400 200 s3.2) as [Hexp _].
  destruct (Hexp _ s3_h_01 eq_refl) as (Hr & _ & Hc).
  destruct (X7_Renew_expired_or_unknown s3.1 "h_99" 400 200 s3.2) as [_ Hunk].
  split; [exact Hr|]. split; [exact Hc|].
  apply Hunk. vm_compute. reflexivity.
Defined.

Lemma X8_Get_extends_lease_witness :
  ∃ mh', handles (Get s3.1 "h_01" 120 s3.2).1.2 !! "h_01" = Some mh' ∧
         ExpiresAt mh' = 130 + (120 - 30) ∧ 130 ≤ ExpiresAt mh'.
Proof.
  apply (X8_Get_extends_lease test_config (take 3 session) world0 "h_01" _ 120
           s3_h_01 eq_refl).
  simpl. lia.
Defined.

Lemma X9_expiry_instant_witness :
  ∃ mh, GetInfo s3.1 "h_01" 130 = inl mh ∧ mh ∉ List s3.1 130.
Proof.
  eexists. apply (X9_expiry_instant s3.1 "h_01" _ 130 s3_h_01). reflexivity.
Defined.

Lemma X10_Register_then_GetInfo_witness :
  ∃ exp, (Register s3.1 (test_handle "x") "/x" O_RDWR 50 200 "h_0x").1 =
           inl ("h_0x", exp) ∧
         Count (Register s3.1 (test_handle "x") "/x" O_RDWR 50 200 "h_0x").2 = 3.
Proof.
  destruct (X10_Register_then_GetInfo s3.1 (test_handle "x") "/x" O_RDWR 50 200 "h_0x")
    as (exp & Hr & Hc & _).
  - vm_compute. reflexivity.
  - vm_compute. reflexivity.
  - exists exp. split; [exact Hr|]. rewrite Hc. vm_compute. reflexivity.
Defined.

End HandleManagerMoreExamples.

(** * Further properties of the FUSE handle bridge *)

Section BridgeMore.

Import fusefs.

Context {ClientWorld : Type} `{!ClientAPI ClientWorld} `{!ClientWriteAPI ClientWorld}.

Implicit Types (w : World (ClientWorld := ClientWorld)).
Implicit Types (ww : WriteWorld (ClientWorld := ClientWorld)).
Implicit Types (hm : HandleManager) (info : handleInfo).
Implicit Types (s : HandleManager * WriteWorld (ClientWorld := ClientWorld)).

Lemma wrapU64_small z : 0 ≤ z < 2 ^ 64 → wrapU64 z = z.
Proof. intros Hz. unfold wrapU64. by apply Z.mod_small. Qed.

(** The three ways [Open] can end. *)
Lemma Open_cases hm path flags mode w :
  let r := Open hm path flags mode w in
  let fh := wrapU64 (nextHandle hm + 1) in
  nextHandle r.1.2 = fh ∧
  calls r.2 = calls w ++ [CallOpenHandle path flags mode] ∧
  ((∃ agfs, r.1.1 = inl fh ∧
            handles r.1.2 = <[fh := {| htype := handleTypeRemote; agfsHandle := agfs;
                                       path := path; flags := flags; mode := mode;
                                       readBuffer := None |}]> (handles hm)) ∨
   (r.1.1 = inl fh ∧
    handles r.1.2 = <[fh := {| htype := handleTypeLocal; agfsHandle := 0;
                               path := path; flags := flags; mode := mode;
                               readBuffer := None |}]> (handles hm)) ∨
   (∃ e, r.1.1 = inr e ∧ handles r.1.2 = handles hm)).
Proof.
  intros r fh. subst r fh. unfold Open, through.
  destruct (client_OpenHandle path flags mode (server w)) as [[agfs|err] sv]; simpl.
  - split; [done|]. split; [done|]. left. by exists agfs.
  - destruct (is_ErrNotSupported err); simpl.
    + split; [done|]. split; [done|]. right. by left.
    + split; [done|]. split; [done|]. right. right. by eexists.
Qed.

Lemma Read_table hm fuseHandle offset size w k :
  is_Some (handles (Read hm fuseHandle offset size w).1.2 !! k) ↔
  is_Some (handles hm !! k).
Proof.
  unfold Read, through.
  destruct (handles hm !! fuseHandle) as [info|] eqn:Hk; [|done].
  destruct (htype info).
  - destruct (client_ReadHandle (agfsHandle info) offset size (server w)) as [[d|e] sv];
      done.
  - destruct (readBuffer info); [done|].
    destruct (client_Read (path info) 0 (-1) (server w)) as [[d|e] sv]; [|done].
    simpl. destruct (decide (fuseHandle = k)) as [->|Hne].
    + rewrite lookup_insert_eq, Hk. split; intros _; by eexists.
    + by rewrite lookup_insert_ne.
Qed.

Lemma Read_nextHandle hm fuseHandle offset size w :
  nextHandle (Read hm fuseHandle offset size w).1.2 = nextHandle hm.
Proof.
  unfold Read, through.
  destruct (handles hm !! fuseHandle) as [info|] eqn:Hk; [|done].
  destruct (htype info).
  - destruct (client_ReadHandle (agfsHandle info) offset size (server w)) as [[d|e] sv];
      done.
  - destruct (readBuffer info); [done|].
    destruct (client_Read (path info) 0 (-1) (server w)) as [[d|e] sv]; done.
Qed.

Lemma Close_table hm fuseHandle w :
  handles (Close hm fuseHandle w).1.2 = delete fuseHandle (handles hm) ∧
  nextHandle (Close hm fuseHandle w).1.2 = nextHandle hm.
Proof.
  unfold Close, through.
  destruct (handles hm !! fuseHandle) as [info|] eqn:Hk.
  - destruct (htype info); [|done].
    destruct (client_CloseHandle (agfsHandle info) (server w)) as [[e|] sv]; done.
  - simpl. split; [|done]. symmetry. by apply delete_id.
Qed.

Lemma CloseAll_table hm w :
  handles (CloseAll hm w).1.2 = ∅ ∧ nextHandle (CloseAll hm w).1.2 = nextHandle hm.
Proof.
  unfold CloseAll.
  by destruct (foldl closeAll_visit (None, w) (map_to_list (handles hm))).
Qed.

Lemma lift_fst {A} (f : World → A * HandleManager * World) ww :
  (lift f ww).1 = (f (world ww)).1.
Proof. unfold lift. by destruct (f (world ww)) as [[? ?] ?]. Qed.

Lemma step_table (o : op) s :
  (step o s).1 =
  match o with
  | OpOpen p f m => (Open s.1 p f m (world s.2)).1.2
  | OpClose h => (Close s.1 h (world s.2)).1.2
  | OpRead h off n => (Read s.1 h off n (world s.2)).1.2
  | OpCloseAll => (CloseAll s.1 (world s.2)).1.2
  | OpWrite _ _ _ | OpSync _ => s.1
  end.
Proof.
  destruct o; simpl; try done.
  - pose proof (lift_fst (Open s.1 path0 flags0 mode0) s.2) as Hl.
    destruct (lift (Open s.1 path0 flags0 mode0) s.2) as [[? ?] ?]. simpl in *.
    by rewrite <- Hl.
  - pose proof (lift_fst (Close s.1 fuseHandle) s.2) as Hl.
    destruct (lift (Close s.1 fuseHandle) s.2) as [[? ?] ?]. simpl in *.
    by rewrite <- Hl.
  - pose proof (lift_fst (Read s.1 fuseHandle offset size) s.2) as Hl.
    destruct (lift (Read s.1 fuseHandle offset size) s.2) as [[? ?] ?]. simpl in *.
    by rewrite <- Hl.
  - pose proof (lift_fst (CloseAll s.1) s.2) as Hl.
    destruct (lift (CloseAll s.1) s.2) as [[? ?] ?]. simpl in *.
    by rewrite <- Hl.
Qed.

Lemma step_ids_in_range (o : op) s n :
  ids_in_range s.1 → nextHandle s.1 ≤ 1 + n → n + 1 < 2 ^ 64 - 1 →
  ids_in_range (step o s).1 ∧ nextHandle (step o s).1 ≤ 1 + (n + 1).
Proof.
  intros [H1 Hr] Hn Hbound. rewrite step_table. unfold ids_in_range.
  destruct o as [p f m|h|h off sz|h d off|h|].
  - destruct (Open_cases s.1 p f m (world s.2)) as (Hnx & _ & Hc).
    rewrite wrapU64_small in * by lia.
    rewrite !Hnx. split; [|lia]. split; [lia|]. intros k Hk.
    destruct Hc as [(agfs & _ & Hh)|[(_ & Hh)|(e & _ & Hh)]]; rewrite Hh in Hk.
    + destruct (decide (nextHandle s.1 + 1 = k)) as [<-|Hne]; [lia|].
      rewrite lookup_insert_ne in Hk by done. apply Hr in Hk. lia.
    + destruct (decide (nextHandle s.1 + 1 = k)) as [<-|Hne]; [lia|].
      rewrite lookup_insert_ne in Hk by done. apply Hr in Hk. lia.
    + apply Hr in Hk. lia.
  - destruct (Close_table s.1 h (world s.2)) as [Hh Hnx]. rewrite !Hnx.
    split; [|lia]. split; [done|]. intros k Hk. rewrite Hh in Hk.
    apply Hr. destruct Hk as [x Hk]. apply lookup_delete_Some in Hk as [_ Hk]. eauto.
  - rewrite !Read_nextHandle. split; [|lia]. split; [done|].
    intros k Hk. apply Hr. by apply Read_table in Hk.
  - split; [done|lia].
  - split; [done|lia].
  - destruct (CloseAll_table s.1 (world s.2)) as [Hh Hnx]. rewrite !Hnx.
    split; [|lia]. split; [done|]. intros k Hk. rewrite Hh, lookup_empty in Hk.
    by destruct Hk.
Qed.

Lemma run_ids_in_range tr s n :
  ids_in_range s.1 → nextHandle s.1 ≤ 1 + n →
  n + Z.of_nat (length tr) < 2 ^ 64 - 1 →
  ids_in_range (run tr s).1 ∧ nextHandle (run tr s).1 ≤ 1 + (n + Z.of_nat (length tr)).
Proof.
  revert s n. induction tr as [|o tr IH]; intros s n Hi Hn Hb.
  { simpl in *. rewrite Z.add_0_r. done. }
  change (run (o :: tr) s) with (run tr (step o s)).
  destruct (step_ids_in_range o s n Hi Hn) as [Hi' Hn'].
  { simpl in Hb. lia. }
  destruct (IH (step o s) (n + 1) Hi' Hn') as [Hi'' Hn''].
  { simpl in Hb. lia. }
  split; [done|]. simpl length. lia.
Qed.

(** X11: after any sequence of fewer than 2^64 − 2 operations on a new
    bridge, [Open] either fails and leaves the table as it is, or returns
    [nextHandle + 1], a handle id that is not in the table, and adds exactly
    one record under it; ids in the table are never reused or overwritten. *)
Theorem X11_Open_returns_fresh_handle tr ww path flags mode :
  let s := run tr (NewHandleManager, ww) in
  let r := Open s.1 path flags mode (world s.2) in
  Z.of_nat (length tr) < 2 ^ 64 - 2 →
  match r.1.1 with
  | inl fh => fh = nextHandle s.1 + 1 ∧
              handles s.1 !! fh = None ∧
              is_Some (handles r.1.2 !! fh) ∧
              Count r.1.2 = Count s.1 + 1 ∧
              ∀ k, k ≠ fh → handles r.1.2 !! k = handles s.1 !! k
  | inr _ => handles r.1.2 = handles s.1
  end.
Proof.
  intros s r Hlen.
  destruct (run_ids_in_range tr (NewHandleManager, ww) 0) as [[H1 Hr] Hn].
  { split; [simpl; lia|]. intros k. simpl. rewrite lookup_empty. by intros [? ?]. }
  { simpl. lia. }
  { lia. }
  fold s in H1, Hr, Hn.
  destruct (Open_cases s.1 path flags mode (world s.2)) as (Hnx & _ & Hc).
  fold r in Hnx, Hc. rewrite wrapU64_small in * by lia.
  assert (handles s.1 !! (nextHandle s.1 + 1) = None) as Hfresh.
  { destruct (handles s.1 !! (nextHandle s.1 + 1)) eqn:Hk; [|done].
    assert (2 ≤ nextHandle s.1 + 1 ≤ nextHandle s.1) by (apply Hr; eauto). lia. }
  destruct Hc as [(agfs & Hres & Hh)|[(Hres & Hh)|(e & Hres & Hh)]]; rewrite Hres.
  - split; [done|]. split; [done|]. rewrite Hh. split; [by rewrite lookup_insert_eq|].
    split.
    + unfold Count. rewrite Hh, map_size_insert_None by done. lia.
    + intros k Hne. by rewrite lookup_insert_ne.
  - split; [done|]. split; [done|]. rewrite Hh. split; [by rewrite lookup_insert_eq|].
    split.
    + unfold Count. rewrite Hh, map_size_insert_None by done. lia.
    + intros k Hne. by rewrite lookup_insert_ne.
  - done.
Qed.

(** X12: [Close] removes the record before it contacts the server, so the
    handle is gone even when the server's close fails (one [CloseHandle]
    for a REMOTE handle, none for a LOCAL one); afterwards [Read], [Write],
    [Sync] and [Close] on that handle all fail with handle-not-found, make
    no client call and change nothing. *)
Theorem X12_no_use_after_Close hm fuseHandle info w :
  let c := Close hm fuseHandle w in
  handles hm !! fuseHandle = Some info →
  handles c.1.2 = delete fuseHandle (handles hm) ∧
  calls c.2 = calls w ++ match htype info with
                         | handleTypeRemote => [CallCloseHandle (agfsHandle info)]
                         | handleTypeLocal => []
                         end ∧
  ∀ w' ww' offset size data,
    Read c.1.2 fuseHandle offset size w' = (Err (ErrHandleNotFound fuseHandle), c.1.2, w') ∧
    Write c.1.2 fuseHandle data offset ww' = (inr (ErrHandleNotFound fuseHandle), ww') ∧
    Sync c.1.2 fuseHandle ww' = (Some (ErrHandleNotFound fuseHandle), ww') ∧
    Close c.1.2 fuseHandle w' = (Some (ErrHandleNotFound fuseHandle), c.1.2, w').
Proof.
  intros c Hk. destruct (Close_table hm fuseHandle w) as [Hh _]. fold c in Hh.
  split; [done|]. split.
  - subst c. unfold Close, through. rewrite Hk. destruct (htype info).
    + destruct (client_CloseHandle (agfsHandle info) (server w)) as [[e|] sv]; done.
    + simpl. by rewrite app_nil_r.
  - intros w' ww' offset size data.
    assert (handles c.1.2 !! fuseHandle = None) as Hn
      by (rewrite Hh; apply lookup_delete_eq).
    unfold Read, Write, Sync, Close. by rewrite Hn.
Qed.

Lemma closeAll_fold_calls l (acc : option error * World) :
  calls (foldl closeAll_visit acc l).2 =
  calls acc.2 ++
  ((λ kv : Z * handleInfo, CallCloseHandle (agfsHandle kv.2)) <$>
     filter (λ kv, htype kv.2 = handleTypeRemote) l).
Proof.
  revert acc. induction l as [|kv l IH]; intros acc.
  { rewrite filter_nil. simpl. by rewrite app_nil_r. }
  simpl. rewrite IH. rewrite filter_cons. unfold closeAll_visit, through.
  case_decide as Ht.
  - rewrite Ht.
    destruct (client_CloseHandle (agfsHandle kv.2) (server acc.2)) as [[e|] sv];
      simpl; rewrite <- app_assoc; done.
  - by destruct (htype kv.2).
Qed.

Lemma closeAll_fold_last l (acc : option error * World) :
  (Forall (λ r, r = None) (closeAll_results l (server acc.2)) →
   (foldl closeAll_visit acc l).1 = acc.1) ∧
  (∀ rs1 e rs2,
     closeAll_results l (server acc.2) = rs1 ++ Some e :: rs2 →
     Forall (λ r, r = None) rs2 →
     (foldl closeAll_visit acc l).1 = Some e).
Proof.
  revert acc. induction l as [|kv l IH]; intros acc.
  { split; [done|]. intros rs1 e rs2 Hrs. by destruct rs1. }
  cbn [foldl closeAll_results].
  destruct (IH (closeAll_visit acc kv)) as [IH1 IH2].
  unfold closeAll_visit, through in *.
  destruct (htype kv.2); [|by split].
  destruct (client_CloseHandle (agfsHandle kv.2) (server acc.2)) as [r sv].
  split.
  - intros Hall. inversion Hall as [|?? Hr Hrest]; subst. simpl in *.
    by rewrite IH1.
  - intros rs1 e rs2 Hrs Hnone. destruct rs1 as [|r1 rs1]; simpl in Hrs.
    + injection Hrs as -> Hrs. simpl in *. rewrite IH1; [done|by rewrite Hrs].
    + injection Hrs as -> Hrs. destruct r1 as [e1|]; simpl in *; eapply IH2; eauto.
Qed.

Lemma last_failure (rs : list (option error)) :
  Forall (λ r, r = None) rs ∨
  ∃ rs1 e rs2, rs = rs1 ++ Some e :: rs2 ∧ Forall (λ r, r = None) rs2.
Proof.
  induction rs as [|r rs IH]; [by left|].
  destruct IH as [Hall|(rs1 & e & rs2 & -> & Hnone)].
  - destruct r as [e|].
    + right. by exists [], e, rs.
    + left. by constructor.
  - right. by exists (r :: rs1), e, rs2.
Qed.

(** X13: [CloseAll] empties the table but keeps the id counter, and
    calls the server's [CloseHandle] once for each REMOTE record and never
    for a LOCAL one; it returns nil exactly when none of those calls
    fails, and otherwise the error of the last one that failed. *)
Theorem X13_CloseAll hm w :
  let rs := closeAll_results (map_to_list (handles hm)) (server w) in
  handles (CloseAll hm w).1.2 = ∅ ∧
  nextHandle (CloseAll hm w).1.2 = nextHandle hm ∧
  (∃ closed, calls (CloseAll hm w).2 = calls w ++ closed ∧
     ∀ c, c ∈ closed ↔
          ∃ k info, handles hm !! k = Some info ∧ htype info = handleTypeRemote ∧
                    c = CallCloseHandle (agfsHandle info)) ∧
  (∃ closed, calls (CloseAll hm w).2 = calls w ++ closed ∧
     length closed =
       size (filter (λ kv, htype kv.2 = handleTypeRemote) (handles hm))) ∧
  ((CloseAll hm w).1.1 = None ↔ Forall (λ r, r = None) rs) ∧
  (∀ e, (CloseAll hm w).1.1 = Some e ↔
        ∃ rs1 rs2, rs = rs1 ++ Some e :: rs2 ∧ Forall (λ r, r = None) rs2).
Proof.
  intros rs.
  destruct (CloseAll_table hm w) as [Hh Hn]. split; [done|]. split; [done|].
  assert (calls (CloseAll hm w).2 = calls w ++
            ((λ kv : Z * handleInfo, CallCloseHandle (agfsHandle kv.2)) <$>
               filter (λ kv, htype kv.2 = handleTypeRemote) (map_to_list (handles hm))))
    as Hc.
  { unfold CloseAll.
    pose proof (closeAll_fold_calls (map_to_list (handles hm)) (None, w)) as Hf.
    by destruct (foldl closeAll_visit (None, w) (map_to_list (handles hm))). }
  assert ((CloseAll hm w).1.1 =
          (foldl closeAll_visit (None, w) (map_to_list (handles hm))).1) as Hres.
  { unfold CloseAll.
    by destruct (foldl closeAll_visit (None, w) (map_to_list (handles hm))). }
  destruct (closeAll_fold_last (map_to_list (handles hm)) (None, w)) as [Hok Hfail].
  simpl in Hok, Hfail. fold rs in Hok, Hfail.
  split; [|split; [|split]].
  - eexists. split; [exact Hc|]. intros c. rewrite list_elem_of_fmap. split.
    + intros ([k info] & -> & Hin). apply list_elem_of_filter in Hin as [Ht Hin].
      apply elem_of_map_to_list in Hin. eauto.
    + intros (k & info & Hk & Ht & ->). exists (k, info). split; [done|].
      apply list_elem_of_filter. split; [done|]. by apply elem_of_map_to_list.
  - eexists. split; [exact Hc|]. rewrite length_fmap.
    rewrite <- length_map_to_list. rewrite map_filter_alt.
    rewrite map_to_list_to_map; [done|].
    eapply sublist_NoDup; [apply (NoDup_fst_map_to_list (handles hm))|].
    apply fmap_sublist, sublist_filter.
  - rewrite Hres. split; [|exact Hok].
    intros Hnone. destruct (last_failure rs) as [Hall|(rs1 & e & rs2 & Hrs & Hn2)];
      [done|].
    rewrite (Hfail rs1 e rs2 Hrs Hn2) in Hnone. done.
  - intros e. rewrite Hres. split.
    + intros Hsome.
      destruct (last_failure rs) as [Hall|(rs1 & e' & rs2 & Hrs & Hn2)].
      * rewrite (Hok Hall) in Hsome. done.
      * rewrite (Hfail rs1 e' rs2 Hrs Hn2) in Hsome. injection Hsome as <-.
        by exists rs1, rs2.
    + intros (rs1 & rs2 & Hrs & Hn2). by apply (Hfail rs1 e rs2).
Qed.

(** X14: a write through a LOCAL handle is forwarded whole, as a single
    [Write(path, data)] of the client; the offset plays no part; it reports
    [len(data)] bytes written when the client reports no error and the
    wrapped error otherwise, and it makes no read-side call. *)
Theorem X14_local_Write hm fuseHandle info data offset ww :
  handles hm !! fuseHandle = Some info →
  htype info = handleTypeLocal →
  write_calls (Write hm fuseHandle data offset ww).2 =
    write_calls ww ++ [CallWrite (path info) data] ∧
  calls (world (Write hm fuseHandle data offset ww).2) = calls (world ww) ∧
  server (world (Write hm fuseHandle data offset ww).2) =
    (client_Write (path info) data (server (world ww))).2 ∧
  (Write hm fuseHandle data offset ww).1 =
    match (client_Write (path info) data (server (world ww))).1 with
    | None => inl (len data)
    | Some err => inr (ErrWrap "failed to write to server" err)
    end ∧
  ∀ offset', Write hm fuseHandle data offset' ww = Write hm fuseHandle data offset ww.
Proof.
  intros Hk Ht. unfold Write, through_write. rewrite Hk, Ht.
  destruct (client_Write (path info) data (server (world ww))) as [[e|] sv]; done.
Qed.

End BridgeMore.

Section BridgeMoreExamples.

Import mock fusefs.

Lemma X11_Open_returns_fresh_handle_witness :
  let s := run [OpOpen "/a" 0 420; OpRead 2 0 4; OpClose 2]
               (NewHandleManager, fuse_write_world0) in
  (Open s.1 "/b" 0 420 (world s.2)).1.1 = inl 3 ∧
  handles s.1 !! 3 = None.
Proof.
  intros s.
  pose proof (X11_Open_returns_fresh_handle
                [OpOpen "/a" 0 420; OpRead 2 0 4; OpClose 2]
                fuse_write_world0 "/b" 0 420 ltac:(simpl; lia)) as H.
  fold s in H.
  assert ((Open s.1 "/b" 0 420 (world s.2)).1.1 = inl 3) as Hr
    by (vm_compute; reflexivity).
  rewrite Hr in H. destruct H as (_ & Hfresh & _).
  split; [exact Hr|exact Hfresh].
Defined.

Lemma X12_no_use_after_Close_witness :
  let s := run [OpOpen "/a" 0 420] (NewHandleManager, handle_world0) in
  let c := Close s.1 2 (world s.2) in
  c.1.1 = Some (ErrWrap "failed to close handle" (ErrNew "close refused")) ∧
  calls c.2 = [CallOpenHandle "/a" 0 420; CallCloseHandle 100] ∧
  Read c.1.2 2 0 4 c.2 = (Err (ErrHandleNotFound 2), c.1.2, c.2).
Proof.
  intros s c.
  destruct (X12_no_use_after_Close s.1 2
              {| htype := handleTypeRemote; agfsHandle := 100; path := "/a";
                 flags := 0; mode := 420; readBuffer := None |} (world s.2))
    as (_ & Hc & Hafter).
  { vm_compute. reflexivity. }
  split; [vm_compute; reflexivity|]. split; [exact Hc|].
  apply (Hafter c.2 handle_world0 0 4 None).
Defined.

Lemma X14_local_Write_witness :
  let s := run [OpOpen "/queue/enqueue" 1 420] (NewHandleManager, fuse_write_world0) in
  (Write s.1 2 (Some payload) 7 s.2).1 = inl 12 ∧
  write_calls (Write s.1 2 (Some payload) 7 s.2).2 =
    [CallWrite "/queue/enqueue" (Some payload)].
Proof.
  intros s.
  destruct (X14_local_Write s.1 2
              {| htype := handleTypeLocal; agfsHandle := 0; path := "/queue/enqueue";
                 flags := 1; mode := 420; readBuffer := None |}
              (Some payload) 7 s.2) as (Hw & _ & _ & Hr & _).
  { vm_compute. reflexivity. }
  { reflexivity. }
  split; [exact Hr|exact Hw].
Defined.

End BridgeMoreExamples.

Section BridgeCloseAllExample.

Import mock fusefs.

Lemma X13_CloseAll_witness :
  let w := world handle_world0 in
  (CloseAll mixed_table w).1.1 = Some (ErrNew "close refused") ∧
  handles (CloseAll mixed_table w).1.2 = ∅ ∧
  ∃ closed, calls (CloseAll mixed_table w).2 = calls w ++ closed ∧
            CallCloseHandle 100 ∈ closed ∧ length closed = 1%nat.
Proof.
  intros w.
  destruct (X13_CloseAll mixed_table w) as (Hh & _ & Hcalls & Hlen & _ & Herr).
  split; [|split; [exact Hh|]].
  - apply Herr. exists [], []. split; [vm_compute; reflexivity|constructor].
  - destruct Hcalls as (closed & Hc & Hin). exists closed. split; [exact Hc|].
    split.
    + apply Hin. eexists 2, _. split; [vm_compute; reflexivity|]. by split.
    + destruct Hlen as (closed' & Hc' & Hl). rewrite Hc in Hc'.
      apply app_inv_head in Hc'. subst closed'. rewrite Hl.
      vm_compute. reflexivity.
Defined.

End BridgeCloseAllExample.

(** * Further properties of the vectorfs index queue *)

Section IndexQueueMore.

Import vectorfs.

Implicit Types (v : VectorFSPlugin) (t task : indexTask).

Lemma append_cons a (s t : string) : String a s +:+ t = String a (s +:+ t).
Proof. reflexivity. Qed.

Lemma append_nil_l (t : string) : "" +:+ t = t.
Proof. reflexivity. Qed.

Lemma append_nil_r (s : string) : s +:+ "" = s.
Proof. induction s as [|a s IH]; [done|]. by rewrite append_cons, IH. Qed.

Lemma append_assoc (s t u : string) : (s +:+ t) +:+ u = s +:+ (t +:+ u).
Proof. induction s as [|a s IH]; [done|]. by rewrite !append_cons, IH. Qed.

Lemma foldl_append_prefix {A} (f : A → string) (l : list A) (init : string) :
  ∃ rest, foldl (λ sb x, sb +:+ f x) init l = init +:+ rest.
Proof.
  revert init. induction l as [|x l IH]; intros init.
  - exists "". simpl. by rewrite append_nil_r.
  - simpl. destruct (IH (init +:+ f x)) as [rest ->].
    exists (f x +:+ rest). by rewrite append_assoc.
Qed.

(** X15: the status shown for a namespace is ["idle"] exactly when no task
    of that namespace is marked in flight. *)
Theorem X15_idle_iff_no_marker elapsed v ns now :
  getIndexingStatus elapsed v ns now = "idle" ↔ ∀ d, marker v ns d = None.
Proof.
  unfold getIndexingStatus, marker.
  destruct (indexingStatus v !! ns) as [tasks|] eqn:Hns; simpl.
  - case_decide as Hsz.
    + split; [|done]. intros _ d. apply map_size_empty_iff in Hsz.
      by rewrite Hsz, lookup_empty.
    + split.
      * intros Heq. exfalso.
        destruct (foldl_append_prefix
                    (λ kv : string * indexingFileInfo,
                       "  - " +:+ FileName kv.2 +:+ " (" +:+
                         elapsed (now - StartTime kv.2) +:+ ")" +:+ LF)
                    (map_to_list tasks)
                    ("indexing " +:+ pretty (size tasks) +:+ " file(s):" +:+ LF))
          as [rest Hf].
        rewrite Hf in Heq. rewrite !append_cons in Heq. discriminate Heq.
      * intros Hall. exfalso. apply map_size_ne_0_lookup in Hsz as [d [x Hd]].
        specialize (Hall d). congruence.
  - rewrite decide_True by apply map_size_empty. done.
Qed.

Lemma add_no_empty v ns d f now :
  no_empty_namespace v → no_empty_namespace (addIndexingTask v ns d f now).
Proof.
  intros Hinv ns' tasks. unfold addIndexingTask. simpl.
  destruct (decide (ns = ns')) as [->|Hne].
  - rewrite lookup_insert_eq. intros [= <-]. apply insert_non_empty.
  - rewrite lookup_insert_ne by done. apply Hinv.
Qed.

Lemma remove_no_empty v ns d :
  no_empty_namespace v → no_empty_namespace (removeIndexingTask v ns d).
Proof.
  intros Hinv ns' tasks. unfold removeIndexingTask.
  destruct (indexingStatus v !! ns) as [tasks0|] eqn:Hns; [|apply Hinv].
  case_decide as Hsz; simpl.
  - intros Hl. apply lookup_delete_Some in Hl as [_ Hl]. by apply Hinv in Hl.
  - destruct (decide (ns = ns')) as [->|Hne].
    + rewrite lookup_insert_eq. intros [= <-]. by apply map_size_non_empty_iff.
    + rewrite lookup_insert_ne by done. apply Hinv.
Qed.

Lemma removeIndexingTask_cap v ns d :
  queueCap (removeIndexingTask v ns d) = queueCap v.
Proof.
  unfold removeIndexingTask. destruct (indexingStatus v !! ns); [|done].
  by case_decide.
Qed.

Lemma step_invariants v v' :
  plugin_step v v' →
  no_empty_namespace v ∧ within_capacity v →
  no_empty_namespace v' ∧ within_capacity v' ∧ queueCap v' = queueCap v.
Proof.
  intros Hstep [Hne Hcap]. unfold within_capacity in *.
  destruct Hstep as [task size now n Hok|i v' Hs|v' Hs| |].
  - revert Hok. unfold Write_phase2.
    pose proof (add_no_empty v (namespace task) (digest task) (fileName task) now Hne)
      as Hne'.
    set (va := addIndexingTask v (namespace task) (digest task) (fileName task) now)
      in *.
    assert (indexQueue va = indexQueue v ∧ queueCap va = queueCap v) as [Hq Hc] by done.
    destruct (queueClosed va); [done|].
    unfold has_room. case_bool_decide as Hroom; simpl; intros _.
    + split; [done|]. rewrite length_app. simpl. rewrite Hq, Hc in *. lia.
    + split; [done|]. lia.
  - inversion Hs as [t Ht Hopen Hroom Heq|t Ht Hdown Heq|]; subst.
    + unfold supervisor_queued. simpl. split; [done|].
      unfold has_room in Hroom. apply bool_decide_eq_true in Hroom.
      rewrite length_app. simpl. lia.
    + unfold supervisor_dropped. simpl.
      destruct (removeIndexingTask_queue v (namespace t) (digest t)) as [Hq _].
      split; [by apply remove_no_empty|]. rewrite Hq, removeIndexingTask_cap.
      done.
  - inversion Hs as [|t q err Hq|err Hq Hcl]; subst.
    + unfold worker_process.
      destruct (removeIndexingTask_queue (with_queue v q) (namespace t) (digest t))
        as [Hq' _].
      split; [by apply (remove_no_empty (with_queue v q))|].
      rewrite Hq', removeIndexingTask_cap. simpl.
      rewrite Hq in Hcap. simpl in Hcap. split; [lia|done].
    + unfold worker_process.
      destruct (removeIndexingTask_queue v (namespace zero_task) (digest zero_task))
        as [Hq' _].
      split; [by apply remove_no_empty|]. rewrite Hq', removeIndexingTask_cap.
      done.
  - done.
  - done.
Qed.

Lemma steps_invariants cap v :
  plugin_steps (initialized cap) v →
  no_empty_namespace v ∧ within_capacity v ∧ queueCap v = cap.
Proof.
  induction 1 as [|v' v'' _ IH Hstep].
  - split; [|split; [|done]].
    + intros ns tasks. simpl. by rewrite lookup_empty.
    + unfold within_capacity. simpl. lia.
  - destruct IH as (H1 & H2 & H3).
    destruct (step_invariants v' v'' Hstep (conj H1 H2)) as (H1' & H2' & H3').
    split; [done|]. split; [done|]. congruence.
Qed.

(** X17: marking a task and then unmarking it restores the indexing
    status exactly, when the task was not marked before: no marker and no
    empty namespace entry is left behind.  (In any state the plugin can
    reach.) *)
Theorem X17_add_then_remove cap v ns d f now :
  plugin_steps (initialized cap) v →
  marker v ns d = None →
  indexingStatus (removeIndexingTask (addIndexingTask v ns d f now) ns d) =
  indexingStatus v.
Proof.
  intros Hsteps Hm. destruct (steps_invariants cap v Hsteps) as (Hne & _ & _).
  unfold removeIndexingTask, addIndexingTask. simpl. rewrite lookup_insert_eq.
  unfold marker in Hm.
  destruct (indexingStatus v !! ns) as [tasks|] eqn:Hns; simpl in *.
  - rewrite delete_insert_eq. rewrite (delete_id tasks) by done.
    rewrite decide_False.
    + simpl. rewrite insert_insert_eq. by apply insert_id.
    + apply map_size_non_empty_iff. by apply (Hne ns).
  - rewrite delete_insert_eq, delete_empty.
    rewrite decide_True by apply map_size_empty. simpl.
    rewrite delete_insert_eq. by apply delete_id.
Qed.

End IndexQueueMore.

Section IndexQueueMoreExamples.

Import vectorfs.

Lemma full_queue_reachable :
  plugin_steps (initialized 1) (Write_phase2 (initialized 1) mock.task1 0 0).2.
Proof.
  eapply steps_snoc; [apply steps_refl|].
  by apply (step_write (initialized 1) mock.task1 0 0 0).
Defined.

Lemma X17_add_then_remove_witness :
  let v := (Write_phase2 (initialized 1) mock.task1 0 0).2 in
  indexingStatus
    (removeIndexingTask (addIndexingTask v "test" "digest2" "file2" 5) "test" "digest2") =
  indexingStatus v.
Proof.
  intros v. apply (X17_add_then_remove 1 v "test" "digest2" "file2" 5).
  - apply full_queue_reachable.
  - vm_compute. reflexivity.
Defined.

End IndexQueueMoreExamples.

(** * Names and paths *)

Section Names.

Import gostrings.

Implicit Types (s t : string) (c sep : Ascii.ascii).

Lemma str_app_cons c s t : String c s +:+ t = String c (s +:+ t).
Proof. reflexivity. Qed.

Lemma contains_byte_app c s t :
  contains_byte c (s +:+ t) = contains_byte c s || contains_byte c t.
Proof.
  induction s as [|a s IH]; [done|]. rewrite str_app_cons. simpl.
  by destruct (decide (a = c)).
Qed.

Lemma Split_nonempty s sep : Split s sep ≠ [].
Proof.
  induction s as [|a s IH]; [done|]. simpl.
  destruct (decide (a = sep)); [done|]. by destruct (Split s sep).
Qed.

(** A string without the separator is one piece. *)
Lemma Split_no_sep s sep : contains_byte sep s = false → Split s sep = [s].
Proof.
  induction s as [|a s IH]; [done|]. simpl.
  destruct (decide (a = sep)); [done|]. intros Hs. by rewrite IH.
Qed.

(** The first piece ends at the first separator. *)
Lemma Split_app s t sep :
  contains_byte sep s = false →
  Split (s +:+ String sep t) sep = s :: Split t sep.
Proof.
  induction s as [|a s IH]; simpl.
  - intros _. rewrite decide_True by done. done.
  - destruct (decide (a = sep)); [done|]. intros Hs. by rewrite IH.
Qed.

Lemma Split_pieces s sep piece :
  piece ∈ Split s sep → contains_byte sep piece = false.
Proof.
  revert piece. induction s as [|a s IH]; intros piece; simpl.
  - intros Hin. apply list_elem_of_singleton in Hin as ->. done.
  - destruct (decide (a = sep)) as [->|Hne].
    + intros Hin. apply elem_of_cons in Hin as [->|Hin]; [done|]. by apply IH.
    + destruct (Split s sep) as [|p ps] eqn:Hsp.
      * intros Hin. apply list_elem_of_singleton in Hin as ->. simpl.
        by rewrite decide_False.
      * intros Hin. apply elem_of_cons in Hin as [->|Hin].
        -- simpl. rewrite decide_False by done. apply IH. left.
        -- apply IH. by right.
Qed.

(** How many separators a string has. *)
Lemma Split_length s sep :
  length (Split s sep) =
  S (length (filter (λ a, a = sep) (String.list_ascii_of_string s))).
Proof.
  induction s as [|a s IH]; [done|]. simpl. rewrite filter_cons.
  destruct (decide (a = sep)); simpl.
  - by rewrite IH.
  - destruct (Split s sep) as [|p ps] eqn:Hsp; [by apply Split_nonempty in Hsp|].
    simpl in *. done.
Qed.

Lemma TrimPrefix_slash s : TrimPrefix (String "/" s) "/" = s.
Proof. unfold TrimPrefix. simpl. by destruct s. Qed.

(** X18: [sqlfs2]'s [parsePath] gives back the components a path was
    built from: [/db/table/operation] parses to [(db, table, operation)]
    for any components without a slash; the components it returns never
    contain a slash; and it fails exactly when the path, after its leading
    slash, has three or more slashes. *)
Theorem X18_sqlfs2_parsePath :
  (∀ db table operation,
     contains_byte "/" db = false → contains_byte "/" table = false →
     contains_byte "/" operation = false →
     sqlfs2.parsePath ("/" +:+ db +:+ "/" +:+ table +:+ "/" +:+ operation) =
       Ok (db, table, operation)) ∧
  (∀ path db table operation,
     sqlfs2.parsePath path = Ok (db, table, operation) →
     contains_byte "/" db = false ∧ contains_byte "/" table = false ∧
     contains_byte "/" operation = false) ∧
  (∀ path,
     (∃ e, sqlfs2.parsePath path = Err e) ↔
     (3 ≤ length (filter (λ a, a = "/"%char)
                    (String.list_ascii_of_string (TrimPrefix path "/"))))%nat).
Proof.
  split; [|split].
  - intros db table op Hdb Ht Hop.
    change ("/" +:+ db +:+ "/" +:+ table +:+ "/" +:+ op)
      with (String "/" (db +:+ String "/" (table +:+ String "/" op))).
    unfold sqlfs2.parsePath. rewrite TrimPrefix_slash.
    rewrite (Split_app db _ _ Hdb), (Split_app table _ _ Ht), (Split_no_sep op _ Hop).
    case_decide as Hd; [|done].
    destruct Hd as [Hd|Hd]; [done|].
    destruct db; simpl in Hd; [|done]. discriminate Hd.
  - intros path db table op. unfold sqlfs2.parsePath.
    set (p := TrimPrefix path "/").
    pose proof (Split_pieces p "/"%char) as Hp.
    case_decide as Hd; [by intros [= <- <- <-]|].
    destruct (Split p "/") as [|a [|b [|c [|d l]]]]; try done.
    + intros [= <- <- <-]. split; [apply Hp; left|done].
    + intros [= <- <- <-]. split; [apply Hp; left|].
      split; [apply Hp; right; left|done].
    + intros [= <- <- <-]. split; [apply Hp; left|].
      split; [apply Hp; right; left|apply Hp; right; right; left].
  - intros path. unfold sqlfs2.parsePath.
    set (p := TrimPrefix path "/").
    pose proof (Split_length p "/"%char) as Hlen.
    pose proof (Split_nonempty p "/"%char) as Hne.
    case_decide as Hd.
    + split; [by intros [e He]|]. intros H3.
      destruct Hd as [Hd|Hd]; [by destruct (Split p "/")|].
      rewrite Hd in H3. simpl in H3. lia.
    + destruct (Split p "/") as [|a [|b [|c [|d l]]]]; simpl in Hlen;
        try done; (split; [intros [e He]; try done; lia|intros H3; try lia; eauto]).
Qed.

(** X19: [vectorfs]'s [parsePath] never fails; the namespace it returns
    has no slash; and namespace and relative path are the cleaned path
    (less its leading slash) cut at its first slash. *)
Theorem X19_vectorfs_parsePath Clean path :
  ∃ ns rel,
    vectorfs.parsePath Clean path = Ok (ns, rel) ∧
    contains_byte "/" ns = false ∧
    let p := TrimPrefix (Clean path) "/" in
    if decide (p = "" ∨ p = ".") then ns = "" ∧ rel = ""
    else if contains_byte "/" p then p = ns +:+ "/" +:+ rel
    else p = ns ∧ rel = "".
Proof.
  unfold vectorfs.parsePath. set (p := TrimPrefix (Clean path) "/"). simpl.
  case_decide as Hd; [by exists "", ""|].
  assert (∀ s, ∃ ns rel,
            (SplitN2 s "/" = [ns] ∧ rel = "" ∧ contains_byte "/" s = false ∧ s = ns) ∨
            (SplitN2 s "/" = [ns; rel] ∧ contains_byte "/" s = true ∧
             contains_byte "/" ns = false ∧ s = ns +:+ "/" +:+ rel)) as Hsplit.
  { induction s as [|a s IH].
    - exists "", "". by left.
    - simpl. destruct (decide (a = "/"%char)) as [->|Hne].
      + exists "", s. right. done.
      + destruct IH as (ns & rel & [(He & -> & Hc & ->)|(He & Hc & Hn & ->)]);
          rewrite He.
        * exists (String a ns), "". by left.
        * exists (String a ns), rel. right. simpl. by rewrite ?decide_False. }
  destruct (Hsplit p) as (ns & rel & [(He & -> & Hc & Hp)|(He & Hc & Hn & Hp)]);
    rewrite He; simpl; exists ns.
  - exists "". rewrite Hc. split; [done|]. split; [by rewrite <- Hp|done].
  - exists rel. rewrite Hc. done.
Qed.

Lemma cut_at_slash s s' t t' :
  contains_byte "/" s = false → contains_byte "/" s' = false →
  s +:+ String "/" t = s' +:+ String "/" t' → s = s' ∧ t = t'.
Proof.
  revert s'. induction s as [|a s IH]; intros [|a' s']; simpl;
    rewrite ?append_nil_l, ?append_cons.
  - intros _ _ Heq. by injection Heq as ->.
  - destruct (decide (a' = "/"%char)) as [->|Hne]; [done|].
    intros _ _ Heq. congruence.
  - destruct (decide (a = "/"%char)) as [->|Hne]; [done|].
    intros _ _ Heq. congruence.
  - destruct (decide (a = "/"%char)); [done|].
    destruct (decide (a' = "/"%char)); [done|].
    intros Hs Hs' Heq.
    injection Heq as -> Heq. by destruct (IH s' Hs Hs' Heq) as [-> ->].
Qed.

Lemma app_inv_head_str s t t' : s +:+ t = s +:+ t' → t = t'.
Proof.
  induction s as [|a s IH]; [done|]. rewrite !str_app_cons. intros [= Heq]. auto.
Qed.

(** X20: under one key prefix, two documents get the same S3 key only if
    they have the same namespace and the same digest, namespaces having
    no slash. *)
Theorem X20_buildKey_injective keyPrefix ns digest ns' digest' :
  contains_byte "/" ns = false → contains_byte "/" ns' = false →
  vectorfs.buildKey keyPrefix ns digest = vectorfs.buildKey keyPrefix ns' digest' →
  ns = ns' ∧ digest = digest'.
Proof.
  intros Hns Hns'. unfold vectorfs.buildKey. intros Heq.
  apply app_inv_head_str in Heq.
  change (String "/" (ns +:+ String "/" digest) =
          String "/" (ns' +:+ String "/" digest')) in Heq.
  injection Heq as Heq. by apply cut_at_slash.
Qed.

Lemma sanitize_byte_spec c :
  (vectorfs.forbidden_in_table_name c ∧ vectorfs.sanitize_byte c = "_"%char) ∨
  (¬ vectorfs.forbidden_in_table_name c ∧ vectorfs.sanitize_byte c = c).
Proof.
  unfold vectorfs.sanitize_byte, vectorfs.forbidden_in_table_name.
  repeat case_decide; subst; try (left; split; [tauto|done]).
  right. split; [tauto|done].
Qed.

(** X21: [sanitizeTableName] keeps the length, replaces exactly the bytes
    [-], [.], [/] and space (each by [_]) and leaves every other byte where
    it is, so its result contains none of the four and sanitizing twice
    changes nothing more; but it is not injective: distinct namespaces can
    share a table name. *)
Theorem X21_sanitizeTableName s :
  String.length (vectorfs.sanitizeTableName s) = String.length s ∧
  (∀ i, String.get i (vectorfs.sanitizeTableName s) =
        vectorfs.sanitize_byte <$> String.get i s) ∧
  (∀ c, vectorfs.forbidden_in_table_name c →
        contains_byte c (vectorfs.sanitizeTableName s) = false) ∧
  vectorfs.sanitizeTableName (vectorfs.sanitizeTableName s) =
    vectorfs.sanitizeTableName s ∧
  ((∀ c, vectorfs.forbidden_in_table_name c → contains_byte c s = false) →
   vectorfs.sanitizeTableName s = s) ∧
  (∃ a b, a ≠ b ∧ vectorfs.sanitizeTableName a = vectorfs.sanitizeTableName b).
Proof.
  split; [|split; [|split; [|split; [|split]]]].
  - induction s as [|a s IH]; [done|]. simpl. by rewrite IH.
  - induction s as [|a s IH]; intros i; [done|]. simpl. destruct i; [done|]. apply IH.
  - intros c Hc. induction s as [|a s IH]; [done|]. simpl.
    destruct (sanitize_byte_spec a) as [[Ha ->]|[Ha ->]].
    + rewrite decide_False; [done|]. intros <-.
      unfold vectorfs.forbidden_in_table_name in Hc. intuition discriminate.
    + rewrite decide_False; [done|]. by intros ->.
  - induction s as [|a s IH]; [done|]. simpl. rewrite IH. f_equal.
    destruct (sanitize_byte_spec a) as [[Ha ->]|[Ha ->]]; [done|].
    by destruct (sanitize_byte_spec a) as [[Ha' _]|[_ ->]].
  - induction s as [|a s IH]; [done|]. intros Hfree. simpl. rewrite IH.
    + f_equal. destruct (sanitize_byte_spec a) as [[Ha _]|[_ ->]]; [|done].
      specialize (Hfree a Ha). simpl in Hfree. by rewrite decide_True in Hfree.
    + intros c Hc. specialize (Hfree c Hc). simpl in Hfree.
      by destruct (decide (a = c)).
  - exists "a-b", "a.b". done.
Qed.

End Names.

Section NamesExamples.

Import gostrings.

Lemma X18_sqlfs2_parsePath_witness :
  sqlfs2.parsePath "/shop/orders/schema" = Ok ("shop", "orders", "schema") ∧
  (∃ e, sqlfs2.parsePath "/a/b/c/d" = Err e).
Proof.
  destruct X18_sqlfs2_parsePath as (Hround & _ & Herr).
  split.
  - apply (Hround "shop" "orders" "schema"); reflexivity.
  - apply Herr. vm_compute. lia.
Defined.

Lemma X20_buildKey_injective_witness :
  vectorfs.buildKey "vectorfs" "test" "0a1b" = "vectorfs/test/0a1b" ∧
  "test" = "test" ∧ "0a1b" = "0a1b".
Proof.
  split; [reflexivity|].
  apply (X20_buildKey_injective "vectorfs" "test" "0a1b" "test" "0a1b"
           eq_refl eq_refl eq_refl).
Defined.

Lemma X21_sanitizeTableName_witness :
  vectorfs.sanitizeTableName "test" = "test" ∧
  contains_byte "/" (vectorfs.sanitizeTableName "test-name.space/path") = false.
Proof.
  destruct (X21_sanitizeTableName "test") as (_ & _ & _ & _ & Hid & _).
  destruct (X21_sanitizeTableName "test-name.space/path") as (_ & _ & Hfree & _).
  split.
  - apply Hid. intros c [->|[->|[->| ->]]]; reflexivity.
  - apply Hfree. unfold vectorfs.forbidden_in_table_name. tauto.
Defined.

End NamesExamples.

(** * The example plugin in C *)

Section HelloFS.

Import hellofs_c.

Lemma substring_length n m (s : string) :
  String.length (String.substring n m s) = Nat.min m (String.length s - n).
Proof.
  revert n m. induction s as [|a s IH]; intros [|n] [|m]; simpl; try done;
    rewrite ?IH; lia.
Qed.

Lemma substring_split n a b (s : string) :
  String.substring n (a + b) s =
  String.substring n a s +:+ String.substring (n + a) b s.
Proof.
  revert n a. induction s as [|c s IH]; intros [|n] [|a]; simpl; try done.
  - rewrite append_cons. f_equal. apply (IH 0%nat a).
  - apply (IH n 0%nat).
  - apply (IH n (S a)).
Qed.

Lemma substring_past_end n m (s : string) :
  (String.length s ≤ n)%nat → String.substring n m s = "".
Proof.
  revert n m. induction s as [|c s IH]; intros [|n] [|m] Hn; simpl in *; try done;
    try lia; apply IH; lia.
Qed.

Lemma substring_all (s : string) m :
  (String.length s ≤ m)%nat → String.substring 0 m s = s.
Proof.
  revert m. induction s as [|c s IH]; intros [|m] Hm; simpl in *; try done; try lia.
  f_equal. apply IH. lia.
Qed.

Lemma FSRead_hello offset size :
  0 ≤ offset →
  FSRead "/hello" offset size =
  Some (String.substring (Z.to_nat offset) (Z.to_nat (hello_read_len offset size)) content,
        hello_read_len offset size).
Proof.
  intros Ho. unfold FSRead, hello_read_len. simpl String.eqb. cbv iota.
  set (len := Z.of_nat (String.length content)).
  destruct (Z.geb_spec offset len) as [Hge|Hlt].
  - rewrite Z.max_l by lia.
    replace ((0 <? size) && (size <? 0)) with false
      by (destruct (Z.ltb_spec 0 size), (Z.ltb_spec size 0); simpl; lia).
    rewrite substring_past_end; [done|]. subst len. lia.
  - rewrite Z.max_r by lia.
    replace (size >? 0) with (0 <? size) by (by rewrite Z.gtb_ltb).
    destruct (Z.ltb_spec offset 0); [lia|]. done.
Qed.

(** X22: [FSRead] of [/hello] at an offset that is not negative never
    fails; it returns as many bytes as it says; a positive size smaller
    than what is left caps the read and any other size (zero and negative
    ones too) reads to the end; at or past the end it returns no bytes
    and length 0; and a read followed by a read-to-the-end from where it
    stopped gives the bytes of one read-to-the-end; the whole file is as
    long as [FSStat] says. *)
Theorem X22_hellofs_FSRead offset size :
  0 ≤ offset →
  ∃ data n rest m whole k,
    FSRead "/hello" offset size = Some (data, n) ∧
    FSRead "/hello" (offset + n) 0 = Some (rest, m) ∧
    FSRead "/hello" offset 0 = Some (whole, k) ∧
    n = Z.of_nat (String.length data) ∧
    n = hello_read_len offset size ∧
    data +:+ rest = whole ∧ n + m = k ∧
    (Z.of_nat (String.length content) ≤ offset → data = "" ∧ n = 0) ∧
    (offset = 0 → whole = content ∧ FSStat_Size "/hello" = Some k).
Proof.
  intros Ho.
  assert (0 ≤ hello_read_len offset size) as Hn.
  { unfold hello_read_len. destruct ((0 <? size) && (size <? _)) eqn:E; [|lia].
    apply andb_true_iff in E as [E _]. apply Z.ltb_lt in E. lia. }
  eexists _, (hello_read_len offset size), _, _, _, _.
  split; [by apply FSRead_hello|].
  split; [apply FSRead_hello; lia|].
  split; [by apply FSRead_hello|].
  set (len := Z.of_nat (String.length content)).
  assert (hello_read_len offset size ≤ Z.max 0 (len - offset)) as Hle.
  { unfold hello_read_len. fold len.
    destruct ((0 <? size) && (size <? _)) eqn:E; [|lia].
    apply andb_true_iff in E as [_ E]. apply Z.ltb_lt in E. lia. }
  assert (hello_read_len offset 0 = Z.max 0 (len - offset)) as H0 by done.
  assert (hello_read_len (offset + hello_read_len offset size) 0 =
          Z.max 0 (len - offset) - hello_read_len offset size) as Hrest.
  { unfold hello_read_len at 1. fold len. simpl. lia. }
  split; [|split; [done|split; [|split; [|split]]]].
  - rewrite substring_length. fold len in Hle. subst len. lia.
  - rewrite Hrest, H0.
    replace (Z.to_nat (Z.max 0 (len - offset)))
      with (Z.to_nat (hello_read_len offset size) +
            Z.to_nat (Z.max 0 (len - offset) - hello_read_len offset size))%nat by lia.
    rewrite substring_split. f_equal. f_equal. lia.
  - rewrite Hrest, H0. lia.
  - intros Hpast. split.
    + apply substring_past_end. fold len in Hpast. subst len. lia.
    + lia.
  - intros ->. split.
    + apply substring_all. rewrite H0. subst len. lia.
    + rewrite H0. subst len. done.
Qed.

Lemma X22_hellofs_FSRead_witness :
  ∃ data rest, FSRead "/hello" 6 4 = Some (data, 4) ∧
               FSRead "/hello" 10 0 = Some (rest, 20) ∧
               data +:+ rest = "from C dynamic library!" +:+ String (ascii_of_nat 10) "".
Proof.
  destruct (X22_hellofs_FSRead 6 4 ltac:(lia))
    as (d & n & r & m & w & k & H1 & H2 & H3 & _ & Hn & Hcat & Hsum & _).
  change (hello_read_len 6 4) with 4 in Hn. subst n.
  assert (w = "from C dynamic library!" +:+ String (ascii_of_nat 10) "" ∧ k = 24)
    as [-> ->] by (vm_compute in H3; by injection H3 as <- <-).
  exists d, r. split; [exact H1|]. split; [|exact Hcat].
  replace 20 with m by lia. exact H2.
Defined.

End HelloFS.

(** * The chunker keeps the text *)

Section Chunker.
Import chunker.

Lemma ink_app a b : ink (a ++ b) = ink a ++ ink b.
Proof. apply filter_app. Qed.

Lemma ink_concat l : ink (concat l) = concat (ink <$> l).
Proof.
  induction l as [|x l IH]; [done|]. simpl. by rewrite ink_app, IH.
Qed.

Lemma ink_space r s : IsSpace r = true → ink (r :: s) = ink s.
Proof.
  intros E. unfold ink. rewrite filter_cons_False; [done|]. by rewrite E.
Qed.

Lemma ink_trim_left s : ink (trim_left s) = ink s.
Proof.
  induction s as [|r s IH]; [done|]. simpl.
  destruct (IsSpace r) eqn:E; [|done]. by rewrite IH, ink_space.
Qed.

Lemma ink_TrimSpace s : ink (TrimSpace s) = ink s.
Proof.
  unfold TrimSpace, ink.
  rewrite filter_reverse. fold (ink (trim_left (reverse (trim_left s)))).
  rewrite ink_trim_left. unfold ink. rewrite filter_reverse, reverse_involutive.
  apply ink_trim_left.
Qed.

Lemma trim_left_head s :
  trim_left s ≠ [] → ∃ r, head (trim_left s) = Some r ∧ IsSpace r = false.
Proof.
  induction s as [|r s IH]; [done|]. simpl.
  destruct (IsSpace r) eqn:E; [done|]. intros _. by exists r.
Qed.

Lemma trim_left_last s : trim_left s ≠ [] → last (trim_left s) = last s.
Proof.
  induction s as [|r s IH]; [done|]. simpl.
  destruct (IsSpace r) eqn:E; [|done].
  intros Hne. rewrite (IH Hne).
  destruct s as [|r' s']; [done|]. by rewrite last_cons_cons.
Qed.

Lemma trim_left_fixed s r :
  head s = Some r → IsSpace r = false → trim_left s = s.
Proof. destruct s as [|r' s]; [done|]. simpl. intros [= ->] ->. done. Qed.

Lemma TrimSpace_tight s : TrimSpace s ≠ [] → tight (TrimSpace s).
Proof.
  unfold TrimSpace. intros Hne.
  set (a := trim_left s) in *. set (b := trim_left (reverse a)) in *.
  assert (b ≠ []) as Hb by (intros E; apply Hne; by rewrite E).
  assert (a ≠ []) as Ha.
  { intros E. apply Hb. subst b. by rewrite E. }
  split.
  - rewrite head_reverse. subst b. rewrite trim_left_last by done.
    rewrite last_reverse. by apply trim_left_head.
  - rewrite last_reverse. by apply trim_left_head.
Qed.

Lemma tight_TrimSpace s : tight s → TrimSpace s = s.
Proof.
  intros [(r & Hr & Er) (r' & Hr' & Er')]. unfold TrimSpace.
  rewrite (trim_left_fixed s r) by done.
  rewrite (trim_left_fixed (reverse s) r'); [apply reverse_involutive| |done].
  by rewrite head_reverse.
Qed.

Lemma tight_ink s : tight s → ink s ≠ [].
Proof.
  intros [(r & Hr & Er) _]. destruct s as [|r' s]; [done|].
  injection Hr as ->. unfold ink. rewrite filter_cons_True by done. done.
Qed.

Lemma tight_nonempty s : tight s → s ≠ [].
Proof. intros H ->. by apply tight_ink in H. Qed.

Lemma blank_TrimSpace s : TrimSpace s = [] ↔ ink s = [].
Proof.
  split.
  - intros E. by rewrite <-ink_TrimSpace, E.
  - intros E. destruct (decide (TrimSpace s = [])) as [|Hne]; [done|].
    apply TrimSpace_tight, tight_ink in Hne. by rewrite ink_TrimSpace in Hne.
Qed.

Lemma tight_join a b : tight a → tight b → tight ((a ++ [32]) ++ b).
Proof.
  intros Ha Hb. pose proof (tight_nonempty _ Ha) as Hna.
  pose proof (tight_nonempty _ Hb) as Hnb.
  destruct Ha as [(r & Hr & Er) _], Hb as [_ (r' & Hr' & Er')]. split.
  - exists r. split; [|done]. destruct a; [done|]. done.
  - exists r'. split; [|done].
    destruct b as [|x b _] using rev_ind; [done|].
    rewrite last_snoc in Hr'. injection Hr' as ->.
    by rewrite app_assoc, last_snoc.
Qed.

Lemma HasPrefix_split s sep :
  HasPrefix s sep = true → s = sep ++ drop (length sep) s.
Proof.
  revert s. induction sep as [|p sep IH]; intros s; [done|].
  destruct s as [|r s]; [done|]. simpl.
  intros [E H]%andb_true_iff. apply Z.eqb_eq in E as ->.
  f_equal. by apply IH.
Qed.

Lemma Split_from_cons sep r rest cur skip :
  Split_from sep (r :: rest) cur skip =
  match skip with
  | S k => Split_from sep rest cur k
  | O => if HasPrefix (r :: rest) sep
         then cur :: Split_from sep rest [] (length sep - 1)
         else Split_from sep rest (cur ++ [r]) 0
  end.
Proof. done. Qed.

(** Splitting at a separator of white space loses only white space. *)
Lemma Split_from_ink sep s cur k :
  sep ≠ [] → ink sep = [] →
  concat (ink <$> Split_from sep s cur k) = ink cur ++ ink (drop k s).
Proof.
  intros Hne Hsep. revert cur k.
  induction s as [|r rest IH]; intros cur k.
  - simpl. rewrite drop_nil, app_nil_r. symmetry. apply app_nil_r.
  - rewrite Split_from_cons. destruct k as [|k]; [|by rewrite IH].
    destruct (HasPrefix (r :: rest) sep) eqn:E.
    + rewrite fmap_cons, concat_cons, IH. f_equal. simpl.
      apply HasPrefix_split in E. rewrite E at 1.
      rewrite ink_app, Hsep. simpl.
      destruct sep as [|p sep]; [done|]. simpl. by rewrite Nat.sub_0_r.
    + rewrite IH, ink_app, drop_0. simpl. by rewrite <-app_assoc, <-ink_app.
Qed.

Lemma Split_ink s sep :
  sep ≠ [] → ink sep = [] → concat (ink <$> Split s sep) = ink s.
Proof. intros. unfold Split. by rewrite Split_from_ink. Qed.

Lemma trimmed_pieces_cons x l :
  trimmed_pieces (x :: l) =
  if decide (TrimSpace x = []) then trimmed_pieces l
  else TrimSpace x :: trimmed_pieces l.
Proof.
  unfold trimmed_pieces. simpl.
  destruct (decide (TrimSpace x = [])) as [E|E].
  - by rewrite filter_cons_False by (intros H; by apply H).
  - by rewrite filter_cons_True.
Qed.

Lemma trimmed_pieces_ink l :
  concat (ink <$> trimmed_pieces l) = concat (ink <$> l).
Proof.
  induction l as [|x l IH]; [done|].
  rewrite trimmed_pieces_cons, !fmap_cons, !concat_cons.
  destruct (decide (TrimSpace x = [])) as [E|E].
  - apply blank_TrimSpace in E. by rewrite E, IH.
  - by rewrite fmap_cons, concat_cons, ink_TrimSpace, IH.
Qed.

Lemma trimmed_pieces_tight l : Forall tight (trimmed_pieces l).
Proof.
  induction l as [|x l IH]; [constructor|]. rewrite trimmed_pieces_cons.
  destruct (decide (TrimSpace x = [])) as [E|E]; [done|].
  constructor; [by apply TrimSpace_tight|done].
Qed.

Lemma splitParagraphs_ink text :
  concat (ink <$> splitParagraphs text) = ink text.
Proof.
  unfold splitParagraphs.
  destruct (decide (trimmed_pieces (Split text [10; 10]) = [])) as [E1|E1].
  - destruct (decide (trimmed_pieces (Split text [10]) = [])) as [E2|E2].
    + simpl. apply app_nil_r.
    + by rewrite trimmed_pieces_ink, Split_ink.
  - rewrite decide_False by done. by rewrite trimmed_pieces_ink, Split_ink.
Qed.

Lemma splitParagraphs_tight text :
  Forall tight (splitParagraphs text) ∨
  (splitParagraphs text = [text] ∧ ink text = []).
Proof.
  unfold splitParagraphs.
  destruct (decide (trimmed_pieces (Split text [10; 10]) = [])) as [E1|E1].
  - destruct (decide (trimmed_pieces (Split text [10]) = [])) as [E2|E2].
    + right. split; [done|].
      rewrite <-(Split_ink text [10]), <-trimmed_pieces_ink, E2 by done. done.
    + left. apply trimmed_pieces_tight.
  - left. rewrite decide_False by done. apply trimmed_pieces_tight.
Qed.

Lemma flush_sentence_ink sentences current :
  concat (ink <$> flush_sentence sentences current) =
  concat (ink <$> sentences) ++ ink current.
Proof.
  unfold flush_sentence. simpl.
  destruct (decide (TrimSpace current = [])) as [E|E].
  - apply blank_TrimSpace in E. by rewrite E, app_nil_r.
  - rewrite fmap_app, concat_app. simpl. by rewrite ink_TrimSpace, app_nil_r.
Qed.

Lemma flush_sentence_tight sentences current :
  Forall tight sentences → Forall tight (flush_sentence sentences current).
Proof.
  intros H. unfold flush_sentence. simpl.
  destruct (decide (TrimSpace current = [])) as [E|E]; [done|].
  apply Forall_app. split; [done|]. constructor; [by apply TrimSpace_tight|done].
Qed.

Lemma splitSentences_loop_spec runes rest i sentences current :
  Forall tight sentences →
  let r := splitSentences_loop runes rest i sentences current in
  Forall tight r.1 ∧
  concat (ink <$> r.1) ++ ink r.2 =
    concat (ink <$> sentences) ++ ink current ++ ink rest.
Proof.
  revert i sentences current.
  induction rest as [|x rest IH]; intros i sentences current Ht.
  - simpl. split; [done|]. by rewrite app_nil_r.
  - simpl. destruct (isSentenceEnd runes i).
    + destruct (IH (S i) (flush_sentence sentences (current ++ [x])) [])
        as [H1 H2]; [by apply flush_sentence_tight|].
      split; [done|]. simpl in H2. rewrite H2, flush_sentence_ink.
      rewrite ink_app, <-!app_assoc. f_equal. f_equal.
      by rewrite <-ink_app.
    + destruct (IH (S i) sentences (current ++ [x])) as [H1 H2]; [done|].
      split; [done|]. simpl in H2. rewrite H2. f_equal.
      by rewrite ink_app, <-app_assoc, <-ink_app.
Qed.

Lemma splitSentences_spec text :
  Forall tight (splitSentences text) ∧
  concat (ink <$> splitSentences text) = ink text.
Proof.
  unfold splitSentences.
  destruct (splitSentences_loop_spec text text 0 [] []) as [H1 H2];
    [constructor|].
  destruct (splitSentences_loop text text 0 [] []) as [sentences current].
  simpl in *. destruct (decide (current = [])) as [->|E].
  - split; [done|]. by rewrite app_nil_r in H2.
  - split; [by apply flush_sentence_tight|]. by rewrite flush_sentence_ink.
Qed.

Lemma splitLongText_visit_spec chunkSize st sentence :
  chunks_ok st → tight sentence →
  let st' := splitLongText_visit chunkSize st sentence in
  chunks_ok st' ∧
  concat (ink <$> st'.1.1) ++ ink st'.1.2 =
    (concat (ink <$> st.1.1) ++ ink st.1.2) ++ ink sentence.
Proof.
  destruct st as [[chunks current] tokens]. intros [Hc Hcur] Hs.
  unfold splitLongText_visit. simpl in *.
  destruct (_ <=? _).
  - simpl. destruct (decide (current = [])) as [->|E].
    + split; [split; [done|by right]|]. simpl. by rewrite app_nil_r.
    + destruct Hcur as [|Hcur]; [done|]. split.
      * split; [done|]. right. by apply tight_join.
      * rewrite !ink_app. simpl. by rewrite app_nil_r, app_assoc.
  - simpl. destruct (decide (current = [])) as [->|E].
    + split; [split; [done|by right]|]. simpl. by rewrite app_nil_r.
    + destruct Hcur as [|Hcur]; [done|]. split.
      * split; [|by right]. apply Forall_app. split; [done|by constructor].
      * rewrite fmap_app, concat_app. simpl. by rewrite app_nil_r.
Qed.

Lemma splitLongText_fold_spec chunkSize sentences st :
  chunks_ok st → Forall tight sentences →
  let st' := foldl (splitLongText_visit chunkSize) st sentences in
  chunks_ok st' ∧
  concat (ink <$> st'.1.1) ++ ink st'.1.2 =
    (concat (ink <$> st.1.1) ++ ink st.1.2) ++ concat (ink <$> sentences).
Proof.
  revert st. induction sentences as [|x l IH]; intros st Hst Hl.
  - simpl. split; [done|]. by rewrite app_nil_r.
  - inversion Hl as [|?? Hx Hl']; subst. simpl.
    destruct (splitLongText_visit_spec chunkSize st x Hst Hx) as [H1 H2].
    destruct (IH _ H1 Hl') as [H3 H4]. split; [done|].
    simpl in H4. rewrite H4, H2. by rewrite <-!app_assoc.
Qed.

Lemma splitLongText_spec text chunkSize :
  Forall tight (splitLongText text chunkSize) ∧
  concat (ink <$> splitLongText text chunkSize) = ink text.
Proof.
  unfold splitLongText.
  destruct (splitSentences_spec text) as [Ht Hi].
  destruct (splitLongText_fold_spec chunkSize (splitSentences text) ([], [], 0))
    as [[Hc Hcur] H2]; [by split; [constructor|left]|done|].
  destruct (foldl _ _ _) as [[chunks current] tokens]. simpl in *.
  rewrite Hi in H2. destruct (decide (current = [])) as [->|E].
  - split; [done|]. by rewrite app_nil_r in H2.
  - destruct Hcur as [|Hcur]; [done|]. split.
    + apply Forall_app. split; [done|by constructor].
    + rewrite fmap_app, concat_app. simpl. by rewrite app_nil_r.
Qed.

Lemma indexed_snoc st text :
  indexed st → indexed (st.1 ++ [{| Text := text; Index := st.2 |}], st.2 + 1).
Proof.
  intros [Hn Hidx]. split; simpl.
  - rewrite length_app. simpl. lia.
  - intros i c Hl. apply lookup_app_Some in Hl as [Hl|[Hge Hl]]; [by apply Hidx|].
    apply list_lookup_singleton_Some in Hl as [Hi <-]. simpl. lia.
Qed.

(** The texts one paragraph adds to the chunks. *)
Lemma ChunkDocument_visit_spec cfg st para :
  indexed st →
  let st' := ChunkDocument_visit cfg st para in
  indexed st' ∧ Text <$> st'.1 = (Text <$> st.1) ++ paragraph_chunks cfg para.
Proof.
  intros Hst. unfold ChunkDocument_visit, paragraph_chunks.
  destruct (_ <=? _).
  - split; [by apply indexed_snoc|]. simpl. by rewrite fmap_app.
  - generalize (splitLongText para (ChunkSize cfg)). intros l. revert st Hst.
    induction l as [|x l IH]; intros st Hst.
    + simpl. split; [done|]. by rewrite app_nil_r.
    + simpl. destruct (IH _ (indexed_snoc st x Hst)) as [H1 H2].
      split; [done|]. rewrite H2. simpl. by rewrite fmap_app, <-app_assoc.
Qed.

Lemma ChunkDocument_fold_spec cfg paragraphs st :
  indexed st →
  let st' := foldl (ChunkDocument_visit cfg) st paragraphs in
  indexed st' ∧
  Text <$> st'.1 = (Text <$> st.1) ++ concat (paragraph_chunks cfg <$> paragraphs).
Proof.
  revert st. induction paragraphs as [|x l IH]; intros st Hst.
  - simpl. split; [done|]. by rewrite app_nil_r.
  - simpl. destruct (ChunkDocument_visit_spec cfg st x Hst) as [H1 H2].
    destruct (IH _ H1) as [H3 H4]. split; [done|].
    simpl in H4. rewrite H4, H2. by rewrite <-app_assoc.
Qed.

Lemma paragraph_chunks_ink cfg para :
  concat (ink <$> paragraph_chunks cfg para) = ink para.
Proof.
  unfold paragraph_chunks. destruct (_ <=? _).
  - simpl. apply app_nil_r.
  - apply splitLongText_spec.
Qed.

Lemma paragraph_chunks_tight cfg para :
  tight para → Forall tight (paragraph_chunks cfg para).
Proof.
  intros H. unfold paragraph_chunks. destruct (_ <=? _).
  - by constructor.
  - apply splitLongText_spec.
Qed.

Lemma paragraphs_chunks_ink cfg paragraphs :
  concat (ink <$> concat (paragraph_chunks cfg <$> paragraphs)) =
  concat (ink <$> paragraphs).
Proof.
  induction paragraphs as [|x l IH]; [done|].
  by rewrite !fmap_cons, !concat_cons, fmap_app, concat_app,
    paragraph_chunks_ink, IH.
Qed.

Lemma paragraphs_chunks_tight cfg paragraphs :
  Forall tight paragraphs →
  Forall tight (concat (paragraph_chunks cfg <$> paragraphs)).
Proof.
  induction 1 as [|x l Hx Hl IH]; [constructor|]. simpl.
  apply Forall_app. split; [by apply paragraph_chunks_tight|done].
Qed.

(** The chunks before the fallback for an empty result. *)
Lemma ChunkDocument_chunks text cfg :
  let st := foldl (ChunkDocument_visit cfg) ([], 0) (splitParagraphs text) in
  indexed st ∧
  Text <$> st.1 = concat (paragraph_chunks cfg <$> splitParagraphs text).
Proof.
  destruct (ChunkDocument_fold_spec cfg (splitParagraphs text) ([], 0))
    as [H1 H2]; [split; [done|]; by intros [|i] c|].
  split; [done|]. by rewrite H2.
Qed.

(** X23. [ChunkDocument] never returns an empty list, and the chunks are
    numbered 0, 1, 2, ... in the order they are returned. *)
Theorem X23_ChunkDocument_indices text cfg :
  ChunkDocument text cfg ≠ [] ∧
  ∀ i c, ChunkDocument text cfg !! i = Some c → Index c = Z.of_nat i.
Proof.
  unfold ChunkDocument.
  destruct (ChunkDocument_chunks text cfg) as [[_ Hidx] _].
  destruct (foldl _ _ _) as [chunks idx]. simpl in *.
  destruct (decide (chunks = [])) as [->|E].
  - split; [done|]. intros [|i] c; [by intros [= <-]|done].
  - done.
Qed.

(** X24. Chunking loses, repeats and reorders nothing but white space:
    the runes of the chunks that are not white space, read in order, are
    those of the document. *)
Theorem X24_ChunkDocument_keeps_text text cfg :
  ink (concat (Text <$> ChunkDocument text cfg)) = ink text.
Proof.
  unfold ChunkDocument.
  destruct (ChunkDocument_chunks text cfg) as [_ Htxt].
  destruct (foldl _ _ _) as [chunks idx]. simpl in *.
  destruct (decide (chunks = [])) as [->|E].
  - simpl. by rewrite app_nil_r.
  - by rewrite ink_concat, Htxt, paragraphs_chunks_ink, splitParagraphs_ink.
Qed.

Lemma ChunkDocument_chunks_trimmed text cfg c :
  ink text ≠ [] →
  c ∈ ChunkDocument text cfg →
  tight (Text c) ∧ TrimSpace (Text c) = Text c ∧ Text c ≠ [].
Proof.
  intros Hink Hc.
  assert (tight (Text c)) as Ht;
    [|by split; [|split; [apply tight_TrimSpace|apply tight_nonempty]]].
  revert Hc. unfold ChunkDocument.
  destruct (ChunkDocument_chunks text cfg) as [_ Htxt].
  destruct (foldl _ _ _) as [chunks idx]. simpl in *.
  destruct (splitParagraphs_tight text) as [Hp|[_ Hb]]; [|done].
  pose proof (paragraphs_chunks_tight cfg _ Hp) as Hall.
  rewrite <-Htxt in Hall.
  destruct (decide (chunks = [])) as [->|E].
  - exfalso. apply Hink.
    rewrite <-splitParagraphs_ink, <-(paragraphs_chunks_ink cfg), <-Htxt. done.
  - intros Hc. rewrite Forall_forall in Hall. apply Hall.
    apply list_elem_of_fmap. by exists c.
Qed.

Lemma ChunkDocument_blank text cfg :
  ink text = [] →
  ChunkDocument text cfg = [{| Text := text; Index := 0 |}].
Proof.
  intros Hb. unfold ChunkDocument.
  destruct (splitParagraphs_tight text) as [Hp|[Hp _]].
  - pose proof (splitParagraphs_ink text) as Hi. rewrite Hb in Hi.
    destruct (splitParagraphs text) as [|p l].
    + done.
    + inversion Hp as [|?? Hx _]; subst. apply tight_ink in Hx.
      simpl in Hi. by apply app_eq_nil in Hi as [? _].
  - rewrite Hp. simpl. unfold ChunkDocument_visit.
    destruct (_ <=? _); [done|].
    destruct (splitLongText_spec text (ChunkSize cfg)) as [Ht Hi].
    rewrite Hb in Hi. destruct (splitLongText text (ChunkSize cfg)) as [|x l].
    + done.
    + inversion Ht as [|?? Hx _]; subst. apply tight_ink in Hx.
      simpl in Hi. by apply app_eq_nil in Hi as [? _].
Qed.

(** X25. A blank document (empty, or white space only) comes back as one
    chunk holding the document as it is, with index 0.  For any other
    document every chunk is trimmed and not blank: it starts and ends with
    a rune that is not white space, and [strings.TrimSpace] leaves it as it
    is. *)
Theorem X25_ChunkDocument_blank_or_trimmed text cfg :
  (ink text = [] → ChunkDocument text cfg = [{| Text := text; Index := 0 |}]) ∧
  (ink text ≠ [] →
   ∀ c, c ∈ ChunkDocument text cfg →
        tight (Text c) ∧ TrimSpace (Text c) = Text c ∧ Text c ≠ []).
Proof.
  split.
  - apply ChunkDocument_blank.
  - intros Hink c. by apply ChunkDocument_chunks_trimmed.
Qed.

Lemma X25_ChunkDocument_blank_or_trimmed_witness :
  ChunkDocument [32; 10; 10; 9] {| ChunkSize := 0; ChunkOverlap := 0 |} =
    [{| Text := [32; 10; 10; 9]; Index := 0 |}] ∧
  ChunkDocument [72; 105; 46; 32; 89; 111; 46; 10; 10; 32; 79; 107]
                {| ChunkSize := 0; ChunkOverlap := 0 |} =
    [ {| Text := [72; 105; 46; 32; 89; 111; 46]; Index := 0 |};
      {| Text := [79; 107]; Index := 1 |} ] ∧
  TrimSpace [79; 107] = [79; 107].
Proof.
  assert (ChunkDocument [72; 105; 46; 32; 89; 111; 46; 10; 10; 32; 79; 107]
                        {| ChunkSize := 0; ChunkOverlap := 0 |} =
    [ {| Text := [72; 105; 46; 32; 89; 111; 46]; Index := 0 |};
      {| Text := [79; 107]; Index := 1 |} ]) as Hrun by (vm_compute; reflexivity).
  split; [|split; [exact Hrun|]].
  - apply (X25_ChunkDocument_blank_or_trimmed [32; 10; 10; 9]).
    vm_compute. reflexivity.
  - apply (proj2 (X25_ChunkDocument_blank_or_trimmed
                    [72; 105; 46; 32; 89; 111; 46; 10; 10; 32; 79; 107]
                    {| ChunkSize := 0; ChunkOverlap := 0 |})
             ltac:(vm_compute; discriminate)
             {| Text := [79; 107]; Index := 1 |}).
    rewrite Hrun. apply list_elem_of_lookup. by exists 1%nat.
Defined.

Lemma Split_from_no_newline s cur :
  Forall (λ r, r ≠ 10) s → Split_from [10; 10] s cur 0 = [cur ++ s].
Proof.
  intros H. revert cur. induction H as [|r rest Hr _ IH]; intros cur.
  - by rewrite app_nil_r.
  - rewrite Split_from_cons. simpl.
    apply Z.eqb_neq in Hr. rewrite Hr. simpl.
    by rewrite IH, <-app_assoc.
Qed.

Lemma isSentenceEnd_false runes i :
  Forall (λ r, is_terminator r = false) runes → isSentenceEnd runes i = false.
Proof.
  intros H. unfold isSentenceEnd. destruct (runes !! i) as [r|] eqn:E; [|done].
  by rewrite (Forall_lookup_1 _ _ _ _ H E).
Qed.

Lemma splitSentences_loop_plain runes rest i sentences current :
  Forall (λ r, is_terminator r = false) runes →
  splitSentences_loop runes rest i sentences current =
  (sentences, current ++ rest).
Proof.
  intros H. revert i current.
  induction rest as [|x rest IH]; intros i current.
  - by rewrite app_nil_r.
  - simpl. rewrite isSentenceEnd_false by done. by rewrite IH, <-app_assoc.
Qed.

(** X26. The chunker never cuts inside a sentence: a trimmed text with no
    line feed and no sentence terminator comes back as one chunk, whatever
    [ChunkSize] says. *)
Theorem X26_ChunkDocument_unbroken text cfg :
  tight text →
  Forall (λ r, r ≠ 10 ∧ is_terminator r = false) text →
  ChunkDocument text cfg = [{| Text := text; Index := 0 |}].
Proof.
  intros Ht Hall. apply Forall_and in Hall as [Hnl Hterm].
  pose proof (tight_nonempty _ Ht) as Hne.
  assert (splitParagraphs text = [text]) as Hp.
  { unfold splitParagraphs, Split. rewrite Split_from_no_newline by done.
    unfold trimmed_pieces. simpl. rewrite tight_TrimSpace by done.
    rewrite filter_cons_True by done. done. }
  assert (splitLongText text (ChunkSize cfg) = [text]) as Hl.
  { unfold splitLongText, splitSentences.
    rewrite splitSentences_loop_plain by done. simpl.
    rewrite decide_False by done. unfold flush_sentence. simpl.
    rewrite tight_TrimSpace by done. rewrite decide_False by done. simpl.
    destruct (_ <=? _); simpl; by rewrite decide_False. }
  unfold ChunkDocument. rewrite Hp. simpl. unfold ChunkDocument_visit.
  destruct (_ <=? _); [done|]. by rewrite Hl.
Qed.

Lemma X26_ChunkDocument_unbroken_witness :
  len [79; 107; 32; 111; 107; 32; 111; 107] / 4 = 2 ∧
  ChunkDocument [79; 107; 32; 111; 107; 32; 111; 107]
                {| ChunkSize := 1; ChunkOverlap := 0 |} =
    [{| Text := [79; 107; 32; 111; 107; 32; 111; 107]; Index := 0 |}].
Proof.
  split; [reflexivity|]. apply X26_ChunkDocument_unbroken.
  - split; [by exists 79|by exists 107].
  - repeat constructor; done.
Defined.

End Chunker.

(** * Write flags and the C++ HelloFS *)

Section WriteFlags.
Import agfs_cpp.

Lemma lor_uint32 a b :
  0 ≤ a < 2 ^ 32 → 0 ≤ b < 2 ^ 32 → 0 ≤ Z.lor a b < 2 ^ 32.
Proof.
  intros [Ha Ha'] [Hb Hb']. split; [by apply Z.lor_nonneg|].
  destruct (decide (Z.lor a b = 0)) as [->|Hne]; [done|].
  assert (0 < Z.lor a b) as Hpos by (pose proof (Z.lor_nonneg a b); lia).
  apply Z.log2_lt_pow2; [done|]. rewrite Z.log2_lor by done.
  apply Z.max_lub_lt.
  - destruct (decide (a = 0)) as [->|?]; [done|]. apply Z.log2_lt_pow2; lia.
  - destruct (decide (b = 0)) as [->|?]; [done|]. apply Z.log2_lt_pow2; lia.
Qed.

(** X27. [contains] asks whether two flag sets share a bit.  So a set
    built with [with] contains what either part contains, a test for a
    combined flag succeeds as soon as one of its flags is set, no set
    contains [NONE], and combining flags stays within [uint32_t]. *)
Theorem X27_WriteFlag_contains x a b :
  contains (with_ a b) x = contains a x || contains b x ∧
  contains x (with_ a b) = contains x a || contains x b ∧
  contains x NONE = false ∧
  (is_uint32 a → is_uint32 b → is_uint32 (with_ a b)).
Proof.
  unfold contains, with_, is_uint32. simpl. repeat split.
  - rewrite Z.land_lor_distr_l.
    destruct (Z.land (value a) (value x) =? 0) eqn:Ea,
             (Z.land (value b) (value x) =? 0) eqn:Eb; simpl;
      rewrite ?negb_true_iff, ?negb_false_iff, ?Z.eqb_eq, ?Z.eqb_neq;
      rewrite Z.lor_eq_0_iff; apply Z.eqb_eq in Ea || apply Z.eqb_neq in Ea;
      apply Z.eqb_eq in Eb || apply Z.eqb_neq in Eb; tauto.
  - rewrite Z.land_lor_distr_r.
    destruct (Z.land (value x) (value a) =? 0) eqn:Ea,
             (Z.land (value x) (value b) =? 0) eqn:Eb; simpl;
      rewrite ?negb_true_iff, ?negb_false_iff, ?Z.eqb_eq, ?Z.eqb_neq;
      rewrite Z.lor_eq_0_iff; apply Z.eqb_eq in Ea || apply Z.eqb_neq in Ea;
      apply Z.eqb_eq in Eb || apply Z.eqb_neq in Eb; tauto.
  - by rewrite Z.land_0_r.
  - apply lor_uint32; tauto.
  - apply lor_uint32; tauto.
Qed.

Lemma X27_WriteFlag_contains_witness :
  contains CREATE (with_ CREATE EXCLUSIVE) = true ∧
  is_uint32 (with_ CREATE EXCLUSIVE).
Proof.
  destruct (X27_WriteFlag_contains CREATE CREATE EXCLUSIVE) as (_ & H & _ & Hr).
  split; [by rewrite H|]. apply Hr; split; by vm_compute.
Defined.

End WriteFlags.

Section HelloFSCpp.
Import gostrings hellofs_cpp.

Lemma HasPrefix_app s t : HasPrefix (s +:+ t) s = true.
Proof.
  induction s as [|a s IH]; [by destruct t|].
  rewrite append_cons. simpl. by rewrite decide_True.
Qed.

Lemma empty_false s : empty s = false ↔ s ≠ "".
Proof. unfold empty. by rewrite String.eqb_neq. Qed.

Lemma get_host_path_empty path : get_host_path "" path = "".
Proof. unfold get_host_path. by rewrite andb_false_r. Qed.

Lemma get_host_path_spec host_prefix path :
  empty (get_host_path host_prefix path) = false →
  HasPrefix (get_host_path host_prefix path) host_prefix = true ∧
  HasPrefix path "/host/" = true ∧ empty host_prefix = false.
Proof.
  unfold get_host_path.
  destruct (HasPrefix path "/host/") eqn:E; [|done].
  destruct (empty host_prefix) eqn:E'; [done|]. simpl.
  intros _. by rewrite HasPrefix_app.
Qed.

Lemma HasPrefix_shorter s p q :
  HasPrefix s (p +:+ q) = true → HasPrefix s p = true.
Proof.
  revert s. induction p as [|a p IH]; intros s; [by destruct s|].
  rewrite append_cons. destruct s as [|c s]; [done|]. simpl.
  case_decide; [apply IH|done].
Qed.

Lemma HasPrefix_host path :
  HasPrefix path "/host/" = true → HasPrefix path "/host" = true.
Proof. apply (HasPrefix_shorter path "/host" "/"). Qed.

Lemma no_host_access_unless_configured req :
  host_call_of "" req = None.
Proof.
  destruct req; simpl;
    unfold read, stat, readdir, write, create, mkdir, remove, remove_all,
      rename, chmod;
    rewrite ?get_host_path_empty; simpl; rewrite ?andb_false_r;
    repeat (destruct (String.eqb _ _)); done.
Qed.

Lemma host_paths_under_prefix host_prefix req c :
  host_call_of host_prefix req = Some c →
  Forall (λ p, HasPrefix p host_prefix = true) (host_paths c) ∧
  Forall (λ p, HasPrefix p "/host" = true) (request_paths req).
Proof.
  assert (∀ p, empty (get_host_path host_prefix p) = false →
    HasPrefix (get_host_path host_prefix p) host_prefix = true ∧
    HasPrefix p "/host" = true) as Hg.
  { intros p H. apply get_host_path_spec in H as (? & ? & ?).
    split; [done|by apply HasPrefix_host]. }
  destruct req; simpl;
    unfold read, stat, readdir, write, create, mkdir, remove, remove_all,
      rename, chmod; simpl.
  - destruct (String.eqb path "/hello.txt"); [done|].
    destruct (empty (get_host_path host_prefix path)) eqn:E; [done|].
    intros [= <-]. simpl. apply Hg in E as [? ?]. by repeat constructor.
  - destruct (String.eqb path "/"); [done|].
    destruct (String.eqb path "/hello.txt"); [done|].
    destruct (String.eqb path "/host" && negb (empty host_prefix)); [done|].
    destruct (empty (get_host_path host_prefix path)) eqn:E; [done|].
    intros [= <-]. simpl. apply Hg in E as [? ?]. by repeat constructor.
  - destruct (String.eqb path "/"); [done|].
    destruct (String.eqb path "/host") eqn:Eh.
    + apply String.eqb_eq in Eh as ->.
      destruct (empty host_prefix) eqn:E'; simpl; [done|].
      intros [= <-]. simpl. split; [|by repeat constructor].
      repeat constructor. rewrite <-(append_nil_r host_prefix) at 1.
      apply HasPrefix_app.
    + simpl.
      destruct (empty (get_host_path host_prefix path)) eqn:E; [done|].
      intros [= <-]. simpl. apply Hg in E as [? ?]. by repeat constructor.
  - destruct (empty (get_host_path host_prefix path)) eqn:E; [done|].
    intros [= <-]. simpl. apply Hg in E as [? ?]. by repeat constructor.
  - destruct (empty (get_host_path host_prefix path)) eqn:E; [done|].
    intros [= <-]. simpl. apply Hg in E as [? ?]. by repeat constructor.
  - destruct (empty (get_host_path host_prefix path)) eqn:E; [done|].
    intros [= <-]. simpl. apply Hg in E as [? ?]. by repeat constructor.
  - destruct (empty (get_host_path host_prefix path)) eqn:E; [done|].
    intros [= <-]. simpl. apply Hg in E as [? ?]. by repeat constructor.
  - destruct (empty (get_host_path host_prefix path)) eqn:E; [done|].
    intros [= <-]. simpl. apply Hg in E as [? ?]. by repeat constructor.
  - destruct (empty (get_host_path host_prefix old_path)) eqn:E; [done|].
    destruct (empty (get_host_path host_prefix new_path)) eqn:E2; [done|].
    intros [= <-]. simpl. apply Hg in E as [? ?]. apply Hg in E2 as [? ?].
    by repeat constructor.
  - done.
Qed.

(** X28. Without a [host_prefix] no request reaches the host
    filesystem.  With one, every path handed to the host starts with the
    prefix, and only requests on paths under [/host] are handed over. *)
Theorem X28_host_access host_prefix req :
  host_call_of "" req = None ∧
  ∀ c, host_call_of host_prefix req = Some c →
       Forall (λ p, HasPrefix p host_prefix = true) (host_paths c) ∧
       Forall (λ p, HasPrefix p "/host" = true) (request_paths req).
Proof.
  split; [apply no_host_access_unless_configured|].
  apply host_paths_under_prefix.
Qed.

Lemma X28_host_access_witness :
  host_call_of "/srv" (Rename "/host/a" "/host/b/c") =
    Some (HostFS_rename "/srv/a" "/srv/b/c") ∧
  Forall (λ p, HasPrefix p "/srv" = true) ["/srv/a"; "/srv/b/c"].
Proof.
  assert (host_call_of "/srv" (Rename "/host/a" "/host/b/c") =
          Some (HostFS_rename "/srv/a" "/srv/b/c")) as H by reflexivity.
  split; [exact H|].
  exact (proj1 (proj2 (X28_host_access "/srv" _) _ H)).
Defined.

(** X29. The listing of the root and [stat] agree: every entry [readdir]
    lists at [/] is what [stat] returns for its path, and for a file the
    size listed is the number of bytes [read] returns. *)
Theorem X29_readdir_stat_agree host_prefix entries e :
  readdir host_prefix "/" = Value entries →
  e ∈ entries →
  stat host_prefix ("/" +:+ name e) = Value e ∧
  (is_dir e = false →
   ∀ offset n, ∃ data,
     read host_prefix ("/" +:+ name e) offset n = Value data ∧
     size e = Z.of_nat (String.length data)).
Proof.
  unfold readdir. simpl. intros [= <-] He.
  apply elem_of_cons in He as [->|He].
  - split; [done|]. intros _ offset sz. by exists content.
  - destruct (empty host_prefix) eqn:E; simpl in He.
    + by apply elem_of_nil in He.
    + apply list_elem_of_singleton in He as ->. split; [|done].
      unfold stat. simpl. by rewrite E.
Qed.

Lemma X29_readdir_stat_agree_witness :
  stat "/srv" "/host" = Value (dir "host" 493) ∧
  stat "" "/hello.txt" = Value (file "hello.txt" 21 420).
Proof.
  split.
  - apply (X29_readdir_stat_agree "/srv" _ (dir "host" 493) eq_refl).
    apply list_elem_of_lookup. by exists 1%nat.
  - apply (X29_readdir_stat_agree "" _ (file "hello.txt" 21 420) eq_refl).
    apply list_elem_of_lookup. by exists 0%nat.
Defined.

End HelloFSCpp.

(** * devfs: listing and stat *)

Section DevFS.
Import devfs.

(** X30. What devfs lists, it can stat and read: a listing that succeeds
    is the listing of [/], and every entry listed is what [Stat] returns for
    its path at the same time, a file of size 0 whose reads end at once
    with [EOF]. *)
Theorem X30_devfs_ReadDir_Stat_agree path now entries :
  ReadDir path now = (Some entries, None) →
  path = "/" ∧
  ∀ e, e ∈ entries →
       Stat (path +:+ Name e) now = (Some e, None) ∧
       IsDir e = false ∧ Size e = 0 ∧
       ∀ offset size, Read (path +:+ Name e) offset size = (None, Some EOF).
Proof.
  unfold ReadDir. destruct (String.eqb path "/") eqn:E; [|done].
  apply String.eqb_eq in E as ->. intros [= <-]. split; [done|].
  intros e He. apply list_elem_of_singleton in He as ->. done.
Qed.

Lemma X30_devfs_ReadDir_Stat_agree_witness :
  ∃ e, ReadDir "/" 1700000000 = (Some [e], None) ∧
       Stat "/null" 1700000000 = (Some e, None).
Proof.
  set (e := {| Name := "null"; Size := 0; Mode := 438; ModTime := 1700000000;
               IsDir := false;
               Meta := {| MetaName := PluginName; MetaType := "device" |} |}).
  exists e. split; [reflexivity|].
  change (Stat ("/" +:+ Name e) 1700000000 = (Some e, None)).
  apply (proj2 (X30_devfs_ReadDir_Stat_agree "/" 1700000000 [e] eq_refl) e).
  apply list_elem_of_lookup. by exists 0%nat.
Defined.

End DevFS.
